(** * MPI+OpenMP matrix transpose kernel (MPIOPENMP/Transpose/transpose.c)

    A shallow embedding of the transpose kernel of the Parallel Research
    Kernels and the verification of its specification.

    - [size_t] values are integers in [[0, 2^64)], every operation written
      with its wrap-around; [int] values are 32-bit two's complement.
    - [double] values are IEEE 754 binary64 numbers, taken from the
      executable specification of the Standard Library ([SpecFloat]).
    - The buffers [A_p], [B_p] and the workspace are lists indexed from 0;
      a load or store outside the allocation is a fault.
    - The ranks run in lock step: in every phase all ranks post their
      message, then all ranks complete their receive.  MPI matches a
      receive with the first message of the same source and tag. *)

From Stdlib Require Import ZArith Lia Bool.
From Stdlib Require Import Floats.SpecFloat.
From stdpp Require Import base tactics option list list_numbers.

Local Open Scope Z_scope.

(** ** Machine integers *)

Module MachineInt.

Definition SIZE_MAX : Z := 2 ^ 64 - 1.
Definition INT_MAX : Z := 2 ^ 31 - 1.
Definition INT_MIN : Z := - 2 ^ 31.

(** Conversion to [size_t]: reduction modulo 2^64. *)
Definition to_size_t (z : Z) : Z := z mod 2 ^ 64.

(** Conversion to [int]: two's complement on 32 bits. *)
Definition to_int (z : Z) : Z := (z + 2 ^ 31) mod 2 ^ 32 - 2 ^ 31.

Definition size_add (a b : Z) : Z := to_size_t (a + b).
Definition size_sub (a b : Z) : Z := to_size_t (a - b).
Definition size_mul (a b : Z) : Z := to_size_t (a * b).
Definition size_div (a b : Z) : Z := a / b.
Definition size_rem (a b : Z) : Z := a mod b.

Definition int_mul (a b : Z) : Z := to_int (a * b).

(** [MIN(x,y)] of par-res-kern_general.h, the smaller of its arguments. *)
Definition MIN (x y : Z) : Z := if x <? y then x else y.

Definition is_size_t (z : Z) : Prop := 0 <= z <= SIZE_MAX.
Definition is_int (z : Z) : Prop := INT_MIN <= z <= INT_MAX.

End MachineInt.
Export MachineInt.

(** ** Double precision numbers *)

Module Double.

Definition double : Type := spec_float.

Definition prec : Z := 53.
Definition emax : Z := 1024.

Definition fadd : double -> double -> double := SFadd prec emax.
Definition fsub : double -> double -> double := SFsub prec emax.
Definition fmul : double -> double -> double := SFmul prec emax.
Definition fdiv : double -> double -> double := SFdiv prec emax.
Definition flt : double -> double -> bool := SFltb.
Definition fabs : double -> double := SFabs.

(** [(double) z] for an integer [z]: rounding to nearest, ties to even. *)
Definition of_Z (z : Z) : double := binary_normalize prec emax z 0 false.

Definition pzero : double := S754_zero false.
Definition minus_one : double := S754_finite true (2 ^ 52) (-52).

(** The least integer not below a finite, non-integral number
      [(-1)^s * m * 2^e] with [e < 0]. *)
Definition ceil_int (s : bool) (m : positive) (e : Z) : Z :=
    if s then - (Z.pos m / 2 ^ (- e)) else - ((- Z.pos m) / 2 ^ (- e)).

(** [ceil] of math.h. *)
Definition ceil (x : double) : double :=
    match x with
    | S754_finite s m e =>
        if 0 <=? e then x
        else match ceil_int s m e with
             | 0 => S754_zero s
             | n => binary_normalize prec emax n 0 s
             end
    | _ => x
    end.

(** Truncation toward zero of a finite number. *)
Definition trunc (s : bool) (m : positive) (e : Z) : Z :=
    let a := if 0 <=? e then Z.pos m * 2 ^ e else Z.pos m / 2 ^ (- e) in
    if s then - a else a.

Section Conversion.
    (** The conversion of a double to [int] truncates toward zero.  When
        the number is infinite, not a number, or its integral part is not
        an [int], the result is an unspecified [int]: [fp_invalid] chooses
        it. *)
Variable fp_invalid : double -> Z.

Definition to_int_of_double (x : double) : Z :=
      match x with
      | S754_zero _ => 0
      | S754_finite s m e =>
          let t := trunc s m e in
          if (INT_MIN <=? t) && (t <=? INT_MAX) then t
          else to_int (fp_invalid x)
      | _ => to_int (fp_invalid x)
      end.
End Conversion.

End Double.
Export Double.

(** ** MatrixLayout: partition sizes and the tiling decision *)

Section Layout.
Variable fp_invalid : double -> Z.
(** [COLLAPSE] is the compile-time switch of the 2-D tiling variant. *)
Variable COLLAPSE : bool.

Definition Block_order_of (order Num_procs : Z) : Z := size_div order (to_size_t Num_procs).
Definition colstart_of (Block_order my_ID : Z) : Z := size_mul Block_order (to_size_t my_ID).
Definition Colblock_size_of (order Block_order : Z) : Z := size_mul order Block_order.
Definition Block_size_of (Block_order : Z) : Z := size_mul Block_order Block_order.

(** [tiling = (Tile_order > 0) && (Tile_order < order)] *)
Definition tiling_requested (order Tile_order : Z) : bool :=
    (0 <? Tile_order) && (Tile_order <? order).

(** [concurrency = ceil((double)Block_order/(double)Tile_order)],
      squared under [COLLAPSE]. *)
Definition concurrency_of (Block_order Tile_order : Z) : Z :=
    let c := to_int_of_double fp_invalid
               (ceil (fdiv (of_Z Block_order) (of_Z Tile_order))) in
    if COLLAPSE then int_mul c c else c.

(** The value of [tiling] after
      [if (tiling && (concurrency < nthread_input)) tiling = 0]. *)
Definition tiling_of (order Num_procs Tile_order nthread_input : Z) : bool :=
    let Block_order := Block_order_of order Num_procs in
    let tiling := tiling_requested order Tile_order in
    let concurrency := concurrency_of Block_order Tile_order in
    if tiling && (concurrency <? nthread_input) then false else tiling.
End Layout.


(** The run parameters every rank holds after the broadcast, with the
    final value of [tiling]. *)
Record config := {
  Num_procs : Z;
  order : Z;
  Tile_order : Z;
  tiling : bool;
  iterations : Z;
}.

Definition Block_order (c : config) : Z := Block_order_of (order c) (Num_procs c).
Definition colstart (c : config) (my_ID : Z) : Z := colstart_of (Block_order c) my_ID.
Definition Colblock_size (c : config) : Z := Colblock_size_of (order c) (Block_order c).
Definition Block_size (c : config) : Z := Block_size_of (Block_order c).

(** [bytes = 2UL * sizeof(double) * order * order] *)
Definition bytes (c : config) : Z :=
  size_mul (size_mul (size_mul 2 8) (order c)) (order c).

(** ** Faults and results *)

Inductive fault :=
| OutOfBounds        (* load or store outside an allocation *)
| OutOfFuel          (* a loop that does not end *)
| AllocationFailed   (* malloc returned NULL *)
| NoMatchingMessage  (* a receive that no send matches *)
| Truncated          (* a message longer than the receive buffer *)
| InvalidCount       (* a negative count handed to MPI *)
| UndefinedBehaviour. (* an operation the C standard leaves undefined *)

Inductive result (A : Type) :=
| Ok (a : A)
| Fault (f : fault).
Arguments Ok {A} a.
Arguments Fault {A} f.

#[global] Instance result_ret : MRet result := λ A a, Ok a.
#[global] Instance result_bind : MBind result :=
  λ A B f m, match m with Ok a => f a | Fault e => Fault e end.

(** ** Loops *)

(** [for (i = start; cond(i); i = next(i)) body(i)] *)
Fixpoint for_loop {St : Type} (fuel : nat) (i : Z) (cond : Z -> bool) (next : Z -> Z)
    (body : Z -> St -> result St) (s : St) : result St :=
  if cond i then
    match fuel with
    | O => Fault OutOfFuel
    | S fuel' => s' ← body i s; for_loop fuel' (next i) cond next body s'
    end
  else Ok s.

(** [for (i = start; i < bound; i += step) body(i)] on [size_t]. *)
Definition for_lt {St : Type} (start bound step : Z)
    (body : Z -> St -> result St) (s : St) : result St :=
  for_loop (Z.to_nat bound) start (λ i, i <? bound) (λ i, size_add i step) body s.

(** [for (i = start; i <= bound; i++) body(i)] on [size_t]. *)
Definition for_le {St : Type} (start bound : Z)
    (body : Z -> St -> result St) (s : St) : result St :=
  for_loop (Z.to_nat (bound + 1)) start (λ i, i <=? bound) (λ i, size_add i 1) body s.

(** ** The tiling decision with the undefined operations of C marked

    The conversion of a double to [int] is undefined when the integral
    part is not an [int] (C11 6.3.1.4), and so is a signed multiplication
    whose result is not an [int] (C11 6.5).  The decision of lines 236-243
    again, stopping at such an operation. *)
Definition to_int_checked (x : double) : result Z :=
  match x with
  | S754_zero _ => Ok 0
  | S754_finite s m e =>
      let t := trunc s m e in
      if (INT_MIN <=? t) && (t <=? INT_MAX) then Ok t
      else Fault UndefinedBehaviour
  | _ => Fault UndefinedBehaviour
  end.

Definition int_mul_checked (a b : Z) : result Z :=
  if (INT_MIN <=? a * b) && (a * b <=? INT_MAX) then Ok (a * b)
  else Fault UndefinedBehaviour.

Definition concurrency_checked (COLLAPSE : bool) (Block_order Tile_order : Z)
    : result Z :=
  c ← to_int_checked (ceil (fdiv (of_Z Block_order) (of_Z Tile_order)));
  if COLLAPSE then int_mul_checked c c else Ok c.

Definition tiling_checked (COLLAPSE : bool) (order Num_procs Tile_order nthread_input : Z)
    : result bool :=
  let Block_order := Block_order_of order Num_procs in
  let tiling := tiling_requested order Tile_order in
  concurrency ← concurrency_checked COLLAPSE Block_order Tile_order;
  Ok (if tiling && (concurrency <? nthread_input) then false else tiling).

(** ** The memory of one rank *)

Definition load (buf : list double) (k : Z) : result double :=
  match buf !! Z.to_nat k with
  | Some v => Ok v
  | None => Fault OutOfBounds
  end.

Definition store (buf : list double) (k : Z) (v : double) : result (list double) :=
  if k <? Z.of_nat (length buf) then Ok (<[Z.to_nat k := v]> buf)
  else Fault OutOfBounds.

(** [sizeof(double)] *)
Definition sizeof_double : Z := 8.

(** [malloc(bytes)]: the cells of a fresh region that [bytes] bytes hold,
    with the contents they happen to have, or NULL when the region is too
    small.  The caller computes [bytes] on [size_t]; when that product
    wraps, the block is shorter than the caller takes it to be. *)
Definition malloc (bytes : Z) (fresh : list double) : result (list double) :=
  let n := bytes / sizeof_double in
  if n <=? Z.of_nat (length fresh) then Ok (take (Z.to_nat n) fresh)
  else Fault AllocationFailed.

(** [Work_p] is the one allocation of [2*Block_size] doubles:
    [Work_in_p] is its start and [Work_out_p = Work_in_p + Block_size].
    [B_stores] records the indices of [B_p] stored to, latest first. *)
Record rank_state := {
  A_p : list double;
  B_p : list double;
  Work_p : list double;
  B_stores : list Z;
}.

Definition Work_in_p (c : config) : Z := 0.
Definition Work_out_p (c : config) : Z := Work_in_p c + Block_size c.

(** [#define A(i,j) A_p[(i+istart)+order*(j)]], and the same for [B]. *)
Definition Colblock_index (c : config) (istart i j : Z) : Z :=
  size_add (size_add i istart) (size_mul (order c) j).

(** [#define Work_in(i,j) Work_in_p[i+Block_order*(j)]], and the same for
    [Work_out]. *)
Definition Work_index (c : config) (i j : Z) : Z :=
  size_add i (size_mul (Block_order c) j).

Definition get_A (c : config) (istart i j : Z) (s : rank_state) : result double :=
  load (A_p s) (Colblock_index c istart i j).

Definition set_A (c : config) (istart i j : Z) (v : double) (s : rank_state)
    : result rank_state :=
  A' ← store (A_p s) (Colblock_index c istart i j) v;
  Ok {| A_p := A'; B_p := B_p s; Work_p := Work_p s; B_stores := B_stores s |}.

Definition set_B (c : config) (istart i j : Z) (v : double) (s : rank_state)
    : result rank_state :=
  B' ← store (B_p s) (Colblock_index c istart i j) v;
  Ok {| A_p := A_p s; B_p := B'; Work_p := Work_p s;
        B_stores := Colblock_index c istart i j :: B_stores s |}.

Definition get_Work_in (c : config) (i j : Z) (s : rank_state) : result double :=
  load (Work_p s) (Work_in_p c + Work_index c i j).

Definition set_Work_out (c : config) (i j : Z) (v : double) (s : rank_state)
    : result rank_state :=
  W' ← store (Work_p s) (Work_out_p c + Work_index c i j) v;
  Ok {| A_p := A_p s; B_p := B_p s; Work_p := W'; B_stores := B_stores s |}.

(** ** Allocation and initialisation (lines 271-319) *)

Definition allocate (c : config) (fresh : list double * list double * list double)
    : result rank_state :=
  A ← malloc (size_mul (Colblock_size c) sizeof_double) fresh.1.1;
  B ← malloc (size_mul (Colblock_size c) sizeof_double) fresh.1.2;
  W ← (if 1 <? Num_procs c
       then malloc (size_mul (size_mul 2 (Block_size c)) sizeof_double) fresh.2
       else Ok []);
  Ok {| A_p := A; B_p := B; Work_p := W; B_stores := [] |}.

(** [A(i,j) = (double) (order*(j+colstart) + i); B(i,j) = -1.0;] *)
Definition init_cell (c : config) (my_ID i j : Z) (s : rank_state) : result rank_state :=
  s1 ← set_A c 0 i j
         (of_Z (size_add (size_mul (order c) (size_add j (colstart c my_ID))) i)) s;
  set_B c 0 i j minus_one s1.

Definition initialize (c : config) (my_ID : Z) (s : rank_state) : result rank_state :=
  if tiling c then
    for_lt 0 (Block_order c) (Tile_order c) (λ j,
      for_lt 0 (order c) (Tile_order c) (λ i,
        for_lt j (MIN (Block_order c) (size_add j (Tile_order c))) 1 (λ jt,
          for_lt i (MIN (order c) (size_add i (Tile_order c))) 1 (λ it,
            init_cell c my_ID it jt)))) s
  else
    for_lt 0 (Block_order c) 1 (λ j,
      for_lt 0 (order c) 1 (λ i,
        init_cell c my_ID i j)) s.

(** ** LocalTransposer (lines 331-350 and 362-381)

    The source has the two loop nests twice, once storing to [B(j,i)] and
    once to [Work_out(j,i)]; [put j i v] is that store. *)
Definition transpose_flat (c : config) (istart : Z)
    (put : Z -> Z -> double -> rank_state -> result rank_state)
    (s : rank_state) : result rank_state :=
  for_lt 0 (Block_order c) 1 (λ i,
    for_lt 0 (Block_order c) 1 (λ j s,
      v ← get_A c istart i j s; put j i v s)) s.

Definition transpose_tiled (c : config) (istart : Z)
    (put : Z -> Z -> double -> rank_state -> result rank_state)
    (s : rank_state) : result rank_state :=
  for_lt 0 (Block_order c) (Tile_order c) (λ i,
    for_lt 0 (Block_order c) (Tile_order c) (λ j,
      for_lt i (MIN (Block_order c) (size_add i (Tile_order c))) 1 (λ it,
        for_lt j (MIN (Block_order c) (size_add j (Tile_order c))) 1 (λ jt s,
          v ← get_A c istart it jt s; put jt it v s)))) s.

Definition transpose_block (c : config) (istart : Z)
    (put : Z -> Z -> double -> rank_state -> result rank_state)
    (s : rank_state) : result rank_state :=
  if negb (tiling c) then transpose_flat c istart put s
  else transpose_tiled c istart put s.

(** The local transpose: [istart = colstart; B(j,i) = A(i,j)]. *)
Definition local_transpose (c : config) (my_ID : Z) (s : rank_state) : result rank_state :=
  let istart := colstart c my_ID in
  transpose_block c istart (set_B c istart) s.

(** The transpose of the outgoing block:
    [istart = send_to*Block_order; Work_out(j,i) = A(i,j)]. *)
Definition pack_block (c : config) (send_to : Z) (s : rank_state) : result rank_state :=
  let istart := size_mul (to_size_t send_to) (Block_order c) in
  transpose_block c istart (set_Work_out c) s.

(** The scatter: [istart = recv_from*Block_order; B(i,j) = Work_in(i,j)]. *)
Definition scatter (c : config) (recv_from : Z) (s : rank_state) : result rank_state :=
  let istart := size_mul (to_size_t recv_from) (Block_order c) in
  for_lt 0 (Block_order c) 1 (λ j,
    for_lt 0 (Block_order c) 1 (λ i s,
      v ← get_Work_in c i j s; set_B c istart i j v s)) s.

(** ** ExchangeScheduler (lines 352-402) *)

(** [recv_from = (my_ID + phase)%Num_procs]: [phase] is a [size_t], so the
    sum and the remainder are taken on [size_t]. *)
Definition recv_from_of (c : config) (my_ID phase : Z) : Z :=
  to_int (size_rem (size_add (to_size_t my_ID) phase) (to_size_t (Num_procs c))).

(** [send_to = (my_ID - phase + Num_procs)%Num_procs] *)
Definition send_to_of (c : config) (my_ID phase : Z) : Z :=
  to_int (size_rem (size_add (size_sub (to_size_t my_ID) phase) (to_size_t (Num_procs c)))
                   (to_size_t (Num_procs c))).

Record message := {
  msg_src : Z;
  msg_dst : Z;
  msg_tag : Z;
  msg_data : list double;
}.

(** [count] cells of [buf] from [off] on. *)
Definition read_cells (buf : list double) (off count : Z) : result (list double) :=
  if off + count <=? Z.of_nat (length buf)
  then Ok (take (Z.to_nat count) (drop (Z.to_nat off) buf))
  else Fault OutOfBounds.

Definition write_cells (buf : list double) (off : Z) (data : list double)
    : result (list double) :=
  if off + Z.of_nat (length data) <=? Z.of_nat (length buf)
  then Ok (take (Z.to_nat off) buf ++ data
           ++ drop (Z.to_nat off + length data) buf)
  else Fault OutOfBounds.

(** The first message on the wire from [src] to [dst] with tag [tag], and
    the wire without it. *)
Fixpoint take_message (src dst tag : Z) (wire : list message)
    : option (message * list message) :=
  match wire with
  | [] => None
  | m :: wire' =>
      if (msg_src m =? src) && (msg_dst m =? dst) && (msg_tag m =? tag)
      then Some (m, wire')
      else match take_message src dst tag wire' with
           | Some (m', rest) => Some (m', m :: rest)
           | None => None
           end
  end.

(** The [int count] of the MPI calls: [Block_size] is a [size_t] and is
    converted to the [int] parameter. *)
Definition mpi_count (c : config) : Z := to_int (Block_size c).

(** The first half of a phase on one rank, without [SYNCHRONOUS]: post
    the receive of [count] doubles into [Work_in_p], transpose the
    outgoing block, and post the send of [count] doubles from
    [Work_out_p] to [send_to] with tag [phase].  MPI refuses a negative
    count, and its errors are fatal. *)
Definition post_send (c : config) (phase my_ID : Z) (s : rank_state)
    : result (rank_state * message) :=
  let send_to := send_to_of c my_ID phase in
  if mpi_count c <? 0 then Fault InvalidCount else
  s1 ← pack_block c send_to s;
  data ← read_cells (Work_p s1) (Work_out_p c) (mpi_count c);
  Ok (s1, {| msg_src := my_ID; msg_dst := send_to;
             msg_tag := to_int phase; msg_data := data |}).

(** The second half: complete the receive of at most [count] doubles
    from [recv_from] with tag [phase] into [Work_in_p], then scatter. *)
Definition complete_recv (c : config) (phase my_ID : Z) (s : rank_state)
    (wire : list message) : result (rank_state * list message) :=
  let recv_from := recv_from_of c my_ID phase in
  match take_message recv_from my_ID (to_int phase) wire with
  | None => Fault NoMatchingMessage
  | Some (m, wire') =>
      if Z.of_nat (length (msg_data m)) <=? mpi_count c then
        W' ← write_cells (Work_p s) (Work_in_p c) (msg_data m);
        s2 ← scatter c recv_from
               {| A_p := A_p s; B_p := B_p s; Work_p := W'; B_stores := B_stores s |};
        Ok (s2, wire')
      else Fault Truncated
  end.

(** ** All ranks together *)

(** [traffic] records (source, destination, tag) of every message posted,
    latest first. *)
Record world := {
  ranks : list rank_state;
  wire : list message;
  traffic : list (Z * Z * Z);
}.

(** [f my_ID] on every rank in turn, [my_ID] counting from [i]. *)
Fixpoint on_ranks {A B : Type} (f : Z -> A -> result B) (i : Z) (l : list A)
    : result (list B) :=
  match l with
  | [] => Ok []
  | a :: l' => b ← f i a; bs ← on_ranks f (i + 1) l'; Ok (b :: bs)
  end.

(** The receives of the ranks from [i] on, each taking its message off the
    wire. *)
Fixpoint complete_all (c : config) (phase : Z) (i : Z) (l : list rank_state)
    (wire : list message) : result (list rank_state * list message) :=
  match l with
  | [] => Ok ([], wire)
  | s :: l' =>
      r ← complete_recv c phase i s wire;
      rs ← complete_all c phase (i + 1) l' r.2;
      Ok (r.1 :: rs.1, rs.2)
  end.

Definition exchange_phase (c : config) (phase : Z) (w : world) : result world :=
  posted ← on_ranks (post_send c phase) 0 (ranks w);
  let sent := posted.*2 in
  done ← complete_all c phase 0 posted.*1 (wire w ++ sent);
  Ok {| ranks := done.1; wire := done.2;
        traffic := rev ((λ m, (msg_src m, msg_dst m, msg_tag m)) <$> sent)
                   ++ traffic w |}.

(** [for (phase=1; phase<Num_procs; phase++)] *)
Definition exchange_phases (c : config) (w : world) : result world :=
  for_lt 1 (to_size_t (Num_procs c)) 1 (exchange_phase c) w.

(** One iteration of the transpose: the local transpose on every rank,
    then the phases. *)
Definition transpose_iteration (c : config) (w : world) : result world :=
  rs ← on_ranks (local_transpose c) 0 (ranks w);
  exchange_phases c {| ranks := rs; wire := wire w; traffic := traffic w |}.

(** ** The iterations and the timer (lines 321-407) *)

Inductive event :=
| EvBarrier
| EvTimerStart
| EvTranspose (iter : Z)
| EvTimerStop.

(** [wtime()] on one rank, as a function of the number of events that
    have happened when it is read. *)
Definition timer : Type := nat -> double.

(** The world, the events so far (latest first) and the value of
    [local_trans_time] on every rank. *)
Record run_state := {
  rs_world : world;
  rs_events : list event;
  rs_time : list double;
}.

(** The body of [for (iter = 0; iter<=iterations; iter++)]:
    [if (iter == 1) { MPI_Barrier(..); local_trans_time = wtime(); }]
    and the transpose. *)
Definition iteration_body (c : config) (timers : list timer) (iter : Z) (st : run_state)
    : result run_state :=
  let ev1 := if iter =? 1 then EvBarrier :: rs_events st else rs_events st in
  let time := if iter =? 1 then (λ wtime : timer, wtime (length ev1)) <$> timers
              else rs_time st in
  let ev2 := if iter =? 1 then EvTimerStart :: ev1 else ev1 in
  w ← transpose_iteration c (rs_world st);
  Ok {| rs_world := w; rs_events := EvTranspose iter :: ev2; rs_time := time |}.

(** The loop, then [local_trans_time = wtime() - local_trans_time].
    [time0] holds the values [local_trans_time] has before it is set. *)
Definition all_iterations (c : config) (timers : list timer) (time0 : list double)
    (w : world) : result run_state :=
  st ← for_le 0 (iterations c) (iteration_body c timers)
         {| rs_world := w; rs_events := []; rs_time := time0 |};
  Ok {| rs_world := rs_world st;
        rs_events := EvTimerStop :: rs_events st;
        rs_time := zip_with (λ (wtime : timer) t, fsub (wtime (length (rs_events st))) t)
                     timers (rs_time st) |}.

Definition start_world (c : config)
    (fresh : list (list double * list double * list double)) : result world :=
  rs ← on_ranks (λ my_ID f, s ← allocate c f; initialize c my_ID s) 0 fresh;
  Ok {| ranks := rs; wire := []; traffic := [] |}.

(** ** Validator (lines 409-431) *)

(** Modelled from the spec: [ABS] of par-res-kern_general.h is missing
    from the sources; the spec has the validator accumulate the absolute
    difference. *)
Definition ABS (x : double) : double := fabs x.

(** [epsilon = 1.e-8] *)
Definition epsilon : double := Eval vm_compute in fdiv (of_Z 1) (of_Z (10 ^ 8)).

(** [abserr += ABS(B(i,j) - (double)(order*i + j+colstart))] *)
Definition abserr_cell (c : config) (my_ID : Z) (s : rank_state) (i j : Z)
    (abserr : double) : result double :=
  v ← load (B_p s) (Colblock_index c 0 i j);
  Ok (fadd abserr
        (ABS (fsub v (of_Z (size_add (size_add (size_mul (order c) i) j)
                                     (colstart c my_ID)))))).

Definition abserr_of (c : config) (my_ID : Z) (s : rank_state) : result double :=
  for_lt 0 (Block_order c) 1 (λ j,
    for_lt 0 (order c) 1 (λ i, abserr_cell c my_ID s i j)) pzero.

(** [MPI_Reduce] to the root: the values of the ranks combined in rank
    order. *)
Definition reduce (op : double -> double -> double) (vals : list double) : double :=
  match vals with
  | [] => pzero
  | v :: vs => foldl op v vs
  end.

Definition abserr_tot_of (c : config) (w : world) : result double :=
  errs ← on_ranks (abserr_of c) 0 (ranks w);
  Ok (reduce fadd errs).

(** [abserr_tot < epsilon] *)
Definition validates (abserr_tot : double) : bool := flt abserr_tot epsilon.

(** ** Timer/Reporter (lines 405-407 and 418-422) *)

(** [MPI_MAX] on doubles. *)
Definition fmax (a b : double) : double := if flt a b then b else a.

(** [MPI_Reduce(&local_trans_time, &trans_time, 1, MPI_DOUBLE, MPI_MAX, ..)] *)
Definition trans_time_of (local_trans_time : list double) : double :=
  reduce fmax local_trans_time.

(** [avgtime = trans_time/(double)iterations] *)
Definition avgtime_of (c : config) (trans_time : double) : double :=
  fdiv trans_time (of_Z (iterations c)).

(** [1.0E-06] *)
Definition one_millionth : double := Eval vm_compute in fdiv (of_Z 1) (of_Z (10 ^ 6)).

(** The rate printed as MB/s: [1.0E-06*bytes/avgtime]. *)
Definition rate_of (c : config) (avgtime : double) : double :=
  fdiv (fmul one_millionth (of_Z (bytes c))) avgtime.

Record report := {
  rep_validates : bool;
  rep_abserr_tot : double;
  rep_trans_time : double;
  rep_avgtime : double;
  rep_rate : double;
  rep_events : list event;
  rep_world : world;
}.

(** The run after the parameters are broadcast; the events of the report
    are in the order they happened. *)
Definition run (c : config) (fresh : list (list double * list double * list double))
    (timers : list timer) (time0 : list double) : result report :=
  w0 ← start_world c fresh;
  st ← all_iterations c timers time0 w0;
  let trans_time := trans_time_of (rs_time st) in
  abserr_tot ← abserr_tot_of c (rs_world st);
  Ok {| rep_validates := validates abserr_tot; rep_abserr_tot := abserr_tot;
        rep_trans_time := trans_time;
        rep_avgtime := avgtime_of c trans_time;
        rep_rate := rate_of c (avgtime_of c trans_time);
        rep_events := rev (rs_events st); rep_world := rs_world st |}.

(** ** Auxiliary notions of the proofs *)

(** The second stage of [binary_round_aux]: a rounded mantissa in
    [[2^52, 2^53]] is brought back to 53 digits. *)
Definition renorm (s : bool) (q : Z) (e : Z) : double :=
  if q =? 2 ^ 53 then S754_finite s (2 ^ 52) (e + 1)
  else S754_finite s (Z.to_pos q) e.

(** The body of a loop run over the list of the values its variable takes. *)
Fixpoint fold_result {A St : Type} (body : A -> St -> result St) (l : list A) (s : St)
    : result St :=
  match l with
  | [] => Ok s
  | x :: l' => s' ← body x s; fold_result body l' s'
  end.

(** The values of [i] in [for (i=0; i<n; i+=T)]. *)
Definition tile_starts (n T : Z) : list Z := (λ k, k * T) <$> seqZ 0 ((n + T - 1) / T).

(** The values of [it] in [for (it=i; it<MIN(n,i+T); it++)]. *)
Definition tile_cells (n T i : Z) : list Z := seqZ i (Z.min n (i + T) - i).

(** The index pairs two nested unit-stride loops visit, in order. *)
Definition flat_pairs (n m : Z) : list (Z * Z) :=
  x ← seqZ 0 n; pair x <$> seqZ 0 m.

(** The index pairs the four tiled loops visit, in order. *)
Definition tiled_pairs (n m T : Z) : list (Z * Z) :=
  i ← tile_starts n T; j ← tile_starts m T;
  it ← tile_cells n T i; pair it <$> tile_cells m T j.

#[global] Instance double_inhabited : Inhabited double := populate pzero.

(** The buffer after the stores [buf[d p] = v p] for the pairs of [l] in
    turn. *)
Definition stores_to (d : Z * Z -> Z) (v : Z * Z -> double) (l : list (Z * Z))
    (buf : list double) : list double :=
  foldl (λ b p, <[Z.to_nat (d p) := v p]> b) buf l.

(** The configurations the argument tests let through: a positive number
    of ranks, an order that the ranks divide and that [atoi] can return,
    at least one iteration, and tiling only with a tile order in
    [(0, order)]. *)
Definition valid_config (c : config) : bool :=
  (1 <=? Num_procs c) && (Num_procs c <=? order c) && (order c <=? INT_MAX)
  && (order c mod Num_procs c =? 0)
  && (1 <=? iterations c) && (iterations c <=? INT_MAX)
  && (0 <=? Tile_order c) && (Tile_order c <=? SIZE_MAX)
  && (negb (tiling c) || ((0 <? Tile_order c) && (Tile_order c <? order c))).

(** The fresh memory of a rank is large enough for its allocations. *)
Definition enough_memory (c : config) (fresh : list double * list double * list double)
    : bool :=
  (Colblock_size c <=? Z.of_nat (length fresh.1.1))
  && (Colblock_size c <=? Z.of_nat (length fresh.1.2))
  && ((Num_procs c <=? 1) || (2 * Block_size c <=? Z.of_nat (length fresh.2))).

(** The index pairs the loops over a block visit, and those the
    initialisation visits, with the tiling of the configuration. *)
Definition block_pairs (c : config) : list (Z * Z) :=
  if tiling c then tiled_pairs (Block_order c) (Block_order c) (Tile_order c)
  else flat_pairs (Block_order c) (Block_order c).

Definition init_pairs (c : config) : list (Z * Z) :=
  if tiling c then tiled_pairs (Block_order c) (order c) (Tile_order c)
  else flat_pairs (Block_order c) (order c).

(** The position of the pair (outer index, inner index) in a buffer with
    the inner index running fastest. *)
Definition strided (off stride : Z) (p : Z * Z) : Z := p.2 + off + stride * p.1.

Definition swap_pair (p : Z * Z) : Z * Z := (p.2, p.1).

(** The state of a rank after [pack_block], the message it then posts,
    and its state after the scatter of the block received from [p]: the
    closed forms the proofs compare the loops with. *)
Definition packed (c : config) (q : Z) (s : rank_state) : rank_state :=
  {| A_p := A_p s; B_p := B_p s;
     Work_p := stores_to (strided (Block_size c) (Block_order c))
                 (λ p, A_p s !!! Z.to_nat (strided (Block_order c * q) (order c) (swap_pair p)))
                 (block_pairs c) (Work_p s);
     B_stores := B_stores s |}.

Definition message_of (c : config) (phase r : Z) (s : rank_state) : message :=
  {| msg_src := r; msg_dst := send_to_of c r phase; msg_tag := to_int phase;
     msg_data := take (Z.to_nat (Block_size c))
                   (drop (Z.to_nat (Block_size c))
                      (Work_p (packed c (send_to_of c r phase) s))) |}.

Definition scattered (c : config) (p : Z) (data : list double) (s : rank_state)
    : rank_state :=
  let W' := data ++ drop (length data) (Work_p s) in
  {| A_p := A_p s;
     B_p := stores_to (strided (Block_order c * p) (order c))
              (λ x, W' !!! Z.to_nat (strided 0 (Block_order c) x))
              (flat_pairs (Block_order c) (Block_order c)) (B_p s);
     Work_p := W';
     B_stores := rev (strided (Block_order c * p) (order c)
                        <$> flat_pairs (Block_order c) (Block_order c))
                 ++ B_stores s |}.

(** The buffers of a rank have the sizes of the allocation. *)
Definition rank_shaped (c : config) (s : rank_state) : Prop :=
  Z.of_nat (length (A_p s)) = Colblock_size c ∧
  Z.of_nat (length (B_p s)) = Colblock_size c ∧
  (1 < Num_procs c -> Z.of_nat (length (Work_p s)) = 2 * Block_size c).

(** [A(i,j) = order*(j+colstart) + i] on rank [r]. *)
Definition A_initialised (c : config) (r : Z) (s : rank_state) : Prop :=
  ∀ i j, 0 <= i < order c -> 0 <= j < Block_order c ->
    A_p s !! Z.to_nat (i + order c * j)
    = Some (of_Z (order c * (j + colstart c r) + i)).

(** [B(i,j) = order*i + (j+colstart)] on rank [r], for the rows of the
    block that rank [q] contributes. *)
Definition B_block_transposed (c : config) (r q : Z) (s : rank_state) : Prop :=
  ∀ x j, 0 <= x < Block_order c -> 0 <= j < Block_order c ->
    B_p s !! Z.to_nat (x + Block_order c * q + order c * j)
    = Some (of_Z (order c * (x + Block_order c * q) + (j + colstart c r))).

(** [B(i,j) = order*i + (j+colstart)] on rank [r], for every row. *)
Definition B_transposed (c : config) (r : Z) (s : rank_state) : Prop :=
  ∀ i j, 0 <= i < order c -> 0 <= j < Block_order c ->
    B_p s !! Z.to_nat (i + order c * j)
    = Some (of_Z (order c * i + (j + colstart c r))).

#[global] Instance rank_state_inhabited : Inhabited rank_state :=
  populate {| A_p := []; B_p := []; Work_p := []; B_stores := [] |}.

(** The data of the message on the wire for rank [q]. *)
Fixpoint inbox (wire : list message) (q : Z) : list double :=
  match wire with
  | [] => []
  | m :: wire' => if msg_dst m =? q then msg_data m else inbox wire' q
  end.

(** The messages of a phase, and the ranks after it, in closed form. *)
Definition sent_messages (c : config) (phase : Z) (rs : list rank_state) : list message :=
  imap (λ k s, message_of c phase (Z.of_nat k) s) rs.

Definition after_phase (c : config) (phase : Z) (rs : list rank_state) : list rank_state :=
  imap (λ k s,
          let p := recv_from_of c (Z.of_nat k) phase in
          scattered c p (msg_data (message_of c phase p (rs !!! Z.to_nat p)))
            (packed c (send_to_of c (Z.of_nat k) phase) s)) rs.

Definition after_local_transpose (c : config) (r : Z) (s : rank_state) : rank_state :=
  {| A_p := A_p s;
     B_p := stores_to (strided (Block_order c * r) (order c))
              (λ p, A_p s !!! Z.to_nat (strided (Block_order c * r) (order c) (swap_pair p)))
              (block_pairs c) (B_p s);
     Work_p := Work_p s;
     B_stores := rev (strided (Block_order c * r) (order c) <$> block_pairs c)
                 ++ B_stores s |}.

(** The indices of [B_p] that rank [r] stores to, in the order of the
    stores: the local transpose, then the scatters of the phases
    [1..n]. *)
Definition chron_stores (c : config) (r n : Z) : list Z :=
  (strided (Block_order c * r) (order c) <$> block_pairs c)
  ++ (d ← seqZ 1 n;
      strided (Block_order c * recv_from_of c r d) (order c)
        <$> flat_pairs (Block_order c) (Block_order c)).

(** The (source, destination, tag) of the messages of the phases
    [1..n], in the order they are posted. *)
Definition chron_traffic (c : config) (n : Z) : list (Z * Z * Z) :=
  d ← seqZ 1 n; (λ k, (k, send_to_of c k d, to_int d)) <$> seqZ 0 (Num_procs c).

(** The ranks [rs] after the local transpose and the phases [1..n] of an
    iteration that started from the ranks [rs0]: the source blocks are
    untouched, and the row blocks of [B] received so far hold the
    transposed blocks of the senders. *)
Definition phase_inv (c : config) (n : Z) (rs0 rs : list rank_state) : Prop :=
  length rs = length rs0 ∧
  ∀ k s0, rs0 !! k = Some s0 ->
    ∃ s, rs !! k = Some s ∧
      A_p s = A_p s0 ∧
      rank_shaped c s ∧
      B_stores s = rev (chron_stores c (Z.of_nat k) n) ++ B_stores s0 ∧
      ∀ d, 0 <= d <= n ->
        let b := recv_from_of c (Z.of_nat k) d in
        ∀ x j, 0 <= x < Block_order c -> 0 <= j < Block_order c ->
          B_p s !! Z.to_nat (x + Block_order c * b + order c * j)
          = A_p (rs0 !!! Z.to_nat b) !! Z.to_nat (j + Block_order c * Z.of_nat k + order c * x).

(** A world between two iterations. *)
Definition world_shaped (c : config) (w : world) : Prop :=
  Z.of_nat (length (ranks w)) = Num_procs c ∧
  (∀ k s, ranks w !! k = Some s -> rank_shaped c s) ∧
  wire w = [].

(** The ranks after the phases [1..n]. *)
Fixpoint after_phases (c : config) (n : nat) (rs : list rank_state) : list rank_state :=
  match n with
  | O => rs
  | S n' => after_phase c (Z.of_nat n' + 1) (after_phases c n' rs)
  end.

(** The ranks after one iteration. *)
Definition after_iteration (c : config) (rs : list rank_state) : list rank_state :=
  after_phases c (Z.to_nat (Num_procs c - 1))
    (imap (λ k s, after_local_transpose c (Z.of_nat k) s) rs).

(** The world after [n] more iterations. *)
Definition world_after (c : config) (n : nat) (w : world) : world :=
  {| ranks := Nat.iter n (after_iteration c) (ranks w);
     wire := wire w;
     traffic := Nat.iter n (λ t, rev (chron_traffic c (Num_procs c - 1)) ++ t)
                  (traffic w) |}.

(** The events of iteration [iter], and those of the iterations before
    [n], in the order they happen. *)
Definition iteration_events (iter : Z) : list event :=
  (if iter =? 1 then [EvBarrier; EvTimerStart] else []) ++ [EvTranspose iter].

Definition events_upto (n : Z) : list event := i ← seqZ 0 n; iteration_events i.

(** A rank after its allocations and after its initialisation, in closed
    form. *)
Definition allocated (c : config) (f : list double * list double * list double)
    : rank_state :=
  {| A_p := take (Z.to_nat (Colblock_size c)) f.1.1;
     B_p := take (Z.to_nat (Colblock_size c)) f.1.2;
     Work_p := if 1 <? Num_procs c then take (Z.to_nat (2 * Block_size c)) f.2 else [];
     B_stores := [] |}.

Definition initialised (c : config) (r : Z) (s : rank_state) : rank_state :=
  {| A_p := stores_to (strided 0 (order c))
              (λ p, of_Z (order c * (p.1 + Block_order c * r) + p.2))
              (init_pairs c) (A_p s);
     B_p := stores_to (strided 0 (order c)) (λ _, minus_one) (init_pairs c) (B_p s);
     Work_p := Work_p s;
     B_stores := rev (strided 0 (order c) <$> init_pairs c) ++ B_stores s |}.

Definition first_world (c : config) (fresh : list (list double * list double * list double))
    : world :=
  {| ranks := imap (λ k f, initialised c (Z.of_nat k) (allocated c f)) fresh;
     wire := []; traffic := [] |}.

(** The value of [local_trans_time] on every rank after the iterations
    before [n]: the timer is read in iteration 1, when the events of
    iteration 0 and the barrier have happened. *)
Definition time_after (timers : list timer) (time0 : list double) (n : nat) : list double :=
  match n with
  | O | S O => time0
  | _ => (λ wtime : timer, wtime 2%nat) <$> timers
  end.

(** A double that is a number: a zero or a finite number. *)
Definition is_number (x : double) : bool :=
  match x with
  | S754_zero _ | S754_finite _ _ _ => true
  | _ => false
  end.

(** The double [x] is the integer [z], without rounding. *)
Definition double_is_int (x : double) (z : Z) : Prop :=
  match x with
  | S754_zero _ => z = 0
  | S754_finite s m e => e <= 0 ∧ (if s then - Z.pos m else Z.pos m) = z * 2 ^ (- e)
  | _ => False
  end.

(** [rank_shaped] and [world_shaped] as tests. *)
Definition rank_shapedb (c : config) (s : rank_state) : bool :=
  (Z.of_nat (length (A_p s)) =? Colblock_size c)
  && (Z.of_nat (length (B_p s)) =? Colblock_size c)
  && ((Num_procs c <=? 1) || (Z.of_nat (length (Work_p s)) =? 2 * Block_size c)).

Definition world_shapedb (c : config) (w : world) : bool :=
  (Z.of_nat (length (ranks w)) =? Num_procs c)
  && forallb (rank_shapedb c) (ranks w)
  && match wire w with [] => true | _ => false end.

(** ** The transpose in the words of the specification

    [dest[c][r] = source[r][c]] for every element of a block of order
    [n]: [source r c] and [dest c r] are the cells the two-index accesses
    of the source and of the destination denote, and each of them is a
    cell of its buffer. *)
Definition spec_transposed (n : Z) (source dest : Z -> Z -> option double) : Prop :=
  ∀ r c, 0 <= r < n -> 0 <= c < n -> is_Some (source r c) ∧ dest c r = source r c.

(** The same source block. *)
Definition same_A (s s' : rank_state) : Prop := A_p s' = A_p s.

(** The same source blocks on all ranks. *)
Definition ranks_same_A (w w' : world) : Prop := Forall2 same_A (ranks w) (ranks w').

(** The sum the validator forms on a rank whose [B_p] is [B]: the
    absolute differences in the order of the loops, column by column. *)
Definition abs_error_sum (c : config) (my_ID : Z) (B : list double) : double :=
  foldl (λ abserr p,
           SFadd prec emax abserr
             (SFabs (SFsub prec emax (B !!! Z.to_nat (p.2 + order c * p.1))
                       (of_Z (order c * p.2 + p.1 + colstart c my_ID)))))
    pzero (flat_pairs (Block_order c) (order c)).

(** The sizes the program computes are the sizes it means: the byte
    count of a column block fits [size_t], and with more than one rank
    the cell count of a block fits the [int] count of the MPI calls. *)
Definition sizes_fit (c : config) : bool :=
  (Colblock_size c * sizeof_double <=? SIZE_MAX)
  && ((Num_procs c <=? 1) || (Block_size c <=? INT_MAX)).

Record sizes_ok (c : config) : Prop := {
  so_bytes : Colblock_size c * sizeof_double <= SIZE_MAX;
  so_count : 1 < Num_procs c -> Block_size c <= INT_MAX;
}.

(** What a valid configuration gives about the layout. *)
Record layout_ok (c : config) : Prop := {
  lo_procs : 1 <= Num_procs c <= INT_MAX;
  lo_order : Num_procs c <= order c <= INT_MAX;
  lo_block : 1 <= Block_order c <= order c;
  lo_div : Block_order c * Num_procs c = order c;
  lo_colblock : Colblock_size c = order c * Block_order c;
  lo_blocksize : Block_size c = Block_order c * Block_order c;
  lo_iter : 1 <= iterations c <= INT_MAX;
  lo_tile : 0 <= Tile_order c <= SIZE_MAX;
  lo_tiling : tiling c = true -> 0 < Tile_order c < order c;
}.

(** ** The input tests of the root rank (lines 176-215)

    [argv] holds the values [atoi] returns for the arguments after the
    program name, so [argc] is their number plus one.  A test that fails
    sets [error] and jumps to [ENDOFTESTS]. *)
Inductive input_error :=
| UsageError
| InvalidThreads (nthread_input : Z)
| InvalidIterations (iterations : Z)
| OrderTooSmall (order : Z)
| OrderNotDivisible (order : Z).

Record input := {
  in_nthread_input : Z;
  in_iterations : Z;
  in_order : Z;
  in_Tile_order : Z;
}.

Section Input.
(** [MAX_THREADS] of par-res-kern_mpiomp.h, a header that is not among
    the sources. *)
Variable MAX_THREADS : Z.

(** [iterations], [order] and [Tile_order] are [size_t]: the [int] of
    [atoi] is converted, and [order] is compared with and divided by
    [Num_procs] as a [size_t]. *)
Definition test_input (Num_procs : Z) (argv : list Z) : input_error + input :=
  let argc := 1 + Z.of_nat (length argv) in
  if negb (argc =? 4) && negb (argc =? 5) then inl UsageError else
  let nthread_input := argv !!! 0%nat in
  if (nthread_input <? 1) || (MAX_THREADS <? nthread_input)
  then inl (InvalidThreads nthread_input) else
  let iterations := to_size_t (argv !!! 1%nat) in
  if iterations <? 1 then inl (InvalidIterations iterations) else
  let order := to_size_t (argv !!! 2%nat) in
  if order <? to_size_t Num_procs then inl (OrderTooSmall order) else
  if negb (size_rem order (to_size_t Num_procs) =? 0)
  then inl (OrderNotDivisible order) else
  let Tile_order := if argc =? 5 then to_size_t (argv !!! 3%nat) else 32 in
  inr {| in_nthread_input := nthread_input; in_iterations := iterations;
         in_order := order; in_Tile_order := Tile_order |}.

End Input.

(** The parameters of a rank after the broadcast and the tiling decision
    (lines 217-243). *)
Definition config_of (fp_invalid : double -> Z) (COLLAPSE : bool) (Num_procs : Z)
    (i : input) : config :=
  {| Num_procs := Num_procs; order := in_order i; Tile_order := in_Tile_order i;
     tiling := tiling_of fp_invalid COLLAPSE (in_order i) Num_procs (in_Tile_order i)
                 (in_nthread_input i);
     iterations := in_iterations i |}.

(** The configuration with the tiling flag set to [b]. *)
Definition with_tiling (b : bool) (c : config) : config :=
  {| Num_procs := Num_procs c; order := order c; Tile_order := Tile_order c;
     tiling := b; iterations := iterations c |}.

(** ** Sample inputs

    Two ranks on a matrix of order 4 with tiles of order 1 and two timed
    iterations; one rank on a matrix of order 2; and the memory, timers
    and worlds that go with them. *)
Definition sample_config : config :=
  {| Num_procs := 2; order := 4; Tile_order := 1; tiling := true; iterations := 2 |}.

Definition sample_fresh : list (list double * list double * list double) :=
  replicate 2 (replicate 8 pzero, replicate 8 pzero, replicate 8 pzero).

Definition sample_timers : list timer :=
  [λ n, of_Z (Z.of_nat n); λ n, of_Z (2 * Z.of_nat n)].

Definition sample_rank : rank_state :=
  {| A_p := of_Z <$> seqZ 0 8; B_p := replicate 8 minus_one;
     Work_p := replicate 8 pzero; B_stores := [] |}.

Definition sample_world : world :=
  {| ranks := replicate 2 sample_rank; wire := []; traffic := [] |}.





Definition large_matrix_config : config :=
  {| Num_procs := 1; order := 1518500250; Tile_order := 0; tiling := false;
     iterations := 1 |}.




Lemma digits2_pos_size p : digits2_pos p = Pos.size p.
Proof. induction p; simpl; congruence. Qed.

Lemma digits2_bounds p :
  2 ^ (Z.pos (digits2_pos p) - 1) <= Z.pos p < 2 ^ Z.pos (digits2_pos p).
Proof.
  rewrite digits2_pos_size. split.
  - pose proof (Pos.size_le p) as H.
    assert (Z.pos (2 ^ Pos.size p) <= Z.pos p~0) by lia.
    rewrite Pos2Z.inj_pow in H0.
    replace (Z.pos (Pos.size p)) with (Z.succ (Z.pos (Pos.size p) - 1)) in H0 by lia.
    rewrite Z.pow_succ_r in H0 by lia. lia.
  - pose proof (Pos.size_gt p) as H.
    assert (Z.pos p < Z.pos (2 ^ Pos.size p)) by lia.
    now rewrite Pos2Z.inj_pow in H0.
Qed.

Lemma digits2_unique p d :
  2 ^ (d - 1) <= Z.pos p < 2 ^ d -> Z.pos (digits2_pos p) = d.
Proof.
  intros [Hl Hu]. pose proof (digits2_bounds p) as [Hl' Hu'].
  set (d' := Z.pos (digits2_pos p)) in *.
  assert (0 < d).
  { destruct d as [|d|d]; [simpl in Hu; lia|lia|].
    rewrite Z.pow_neg_r in Hu; lia. }
  destruct (Z.lt_trichotomy d d') as [Hlt|[->|Hlt]]; [|done|]; exfalso.
  - assert (2 ^ d <= 2 ^ (d' - 1)) by (apply Z.pow_le_mono_r; lia). lia.
  - assert (2 ^ d' <= 2 ^ (d - 1)) by (apply Z.pow_le_mono_r; lia). lia.
Qed.

Lemma iter_xO_pow p k : Z.pos (Pos.iter xO p k) = Z.pos p * 2 ^ Z.pos k.
Proof.
  induction k using Pos.peano_ind.
  - simpl. lia.
  - rewrite Pos.iter_succ, Pos2Z.inj_xO, IHk, Pos2Z.inj_succ, Z.pow_succ_r by lia. lia.
Qed.

Lemma emin_eq : emin prec emax = -1074.
Proof. reflexivity. Qed.

Lemma fexp_eq e : -1021 <= e -> fexp prec emax e = e - 53.
Proof. intros. unfold fexp. rewrite emin_eq. unfold prec. lia. Qed.

Lemma loc_of_shr_record_of_loc m l :
  loc_of_shr_record (shr_record_of_loc m l) = l.
Proof. by destruct l as [|[]]. Qed.

Lemma shr_m_record_of_loc m l : shr_m (shr_record_of_loc m l) = m.
Proof. by destruct l as [|[]]. Qed.

(** No shift is needed for a mantissa of 53 digits. *)
Lemma shr_fexp_53 m e l :
  Z.pos (digits2_pos m) = 53 -> -1074 <= e ->
  shr_fexp prec emax (Z.pos m) e l = (shr_record_of_loc (Z.pos m) l, e).
Proof.
  intros Hd He. unfold shr_fexp. cbn [Zdigits2]. rewrite Hd.
  rewrite fexp_eq by lia. replace (53 + e - 53 - e) with 0 by lia. done.
Qed.

(** A mantissa of 54 digits is shifted by one position. *)
Lemma shr_fexp_54 m e l :
  Z.pos (digits2_pos m) = 54 -> -1074 <= e ->
  shr_fexp prec emax (Z.pos m) e l = (shr_1 (shr_record_of_loc (Z.pos m) l), e + 1).
Proof.
  intros Hd He. unfold shr_fexp. cbn [Zdigits2]. rewrite Hd.
  rewrite fexp_eq by lia. replace (54 + e - 53 - e) with 1 by lia. done.
Qed.

Lemma round_stage2 s q e :
  2 ^ 52 <= q <= 2 ^ 53 -> -1074 <= e <= 970 ->
  (let '(mrs, e') := shr_fexp prec emax q e loc_Exact in
   match shr_m mrs with
   | 0 => S754_zero s
   | Z.pos m => if e' <=? emax - prec then S754_finite s m e' else S754_infinity s
   | Z.neg _ => S754_nan
   end) = renorm s q e.
Proof.
  intros Hq He. unfold renorm.
  destruct (Z.eqb_spec q (2 ^ 53)) as [->|Hne].
  - change (2 ^ 53) with (Z.pos (2 ^ 53)).
    rewrite shr_fexp_54 by (done || lia). cbn -[Z.leb Z.add].
    destruct (Z.leb_spec (e + 1) (emax - prec)); [done|]. unfold emax, prec in *. lia.
  - destruct q as [|q|q]; [lia| |lia].
    rewrite shr_fexp_53; [|apply digits2_unique; lia|lia].
    cbn -[Z.leb].
    destruct (Z.leb_spec e (emax - prec)); [done|]. unfold emax, prec in *. lia.
Qed.

Lemma binary_round_aux_53 s q e l :
  Z.pos (digits2_pos q) = 53 -> -1074 <= e <= 970 ->
  binary_round_aux prec emax s (Z.pos q) e l
  = renorm s (round_nearest_even (Z.pos q) l) e.
Proof.
  intros Hd He. unfold binary_round_aux.
  rewrite shr_fexp_53 by (done || lia).
  rewrite loc_of_shr_record_of_loc, shr_m_record_of_loc.
  apply round_stage2; [|done].
  pose proof (digits2_bounds q) as Hb. rewrite Hd in Hb.
  change (53 - 1) with 52 in Hb.
  destruct l as [|[]]; cbn [round_nearest_even]; try lia.
  destruct (Z.even _); lia.
Qed.

Lemma shr_1_m q r s : 0 <= q -> shr_m (shr_1 (Build_shr_record q r s)) = q / 2.
Proof.
  intros Hq. destruct q as [|[q|q|]|]; cbn [shr_1 shr_m]; [done| | |done|lia].
  - apply Z.div_unique with 1; lia.
  - apply Z.div_unique with 0; lia.
Qed.

Lemma binary_round_aux_54 s q e l :
  Z.pos (digits2_pos q) = 54 -> -1074 <= e <= 969 ->
  binary_round_aux prec emax s (Z.pos q) e l
  = let mrs := shr_1 (shr_record_of_loc (Z.pos q) l) in
    renorm s (round_nearest_even (shr_m mrs) (loc_of_shr_record mrs)) (e + 1).
Proof.
  intros Hd He. unfold binary_round_aux.
  rewrite shr_fexp_54 by (done || lia). cbv zeta.
  apply round_stage2; [|lia].
  pose proof (digits2_bounds q) as Hb. rewrite Hd in Hb.
  change (54 - 1) with 53 in Hb.
  set (mrs := shr_1 _).
  assert (shr_m mrs = Z.pos q / 2) as Hm.
  { subst mrs. destruct l as [|[]]; cbn [shr_record_of_loc]; apply shr_1_m; lia. }
  assert (2 ^ 52 <= Z.pos q / 2 < 2 ^ 53).
  { split; [apply Z.div_le_lower_bound; lia | apply Z.div_lt_upper_bound; lia]. }
  rewrite Hm.
  destruct (loc_of_shr_record mrs) as [|[]]; cbn [round_nearest_even]; try lia.
  destruct (Z.even _); lia.
Qed.

Lemma renorm_normal s q e :
  0 < q < 2 ^ 53 -> renorm s q e = S754_finite s (Z.to_pos q) e.
Proof. intros. unfold renorm. destruct (Z.eqb_spec q (2 ^ 53)); [lia|done]. Qed.

(** [(double) z] is exact for [0 < z < 2^53]: the mantissa is [z] shifted
    to 53 digits. *)
Lemma of_Z_normal z d :
  2 ^ (d - 1) <= z < 2 ^ d -> 0 < d <= 53 ->
  of_Z z = S754_finite false (Z.to_pos (z * 2 ^ (53 - d))) (d - 53).
Proof.
  intros Hz Hd.
  assert (0 < 2 ^ (d - 1)) by (apply Z.pow_pos_nonneg; lia).
  destruct z as [|p|p]; [lia| |lia].
  pose proof (digits2_unique p d Hz) as Hp.
  unfold of_Z, binary_normalize, binary_round. rewrite Hp.
  rewrite fexp_eq by lia. unfold shl_align.
  destruct (Z.eq_dec d 53) as [->|Hne].
  - change (53 + 0 - 53 - 0) with 0. cbv iota beta.
    rewrite binary_round_aux_53 by (done || lia).
    cbn [round_nearest_even]. rewrite renorm_normal.
    + do 2 f_equal. change (2 ^ (53 - 53)) with 1. lia.
    + change (2 ^ 53) with (2 ^ 53) in *. lia.
  - replace (d + 0 - 53 - 0) with (Z.neg (Z.to_pos (53 - d))) by lia.
    assert (Z.pos (Pos.iter xO p (Z.to_pos (53 - d))) = Z.pos p * 2 ^ (53 - d)) as Hm.
    { rewrite iter_xO_pow. f_equal. f_equal. lia. }
    assert (2 ^ 52 <= Z.pos p * 2 ^ (53 - d) < 2 ^ 53) as Hr.
    { assert (2 ^ 52 = 2 ^ (d - 1) * 2 ^ (53 - d)) as ->
        by (rewrite <- Z.pow_add_r by lia; f_equal; lia).
      assert (2 ^ 53 = 2 ^ d * 2 ^ (53 - d)) as ->
        by (rewrite <- Z.pow_add_r by lia; f_equal; lia).
      assert (0 < 2 ^ (53 - d)) by (apply Z.pow_pos_nonneg; lia).
      split; [apply Z.mul_le_mono_nonneg_r; lia | apply Z.mul_lt_mono_pos_r; lia]. }
    cbv iota beta. rewrite binary_round_aux_53.
    + cbn [round_nearest_even]. rewrite renorm_normal by lia.
      f_equal; [|lia]. rewrite <- Hm. done.
    + apply digits2_unique. rewrite Hm. exact Hr.
    + lia.
Qed.

Lemma of_Z_pos_digits z :
  0 < z < 2 ^ 53 ->
  ∃ d, 0 < d <= 53 ∧ 2 ^ (d - 1) <= z < 2 ^ d.
Proof.
  intros Hz. destruct z as [|p|p]; try lia.
  exists (Z.pos (digits2_pos p)). pose proof (digits2_bounds p) as Hb.
  split; [|done]. split; [lia|].
  destruct (Z.le_gt_cases (Z.pos (digits2_pos p)) 53) as [|Hgt]; [done|].
  assert (2 ^ 53 <= 2 ^ (Z.pos (digits2_pos p) - 1)) by (apply Z.pow_le_mono_r; lia).
  lia.
Qed.

Lemma new_location_zero B : new_location B 0 = loc_Exact.
Proof. unfold new_location, new_location_even, new_location_odd. by destruct (Z.even B). Qed.

Lemma new_location_gt B r :
  0 < r -> B < 2 * r -> new_location B r = loc_Inexact Gt.
Proof.
  intros Hr Hgt. unfold new_location, new_location_even, new_location_odd.
  destruct (Z.even B); cbv beta; (destruct (Z.eqb_spec r 0); [lia|]).
  - destruct (Z.compare_spec (2 * r) B); [lia|lia|reflexivity].
  - destruct (Z.compare_spec (2 * r + 1) B); [lia|lia|reflexivity].
Qed.

Lemma new_location_inexact B r :
  r ≠ 0 -> ∃ c, new_location B r = loc_Inexact c.
Proof.
  intros Hr. unfold new_location, new_location_even, new_location_odd.
  destruct (Z.even B); cbv beta; (destruct (Z.eqb_spec r 0); [lia|]); eauto.
Qed.

Lemma shr_1_spec q r s :
  0 <= q -> shr_1 (Build_shr_record q r s) = Build_shr_record (q / 2) (Z.odd q) (r || s).
Proof.
  intros Hq. destruct q as [|[q|q|]|]; cbn [shr_1 Z.odd]; [done| | |done|lia]; f_equal.
  - apply Z.div_unique with 1; lia.
  - apply Z.div_unique with 0; lia.
Qed.

Lemma round_nearest_even_cases q l :
  round_nearest_even q l = q ∨ round_nearest_even q l = q + 1.
Proof. destruct l as [|[]]; cbn; auto. destruct (Z.even q); auto. Qed.

Lemma binary_round_aux_lo s q e l :
  2 ^ 52 <= q < 2 ^ 53 -> -1074 <= e <= 970 ->
  binary_round_aux prec emax s q e l = renorm s (round_nearest_even q l) e.
Proof.
  intros Hq He. destruct q as [|q|q]; [lia| |lia].
  apply binary_round_aux_53; [|done]. by apply digits2_unique.
Qed.

Lemma binary_round_aux_hi s q e l :
  2 ^ 53 <= q < 2 ^ 54 -> -1074 <= e <= 969 ->
  binary_round_aux prec emax s q e l
  = let mrs := shr_1 (shr_record_of_loc q l) in
    renorm s (round_nearest_even (shr_m mrs) (loc_of_shr_record mrs)) (e + 1).
Proof.
  intros Hq He. destruct q as [|q|q]; [lia| |lia].
  apply binary_round_aux_54; [|done]. by apply digits2_unique.
Qed.

(** The quotient of two 53-digit mantissas, as [SFdiv] sets it up. *)
Lemma fdiv_normal ma ea mb eb :
  Z.pos (digits2_pos ma) = 53 -> Z.pos (digits2_pos mb) = 53 ->
  -52 <= ea <= 0 -> -52 <= eb <= 0 ->
  fdiv (S754_finite false ma ea) (S754_finite false mb eb)
  = binary_round_aux prec emax false (Z.pos ma * 2 ^ 53 / Z.pos mb) (ea - eb - 53)
      (new_location (Z.pos mb) ((Z.pos ma * 2 ^ 53) mod Z.pos mb)).
Proof.
  intros Hda Hdb Hea Heb.
  unfold fdiv, SFdiv, SFdiv_core_binary. cbn [Zdigits2 xorb]. rewrite Hda, Hdb.
  rewrite fexp_eq by lia.
  replace (Z.min (53 + ea - (53 + eb) - 53) (ea - eb)) with (ea - eb - 53) by lia.
  replace (ea - eb - (ea - eb - 53)) with 53 by lia.
  cbv iota beta. rewrite Z.shiftl_mul_pow2 by lia.
  unfold Z.div, Z.modulo.
  by destruct (Z.div_eucl _ _).
Qed.

(** The rounded quotient: with [sh] the shift that brings the quotient
    back to 53 digits, the result is the floor [q1] of the quotient by
    [B * 2^sh] or its successor; it is the floor when the division is
    exact and the successor when the remainder exceeds the half. *)
Lemma fdiv_rounded ma ea mb eb :
  Z.pos (digits2_pos ma) = 53 -> Z.pos (digits2_pos mb) = 53 ->
  -52 <= ea <= 0 -> -52 <= eb <= 0 ->
  ∃ sh q',
    (sh = 0 ∨ sh = 1) ∧
    let M := Z.pos ma * 2 ^ 53 in
    let D := Z.pos mb * 2 ^ sh in
    (q' = M / D ∨ q' = M / D + 1) ∧
    (M mod D = 0 -> q' = M / D) ∧
    (D < 2 * (M mod D) -> q' = M / D + 1) ∧
    2 ^ 52 <= M / D < 2 ^ 53 ∧
    fdiv (S754_finite false ma ea) (S754_finite false mb eb)
    = renorm false q' (ea - eb - 53 + sh).
Proof.
  intros Hda Hdb Hea Heb. rewrite fdiv_normal by done.
  pose proof (digits2_bounds ma) as Ha. rewrite Hda in Ha. change (53 - 1) with 52 in Ha.
  pose proof (digits2_bounds mb) as Hb. rewrite Hdb in Hb. change (53 - 1) with 52 in Hb.
  set (A := Z.pos ma) in *. set (B := Z.pos mb) in *.
  set (M := A * 2 ^ 53).
  pose proof (Z.div_mod M B ltac:(lia)) as Hdm.
  pose proof (Z.mod_pos_bound M B ltac:(lia)) as Hr.
  set (q := M / B) in *. set (r := M mod B) in *.
  assert (2 ^ 52 <= q < 2 ^ 54) as Hq.
  { subst q M. split.
    - apply Z.div_le_lower_bound; [lia|]. nia.
    - apply Z.div_lt_upper_bound; [lia|]. nia. }
  destruct (Z.lt_ge_cases q (2 ^ 53)) as [Hlt|Hge].
  - (* 53 digits: no shift *)
    exists 0, (round_nearest_even q (new_location B r)).
    split; [by left|]. cbv zeta. change (2 ^ 0) with 1. rewrite Z.mul_1_r.
    fold M q r. refine (conj _ (conj _ (conj _ (conj _ _)))).
    + apply round_nearest_even_cases.
    + intros ->. by rewrite new_location_zero.
    + intros Hgt. rewrite new_location_gt by lia. done.
    + lia.
    + rewrite binary_round_aux_lo by lia. by rewrite Z.add_0_r.
  - (* 54 digits: one shift *)
    assert (M = (q / 2) * (B * 2 ^ 1) + (Z.b2z (Z.odd q) * B + r)) as HM.
    { rewrite Hdm. pose proof (Z.div2_odd q) as Hq2. rewrite Z.div2_div in Hq2.
      change (2 ^ 1) with 2. nia. }
    assert (0 <= Z.b2z (Z.odd q) * B + r < B * 2 ^ 1) as Hrem.
    { change (2 ^ 1) with 2. destruct (Z.odd q); cbn [Z.b2z]; lia. }
    assert (M / (B * 2 ^ 1) = q / 2) as Hq1.
    { symmetry. apply Z.div_unique with (Z.b2z (Z.odd q) * B + r); [lia|]. lia. }
    assert (M mod (B * 2 ^ 1) = Z.b2z (Z.odd q) * B + r) as Hr1.
    { symmetry. apply Z.mod_unique with (q / 2); [lia|]. lia. }
    set (mrs := shr_1 (shr_record_of_loc q (new_location B r))).
    exists 1, (round_nearest_even (shr_m mrs) (loc_of_shr_record mrs)).
    split; [by right|]. cbv zeta. fold M. rewrite Hq1, Hr1.
    assert (0 <= q) as Hq0 by lia.
    assert (2 ^ 52 <= q / 2 < 2 ^ 53) as Hq12.
    { split; [apply Z.div_le_lower_bound; lia | apply Z.div_lt_upper_bound; lia]. }
    refine (conj _ (conj _ (conj _ (conj _ _)))).
    + replace (shr_m mrs) with (q / 2); [apply round_nearest_even_cases|].
      subst mrs. destruct (new_location B r) as [|[]]; cbn [shr_record_of_loc];
        by rewrite shr_1_spec.
    + intros H0. assert (Z.odd q = false ∧ r = 0) as [Hodd ->].
      { destruct (Z.odd q); cbn [Z.b2z] in H0; split; (done || lia). }
      subst mrs. rewrite new_location_zero. cbn [shr_record_of_loc].
      rewrite shr_1_spec, Hodd by done. done.
    + intros Hgt. change (2 ^ 1) with 2 in Hgt.
      assert (Z.odd q = true ∧ 0 < r) as [Hodd Hr0].
      { destruct (Z.odd q); cbn [Z.b2z] in Hgt; split; (done || lia). }
      destruct (new_location_inexact B r ltac:(lia)) as [c Hc].
      subst mrs. rewrite Hc.
      destruct c; cbn [shr_record_of_loc]; rewrite shr_1_spec, Hodd by done;
        cbn [orb loc_of_shr_record shr_m round_nearest_even]; done.
    + done.
    + rewrite binary_round_aux_hi by lia. done.
Qed.

(** Rounding the quotient on a grid of step [1/G] that is finer than
    [2/b] never moves it across an integer: its ceiling is the ceiling
    of [a/b]. *)
Lemma ceil_core a b G q' :
  0 < a -> 0 < b -> 0 < G -> b < 2 * G ->
  (q' = a * G / b ∨ q' = a * G / b + 1) ->
  ((a * G) mod b = 0 -> q' = a * G / b) ->
  (b < 2 * ((a * G) mod b) -> q' = a * G / b + 1) ->
  - ((- q') / G) = (a + b - 1) / b.
Proof.
  intros Ha Hb HG HbG Hq' Hex Hup.
  pose proof (Z.div_mod (a + b - 1) b ltac:(lia)) as HN.
  pose proof (Z.mod_pos_bound (a + b - 1) b ltac:(lia)) as Ht.
  set (N := (a + b - 1) / b) in *. set (t := (a + b - 1) mod b) in *.
  pose proof (Z.div_mod (a * G) b ltac:(lia)) as Hq.
  pose proof (Z.mod_pos_bound (a * G) b ltac:(lia)) as Hr.
  set (q1 := a * G / b) in *. set (rem := (a * G) mod b) in *.
  assert (a = (N - 1) * b + (t + 1)) as Ea by lia.
  assert ((N - 1) * G < q' <= N * G) as Hbnd.
  { destruct (Z.eq_dec (t + 1) b) as [Eb|Nb].
    - assert (a * G = b * (N * G) + 0) as E0 by nia.
      assert (q1 = N * G) as Eq1.
      { subst q1. symmetry. apply Z.div_unique with 0; [lia|]. exact E0. }
      assert (rem = 0) as Er.
      { subst rem. symmetry. apply Z.mod_unique with (N * G); [lia|]. exact E0. }
      rewrite (Hex Er), Eq1. nia.
    - assert (b * q1 + rem = (N - 1) * G * b + (t + 1) * G) as E1 by nia.
      assert ((N - 1) * G <= q1) as Hlo by nia.
      assert (q1 < N * G) as Hhi by nia.
      destruct (Z.eq_dec q1 ((N - 1) * G)) as [Eq1|Nq1].
      + assert (rem = (t + 1) * G) as Er by nia.
        assert (b < 2 * rem) as Hgt by nia.
        rewrite (Hup Hgt). lia.
      + destruct Hq' as [->| ->]; lia. }
  assert ((- q') / G = - N) as ->; [|lia].
  symmetry. apply Z.div_unique with (N * G - q'); [lia|]. lia.
Qed.

Lemma ceil_div_bounds a b : 0 < a -> 0 < b -> 1 <= (a + b - 1) / b <= a.
Proof.
  intros Ha Hb. split; [apply Z.div_le_lower_bound; lia|].
  apply Z.div_le_upper_bound; [lia|]. nia.
Qed.

Lemma renorm_range s q e :
  2 ^ 52 <= q <= 2 ^ 53 ->
  ∃ m e', renorm s q e = S754_finite s m e' ∧
    Z.pos m * 2 ^ (e' - e) = q ∧ (e' = e ∨ (e' = e + 1 ∧ q = 2 ^ 53)).
Proof.
  intros Hq. unfold renorm. destruct (Z.eqb_spec q (2 ^ 53)) as [->|].
  - exists (2 ^ 52)%positive, (e + 1). split; [done|].
    replace (e + 1 - e) with 1 by lia. split; [done|by right].
  - exists (Z.to_pos q), e. split; [done|].
    replace (e - e) with 0 by lia. split; [|by left].
    change (2 ^ 0) with 1. lia.
Qed.

(** The concurrency estimate is exact:
    [ceil((double) a / (double) b)] is the double of the integer ceiling. *)
Lemma ceil_fdiv_of_Z a b :
  0 < a < 2 ^ 52 -> 0 < b < 2 ^ 53 ->
  ceil (fdiv (of_Z a) (of_Z b)) = of_Z ((a + b - 1) / b).
Proof.
  intros Ha Hb.
  destruct (of_Z_pos_digits a ltac:(lia)) as (da & Hda & Ha').
  destruct (of_Z_pos_digits b ltac:(lia)) as (db & Hdb & Hb').
  assert (da <= 52) as Hda52.
  { destruct (Z.le_gt_cases da 52); [done|].
    assert (2 ^ 52 <= 2 ^ (da - 1)) by (apply Z.pow_le_mono_r; lia). lia. }
  rewrite (of_Z_normal a da), (of_Z_normal b db) by done.
  assert (0 < 2 ^ (53 - da)) as Hpa by (apply Z.pow_pos_nonneg; lia).
  assert (0 < 2 ^ (53 - db)) as Hpb by (apply Z.pow_pos_nonneg; lia).
  assert (2 ^ 52 <= a * 2 ^ (53 - da) < 2 ^ 53) as HA.
  { assert (2 ^ 52 = 2 ^ (da - 1) * 2 ^ (53 - da)) as ->
      by (rewrite <- Z.pow_add_r by lia; f_equal; lia).
    assert (2 ^ 53 = 2 ^ da * 2 ^ (53 - da)) as ->
      by (rewrite <- Z.pow_add_r by lia; f_equal; lia).
    split; [apply Z.mul_le_mono_nonneg_r; lia | apply Z.mul_lt_mono_pos_r; lia]. }
  assert (2 ^ 52 <= b * 2 ^ (53 - db) < 2 ^ 53) as HB.
  { assert (2 ^ 52 = 2 ^ (db - 1) * 2 ^ (53 - db)) as ->
      by (rewrite <- Z.pow_add_r by lia; f_equal; lia).
    assert (2 ^ 53 = 2 ^ db * 2 ^ (53 - db)) as ->
      by (rewrite <- Z.pow_add_r by lia; f_equal; lia).
    split; [apply Z.mul_le_mono_nonneg_r; lia | apply Z.mul_lt_mono_pos_r; lia]. }
  set (ma := Z.to_pos (a * 2 ^ (53 - da))). set (mb := Z.to_pos (b * 2 ^ (53 - db))).
  assert (Z.pos ma = a * 2 ^ (53 - da)) as Ema by (subst ma; lia).
  assert (Z.pos mb = b * 2 ^ (53 - db)) as Emb by (subst mb; lia).
  destruct (fdiv_rounded ma (da - 53) mb (db - 53)) as (sh & q' & Hsh & H);
    [apply digits2_unique; rewrite Ema; exact HA
    |apply digits2_unique; rewrite Emb; exact HB|lia|lia|].
  cbv zeta in H. destruct H as (Hq' & Hex & Hup & Hq1 & ->).
  rewrite Ema, Emb in *.
  (* the grid step and the common factor *)
  set (g := 53 - da + db - sh).
  set (k := 53 - db + sh).
  assert (0 < g) as Hg by (subst g; lia).
  assert (0 <= k) as Hk by (subst k; lia).
  assert (0 < 2 ^ g) as HG by (apply Z.pow_pos_nonneg; lia).
  assert (0 < 2 ^ k) as HK by (apply Z.pow_pos_nonneg; lia).
  assert (a * 2 ^ (53 - da) * 2 ^ 53 = a * 2 ^ g * 2 ^ k) as EM.
  { rewrite <- !Z.mul_assoc, <- !Z.pow_add_r by lia. do 2 f_equal. subst g k. lia. }
  assert (b * 2 ^ (53 - db) * 2 ^ sh = b * 2 ^ k) as ED.
  { rewrite <- !Z.mul_assoc, <- !Z.pow_add_r by lia. done. }
  rewrite EM, ED in *.
  rewrite Z.div_mul_cancel_r in * by lia.
  rewrite Z.mul_mod_distr_r in * by lia.
  assert (b < 2 * 2 ^ g) as HbG.
  { assert (2 ^ db <= 2 ^ (1 + g)) by (apply Z.pow_le_mono_r; subst g; lia).
    rewrite Z.pow_add_r in * by lia. change (2 ^ 1) with 2 in *. lia. }
  pose proof (ceil_core a b (2 ^ g) q' ltac:(lia) ltac:(lia) HG HbG Hq'
                ltac:(intros E; apply Hex; rewrite E; lia)
                ltac:(intros E; apply Hup; nia)) as Hceil.
  pose proof (ceil_div_bounds a b ltac:(lia) ltac:(lia)) as HN.
  destruct (renorm_range false q' (da - 53 - (db - 53) - 53 + sh) ltac:(lia))
    as (m & e' & -> & Hm & He').
  assert (da - 53 - (db - 53) - 53 + sh = - g) as Ee by (subst g; lia).
  rewrite Ee in *. clear Ee.
  assert (e' < 0) as He'0.
  { destruct He' as [->|[-> Eq']]; [lia|].
    destruct (Z.eq_dec g 1) as [Eg|]; [|lia]. exfalso.
    (* the quotient would be 2^52, above a *)
    rewrite <- Hceil, Eq', Eg in HN. change (- (- 2 ^ 53 / 2 ^ 1)) with (2 ^ 52) in HN.
    lia. }
  unfold ceil. destruct (Z.leb_spec 0 e'); [lia|].
  assert (ceil_int false m e' = (a + b - 1) / b) as ->.
  { unfold ceil_int. rewrite <- Hceil, <- Hm.
    destruct He' as [->|[-> _]].
    - replace (- g - - g) with 0 by lia. change (2 ^ 0) with 1. rewrite Z.mul_1_r.
      by rewrite Z.opp_involutive.
    - replace (- g + 1 - - g) with 1 by lia. change (2 ^ 1) with 2.
      replace (- (- g + 1)) with (g - 1) by lia.
      replace g with (1 + (g - 1)) at 2 by lia.
      rewrite Z.pow_add_r by lia. change (2 ^ 1) with 2.
      f_equal. replace (- (Z.pos m * 2)) with (- Z.pos m * 2) by lia.
      rewrite (Z.mul_comm 2 (2 ^ (g - 1))).
      rewrite Z.div_mul_cancel_r; [done| |lia].
      assert (0 < 2 ^ (g - 1)) by (apply Z.pow_pos_nonneg; lia). lia. }
  destruct ((a + b - 1) / b) eqn:EN; [lia|done|lia].
Qed.

(** ** Conversions between integers and doubles *)

Lemma shr_m_iter p : ∀ mrs,
  0 <= shr_m mrs -> shr_m (SpecFloat.iter_pos shr_1 p mrs) = shr_m mrs / 2 ^ Z.pos p.
Proof.
  induction p as [p IH|p IH|]; intros [m r s] Hm; cbn [shr_m] in Hm.
  - assert (0 < 2 ^ Z.pos p) by (apply Z.pow_pos_nonneg; lia).
    assert (2 ^ Z.pos p~1 = 2 * 2 ^ Z.pos p * 2 ^ Z.pos p) as ->.
    { replace (Z.pos p~1) with (1 + Z.pos p + Z.pos p) by lia.
      rewrite !Z.pow_add_r by lia. done. }
    cbn [SpecFloat.iter_pos].
    assert (0 <= shr_m (shr_1 {| shr_m := m; shr_r := r; shr_s := s |})) as H1
      by (rewrite shr_1_m by done; apply Z.div_pos; lia).
    rewrite IH; rewrite IH by done; [|apply Z.div_pos; lia].
    rewrite shr_1_m by done. cbn [shr_m].
    rewrite (Z.div_div m), Z.div_div by lia. done.
  - assert (0 < 2 ^ Z.pos p) by (apply Z.pow_pos_nonneg; lia).
    assert (2 ^ Z.pos p~0 = 2 ^ Z.pos p * 2 ^ Z.pos p) as ->.
    { replace (Z.pos p~0) with (Z.pos p + Z.pos p) by lia.
      rewrite Z.pow_add_r by lia. done. }
    cbn [SpecFloat.iter_pos].
    rewrite IH; rewrite IH by done; [|cbn [shr_m]; apply Z.div_pos; lia].
    cbn [shr_m]. rewrite Z.div_div by lia. done.
  - cbn [SpecFloat.iter_pos]. rewrite shr_1_m by done. done.
Qed.

(** An integer of more than 53 digits is rounded to a finite double. *)
Lemma of_Z_large p d :
  Z.pos (digits2_pos p) = d -> 53 < d <= 1000 ->
  ∃ m e, of_Z (Z.pos p) = S754_finite false m e.
Proof.
  intros Hp Hd.
  pose proof (digits2_bounds p) as Hb. rewrite Hp in Hb.
  unfold of_Z, binary_normalize, binary_round. rewrite Hp.
  rewrite fexp_eq by lia. unfold shl_align.
  destruct (d + 0 - 53 - 0) as [|n|n] eqn:En; [lia| |lia].
  unfold binary_round_aux, shr_fexp at 1. cbn [Zdigits2]. rewrite Hp.
  rewrite fexp_eq by lia. rewrite En. cbn [shr_record_of_loc shr].
  set (mrs := SpecFloat.iter_pos shr_1 n _).
  assert (shr_m mrs = Z.pos p / 2 ^ Z.pos n) as Hm
    by (subst mrs; by rewrite shr_m_iter).
  assert (0 < 2 ^ Z.pos n) by (apply Z.pow_pos_nonneg; lia).
  assert (2 ^ (d - 1) = 2 ^ 52 * 2 ^ Z.pos n) as E1
    by (rewrite <- Z.pow_add_r by lia; f_equal; lia).
  assert (2 ^ d = 2 ^ 53 * 2 ^ Z.pos n) as E2
    by (rewrite <- Z.pow_add_r by lia; f_equal; lia).
  assert (2 ^ 52 <= shr_m mrs < 2 ^ 53) as Hr.
  { rewrite Hm. split; [apply Z.div_le_lower_bound; lia|].
    apply Z.div_lt_upper_bound; lia. }
  pose proof (round_nearest_even_cases (shr_m mrs) (loc_of_shr_record mrs)) as Hc.
  rewrite round_stage2 by lia.
  unfold renorm. destruct (_ =? 2 ^ 53); eauto.
Qed.

Lemma of_Z_is_number z : 0 <= z < 2 ^ 64 -> is_number (of_Z z) = true.
Proof.
  intros Hz. destruct z as [|p|p]; [done| |lia].
  pose proof (digits2_bounds p) as Hb.
  destruct (Z.le_gt_cases (Z.pos (digits2_pos p)) 53).
  - by rewrite (of_Z_normal (Z.pos p) (Z.pos (digits2_pos p))) by lia.
  - destruct (of_Z_large p (Z.pos (digits2_pos p))) as (m & e & ->); [done| |done].
    split; [done|].
    destruct (Z.le_gt_cases (Z.pos (digits2_pos p)) 1000); [done|].
    assert (2 ^ 64 <= 2 ^ (Z.pos (digits2_pos p) - 1)) by (apply Z.pow_le_mono_r; lia).
    lia.
Qed.


Lemma to_int_of_double_of_Z fp z :
  0 <= z <= INT_MAX -> to_int_of_double fp (of_Z z) = z.
Proof.
  intros Hz. pose proof (eq_refl : INT_MAX = 2147483647) as HM.
  destruct (Z.eq_dec z 0) as [->|]; [done|].
  destruct (of_Z_pos_digits z ltac:(lia)) as (d & Hd & Hb).
  assert (d <= 31).
  { destruct (Z.le_gt_cases d 31); [done|].
    assert (2 ^ 31 <= 2 ^ (d - 1)) by (apply Z.pow_le_mono_r; lia). lia. }
  rewrite (of_Z_normal z d) by done. cbn [to_int_of_double].
  assert (0 < 2 ^ (53 - d)) by (apply Z.pow_pos_nonneg; lia).
  assert (trunc false (Z.to_pos (z * 2 ^ (53 - d))) (d - 53) = z) as ->.
  { unfold trunc. destruct (Z.leb_spec 0 (d - 53)); [lia|].
    rewrite Z2Pos.id by nia. replace (- (d - 53)) with (53 - d) by lia.
    apply Z.div_mul. lia. }
  unfold INT_MIN.
  destruct (Z.leb_spec (- 2 ^ 31) z), (Z.leb_spec z INT_MAX); (done || lia).
Qed.

(** ** Arithmetic on doubles that are numbers *)

Lemma fsub_self x : is_number x = true -> fsub x x = pzero.
Proof.
  destruct x as [[]|s| |s m e]; try done. intros _.
  unfold fsub, SFsub. cbv zeta. rewrite Z.min_id. unfold shl_align.
  rewrite (Z.sub_diag e). cbn [fst]. by rewrite Z.sub_diag.
Qed.

Lemma abs_diff_zero x : is_number x = true -> fadd pzero (fabs (fsub x x)) = pzero.
Proof. intros Hx. by rewrite fsub_self. Qed.


(** * Loops *)

Lemma bind_Ok {A B} (f : A -> result B) (a : A) : (Ok a ≫= f) = f a.
Proof. done. Qed.

Lemma bind_Ok_inv {A B} (f : A -> result B) (m : result A) (b : B) :
  m ≫= f = Ok b -> ∃ a, m = Ok a ∧ f a = Ok b.
Proof. destruct m; [eauto|done]. Qed.

Lemma size_add_small a b : 0 <= a + b <= SIZE_MAX -> size_add a b = a + b.
Proof. intros. unfold size_add, to_size_t. apply Z.mod_small. unfold SIZE_MAX in *. lia. Qed.

Lemma size_mul_small a b : 0 <= a * b <= SIZE_MAX -> size_mul a b = a * b.
Proof. intros. unfold size_mul, to_size_t. apply Z.mod_small. unfold SIZE_MAX in *. lia. Qed.

Lemma to_size_t_small a : 0 <= a <= SIZE_MAX -> to_size_t a = a.
Proof. intros. unfold to_size_t. apply Z.mod_small. unfold SIZE_MAX in *. lia. Qed.

Lemma seqZ_singleton m : seqZ m 1 = [m].
Proof. rewrite seqZ_cons by lia. by rewrite seqZ_nil by lia. Qed.


Lemma fold_result_app {A St} (body : A -> St -> result St) l1 l2 s :
  fold_result body (l1 ++ l2) s = s' ← fold_result body l1 s; fold_result body l2 s'.
Proof.
  revert s. induction l1 as [|x l1 IH]; intros s; cbn; [done|].
  destruct (body x s); cbn; [apply IH|done].
Qed.

(** A loop that counts up by [step] runs its body on an arithmetic
    progression, as long as the counter does not wrap around. *)
Lemma for_loop_progression {St} (body : Z -> St -> result St) step bound :
  0 < step ->
  ∀ (n : nat) (fuel : nat) i s,
    (n <= fuel)%nat -> 0 <= i ->
    i + Z.of_nat n * step <= SIZE_MAX ->
    (n = 0%nat ∨ i + (Z.of_nat n - 1) * step < bound) ->
    bound <= i + Z.of_nat n * step ->
    for_loop fuel i (λ i, i <? bound) (λ i, size_add i step) body s
    = fold_result body ((λ k, i + k * step) <$> seqZ 0 (Z.of_nat n)) s.
Proof.
  intros Hstep n. induction n as [|n IH]; intros fuel i s Hfuel Hi Hmax Hlo Hn.
  - destruct fuel; cbn; destruct (Z.ltb_spec i bound); (done || lia).
  - destruct fuel as [|fuel]; [lia|]. cbn [for_loop].
    destruct Hlo as [|Hlo]; [done|].
    destruct (Z.ltb_spec i bound); [|nia].
    rewrite seqZ_cons by lia. cbn [fmap list_fmap fold_result].
    replace (i + 0 * step) with i by lia.
    destruct (body i s) as [s'|]; cbn; [|done].
    rewrite size_add_small by nia.
    rewrite IH by first [lia | nia | destruct n; [by left|right; nia]].
    f_equal. replace (Z.pred (Z.of_nat (S n))) with (Z.of_nat n) by lia.
    rewrite <- (fmap_add_seqZ 1 0), <- list_fmap_compose.
    apply list_fmap_ext. intros _ k _. cbn. lia.
Qed.

Lemma for_lt_unit {St} (body : Z -> St -> result St) a b s :
  0 <= a <= SIZE_MAX -> b <= SIZE_MAX ->
  for_lt a b 1 body s = fold_result body (seqZ a (b - a)) s.
Proof.
  intros Ha Hb. unfold for_lt.
  rewrite (for_loop_progression body 1 b ltac:(lia) (Z.to_nat (b - a))) by lia.
  f_equal. destruct (Z.le_gt_cases b a).
  - by rewrite !seqZ_nil by lia.
  - rewrite Z2Nat.id by lia.
    replace (seqZ a (b - a)) with (Z.add a <$> seqZ 0 (b - a))
      by (rewrite fmap_add_seqZ; f_equal; lia).
    apply list_fmap_ext. intros _ k _. lia.
Qed.

Lemma ceil_div_spec n T : 0 < T -> 0 <= n ->
  ((n + T - 1) / T - 1) * T < n <= (n + T - 1) / T * T ∧ 0 <= (n + T - 1) / T <= n.
Proof.
  intros HT Hn.
  pose proof (Z.div_mod (n + T - 1) T ltac:(lia)) as H.
  pose proof (Z.mod_pos_bound (n + T - 1) T ltac:(lia)) as H'.
  assert (0 <= (n + T - 1) / T) by (apply Z.div_pos; lia).
  split; [nia|]. split; [done|].
  destruct (Z.eq_dec n 0) as [->|]; [|apply Z.div_le_upper_bound; nia].
  rewrite Z.div_small; lia.
Qed.

Lemma for_lt_tiles {St} (body : Z -> St -> result St) n T s :
  0 < T <= SIZE_MAX -> 0 <= n -> 2 * n <= SIZE_MAX ->
  for_lt 0 n T body s = fold_result body (tile_starts n T) s.
Proof.
  intros HT Hn Hmax. unfold for_lt, tile_starts.
  pose proof (ceil_div_spec n T ltac:(lia) Hn) as [H1 H2].
  assert ((n + T - 1) / T * T <= SIZE_MAX) as Hlast.
  { destruct (Z.le_gt_cases ((n + T - 1) / T) 1); nia. }
  rewrite (for_loop_progression body T n ltac:(lia) (Z.to_nat ((n + T - 1) / T)))
    by (rewrite ?Z2Nat.id by lia; lia).
  rewrite Z2Nat.id by lia. done.
Qed.

(** The step past a tile does not wrap: a tile start is 0 or at least
    the tile order. *)
Lemma tile_end_small n T i :
  0 < T <= SIZE_MAX -> 0 <= n -> 2 * n <= SIZE_MAX ->
  i ∈ tile_starts n T -> size_add i T = i + T.
Proof.
  intros HT Hn Hmax Hi. unfold tile_starts in Hi.
  apply list_elem_of_fmap in Hi as (k & -> & Hk). apply elem_of_seqZ in Hk.
  pose proof (ceil_div_spec n T ltac:(lia) Hn) as [H1 H2].
  apply size_add_small. destruct (Z.eq_dec k 0) as [->|]; [lia|]. nia.
Qed.

(** Two nested loops run the body on the pairs of their indices. *)
Lemma fold_result_bind {A B St} (f : A -> list B) (body : A -> B -> St -> result St) l s :
  fold_result (λ x s, fold_result (body x) (f x) s) l s
  = fold_result (λ p, body p.1 p.2) (x ← l; pair x <$> f x) s.
Proof.
  revert s. induction l as [|x l IH]; intros s; [done|].
  cbn [fold_result]. rewrite bind_cons, fold_result_app.
  assert (∀ s, fold_result (body x) (f x) s
               = fold_result (λ p, body p.1 p.2) (pair x <$> f x) s) as ->.
  { generalize (f x). intros l'. induction l' as [|y l' IH']; intros s'; [done|].
    cbn. destruct (body x y s'); cbn; [apply IH'|done]. }
  destruct (fold_result _ (pair x <$> f x) s); cbn; [apply IH|done].
Qed.

Lemma fold_result_ext {A St} (f g : A -> St -> result St) l s :
  (∀ x s, x ∈ l -> f x s = g x s) -> fold_result f l s = fold_result g l s.
Proof.
  revert s. induction l as [|x l IH]; intros s H; [done|].
  cbn. rewrite (H x s) by left. destruct (g x s); cbn; [|done].
  apply IH. intros. apply H. by right.
Qed.

(** The loop nests of the source as folds over index pairs. *)
Lemma flat_nest_pairs {St} (body : Z -> Z -> St -> result St) n m s :
  0 <= n <= SIZE_MAX -> 0 <= m <= SIZE_MAX ->
  for_lt 0 n 1 (λ i, for_lt 0 m 1 (body i)) s
  = fold_result (λ p, body p.1 p.2) (flat_pairs n m) s.
Proof.
  intros Hn Hm. rewrite for_lt_unit by lia. unfold flat_pairs.
  rewrite <- fold_result_bind. rewrite Z.sub_0_r.
  apply fold_result_ext. intros i s' _. rewrite for_lt_unit by lia.
  by rewrite Z.sub_0_r.
Qed.

Lemma MIN_min x y : MIN x y = Z.min x y.
Proof. unfold MIN. destruct (Z.ltb_spec x y); lia. Qed.

Lemma elem_of_tile_starts n T i :
  0 < T -> 0 <= n ->
  i ∈ tile_starts n T ↔ 0 <= i < n ∧ i mod T = 0.
Proof.
  intros HT Hn. unfold tile_starts. rewrite list_elem_of_fmap.
  pose proof (ceil_div_spec n T HT Hn) as [H1 H2].
  setoid_rewrite elem_of_seqZ. split.
  - intros (k & -> & Hk). split; [nia|]. by rewrite Z.mod_mul by lia.
  - intros [Hi Hmod]. exists (i / T).
    pose proof (Z.div_mod i T ltac:(lia)) as Hd. rewrite Hmod in Hd.
    split; [lia|]. assert (0 <= i / T) by (apply Z.div_pos; lia). nia.
Qed.

Lemma tiled_nest_pairs {St} (body : Z -> Z -> St -> result St) n m T s :
  0 < T <= SIZE_MAX -> 0 <= n -> 0 <= m -> 2 * n <= SIZE_MAX -> 2 * m <= SIZE_MAX ->
  for_lt 0 n T (λ i,
    for_lt 0 m T (λ j,
      for_lt i (MIN n (size_add i T)) 1 (λ it,
        for_lt j (MIN m (size_add j T)) 1 (λ jt, body it jt)))) s
  = fold_result (λ p, body p.1 p.2) (tiled_pairs n m T) s.
Proof.
  intros HT Hn Hm HnT HmT. rewrite for_lt_tiles by lia. unfold tiled_pairs.
  transitivity (fold_result (λ i s, fold_result (λ p, body p.1 p.2)
      (j ← tile_starts m T; it ← tile_cells n T i; pair it <$> tile_cells m T j) s)
      (tile_starts n T) s).
  - apply fold_result_ext. intros i s' Hi.
    pose proof (tile_end_small n T i HT Hn HnT Hi) as Ei.
    apply elem_of_tile_starts in Hi as [Hi _]; [|lia..].
    rewrite for_lt_tiles by lia.
    transitivity (fold_result (λ j s, fold_result (λ p, body p.1 p.2)
        (it ← tile_cells n T i; pair it <$> tile_cells m T j) s) (tile_starts m T) s').
    + apply fold_result_ext. intros j s'' Hj.
      pose proof (tile_end_small m T j HT Hm HmT Hj) as Ej.
      apply elem_of_tile_starts in Hj as [Hj _]; [|lia..].
      rewrite Ei, Ej, !MIN_min.
      rewrite for_lt_unit by lia. rewrite <- fold_result_bind.
      apply fold_result_ext. intros it s3 _. rewrite for_lt_unit by lia. done.
    + generalize (tile_starts m T). intros l. revert s'.
      induction l as [|j l IH]; intros s'; [done|].
      cbn [fold_result]. rewrite bind_cons, fold_result_app.
      destruct (fold_result _ _ s'); cbn; [apply IH|done].
  - generalize (tile_starts n T). intros l. revert s.
    induction l as [|i l IH]; intros s; [done|].
    cbn [fold_result]. rewrite bind_cons, fold_result_app.
    destruct (fold_result _ _ s); cbn; [apply IH|done].
Qed.

(** * The index pairs of the loop nests *)

Lemma elem_of_tile_cells n T i x :
  x ∈ tile_cells n T i ↔ i <= x < Z.min n (i + T).
Proof. unfold tile_cells. rewrite elem_of_seqZ. lia. Qed.

Lemma tile_start_unique T i x :
  0 < T -> i mod T = 0 -> i <= x < i + T -> i = T * (x / T).
Proof.
  intros HT Hi Hx.
  pose proof (Z.div_mod i T ltac:(lia)) as Hd. rewrite Hi in Hd.
  assert (x / T = i / T); [|lia].
  symmetry. apply Z.div_unique with (x - i); lia.
Qed.

Lemma elem_of_pairs_of {A B} (l1 : list A) (f : A -> list B) (p : A * B) :
  p ∈ (x ← l1; pair x <$> f x) ↔ p.1 ∈ l1 ∧ p.2 ∈ f p.1.
Proof.
  rewrite list_elem_of_bind. setoid_rewrite list_elem_of_fmap. split.
  - intros (x & (y & -> & Hy) & Hx). done.
  - intros [H1 H2]. exists p.1. split; [|done]. exists p.2. by destruct p.
Qed.

Lemma NoDup_pairs_of {A B} (l1 : list A) (f : A -> list B) :
  NoDup l1 -> (∀ x, x ∈ l1 -> NoDup (f x)) -> NoDup (x ← l1; pair x <$> f x).
Proof.
  intros H1 H2. apply NoDup_bind; [|intros x Hx|done].
  - intros x1 x2 y _ _ (?&->&_)%list_elem_of_fmap (?&[=]&_)%list_elem_of_fmap. done.
  - apply NoDup_fmap_2_strong; [|by apply H2]. by intros ?? _ _ [=].
Qed.

Lemma elem_of_flat_pairs n m p :
  p ∈ flat_pairs n m ↔ (0 <= p.1 < n) ∧ (0 <= p.2 < m).
Proof. unfold flat_pairs. rewrite elem_of_pairs_of, !elem_of_seqZ. lia. Qed.

Lemma NoDup_flat_pairs n m : NoDup (flat_pairs n m).
Proof. apply NoDup_pairs_of; [apply NoDup_seqZ|]. intros. apply NoDup_seqZ. Qed.

Lemma NoDup_tile_starts n T : 0 < T -> NoDup (tile_starts n T).
Proof.
  intros HT. apply NoDup_fmap_2_strong; [|apply NoDup_seqZ].
  intros k1 k2 _ _ H. nia.
Qed.

Lemma elem_of_tile_block n m T i j p :
  p ∈ (it ← tile_cells n T i; pair it <$> tile_cells m T j)
  ↔ p.1 ∈ tile_cells n T i ∧ p.2 ∈ tile_cells m T j.
Proof. apply elem_of_pairs_of. Qed.

Lemma elem_of_tiled_pairs n m T p :
  0 < T -> 0 <= n -> 0 <= m ->
  p ∈ tiled_pairs n m T ↔ (0 <= p.1 < n) ∧ (0 <= p.2 < m).
Proof.
  intros HT Hn Hm. unfold tiled_pairs.
  rewrite list_elem_of_bind. setoid_rewrite list_elem_of_bind.
  setoid_rewrite elem_of_tile_block. setoid_rewrite elem_of_tile_cells.
  setoid_rewrite elem_of_tile_starts; [|done..]. split.
  - intros (i & (j & Hp & Hj) & Hi). lia.
  - intros [H1 H2]. exists (T * (p.1 / T)).
    pose proof (Z.div_mod p.1 T ltac:(lia)). pose proof (Z.mod_pos_bound p.1 T HT).
    pose proof (Z.div_mod p.2 T ltac:(lia)). pose proof (Z.mod_pos_bound p.2 T HT).
    assert (0 <= p.1 / T) by (apply Z.div_pos; lia).
    assert (0 <= p.2 / T) by (apply Z.div_pos; lia).
    split.
    + exists (T * (p.2 / T)). split; [lia|]. split; [nia|].
      rewrite Z.mul_comm. apply Z.mod_mul. lia.
    + split; [nia|]. rewrite Z.mul_comm. apply Z.mod_mul. lia.
Qed.

Lemma NoDup_tiled_pairs n m T :
  0 < T -> 0 <= n -> 0 <= m -> NoDup (tiled_pairs n m T).
Proof.
  intros HT Hn Hm. unfold tiled_pairs.
  apply NoDup_bind; [| |by apply NoDup_tile_starts].
  - intros i1 i2 p Hi1 Hi2 H1 H2.
    apply elem_of_tile_starts in Hi1 as [_ Hi1]; [|done..].
    apply elem_of_tile_starts in Hi2 as [_ Hi2]; [|done..].
    apply list_elem_of_bind in H1 as (j1 & H1 & _).
    apply list_elem_of_bind in H2 as (j2 & H2 & _).
    apply elem_of_tile_block in H1 as [H1 _]. apply elem_of_tile_block in H2 as [H2 _].
    apply elem_of_tile_cells in H1, H2.
    rewrite (tile_start_unique T i1 p.1), (tile_start_unique T i2 p.1) by (done || lia).
    done.
  - intros i Hi. apply NoDup_bind; [| |by apply NoDup_tile_starts].
    + intros j1 j2 p Hj1 Hj2 H1 H2.
      apply elem_of_tile_starts in Hj1 as [_ Hj1]; [|done..].
      apply elem_of_tile_starts in Hj2 as [_ Hj2]; [|done..].
      apply elem_of_tile_block in H1 as [_ H1]. apply elem_of_tile_block in H2 as [_ H2].
      apply elem_of_tile_cells in H1, H2.
      rewrite (tile_start_unique T j1 p.2), (tile_start_unique T j2 p.2) by (done || lia).
      done.
    + intros j Hj. apply NoDup_pairs_of; [apply NoDup_seqZ|]. intros. apply NoDup_seqZ.
Qed.

(** The tiled loops visit the same index pairs as the flat loops, each
    once, in another order. *)
Lemma tiled_pairs_perm n m T :
  0 < T -> 0 <= n -> 0 <= m -> tiled_pairs n m T ≡ₚ flat_pairs n m.
Proof.
  intros. apply NoDup_Permutation.
  - by apply NoDup_tiled_pairs.
  - apply NoDup_flat_pairs.
  - intros p. by rewrite elem_of_tiled_pairs, elem_of_flat_pairs.
Qed.


(** * The tiling decision *)

Lemma to_int_is_int z : is_int (to_int z).
Proof.
  unfold is_int, to_int, INT_MIN, INT_MAX.
  pose proof (Z.mod_pos_bound (z + 2 ^ 31) (2 ^ 32) ltac:(lia)). lia.
Qed.

Lemma Block_order_of_eq order P :
  1 <= P <= order -> order <= INT_MAX ->
  Block_order_of order P = order / P ∧ 1 <= order / P <= order.
Proof.
  intros HP Ho. pose proof (eq_refl : INT_MAX = 2147483647).
  unfold Block_order_of, size_div. rewrite to_size_t_small by (unfold SIZE_MAX; lia).
  split; [done|]. split; [apply Z.div_le_lower_bound; lia|].
  apply Z.div_le_upper_bound; [lia|]. nia.
Qed.

Section Tiling.
Context (fp_invalid : double -> Z).

(** The estimate of the concurrency is the exact ceiling of
    [Block_order / Tile_order]. *)
Lemma concurrency_of_exact COLLAPSE Bo T :
  0 < Bo <= INT_MAX -> 0 < T <= INT_MAX ->
  concurrency_of fp_invalid COLLAPSE Bo T
  = let n := (Bo + T - 1) / T in if COLLAPSE then int_mul n n else n.
Proof.
  intros HB HT. pose proof (eq_refl : INT_MAX = 2147483647).
  unfold concurrency_of. rewrite ceil_fdiv_of_Z by lia.
  pose proof (ceil_div_bounds Bo T ltac:(lia) ltac:(lia)).
  rewrite to_int_of_double_of_Z by lia. done.
Qed.

Lemma tiling_of_eq COLLAPSE order P T nthread :
  1 <= P <= order -> order <= INT_MAX ->
  tiling_of fp_invalid COLLAPSE order P T nthread
  = tiling_requested order T
    && negb ((let n := (order / P + T - 1) / T in if COLLAPSE then int_mul n n else n)
             <? nthread).
Proof.
  intros HP Ho. destruct (Block_order_of_eq order P HP Ho) as [HB Hb].
  unfold tiling_of. destruct (tiling_requested order T) eqn:Ereq; [|done].
  unfold tiling_requested in Ereq. apply andb_true_iff in Ereq as [H1 H2].
  apply Z.ltb_lt in H1, H2.
  rewrite HB, concurrency_of_exact by lia. cbn [andb].
  by destruct (_ <? nthread).
Qed.

(** Without tiling requested ([Tile_order = 0]) the quotient is
    [+infinity]. *)
Lemma concurrency_quotient_zero Bo :
  0 < Bo <= INT_MAX -> ceil (fdiv (of_Z Bo) (of_Z 0)) = S754_infinity false.
Proof.
  intros HB. pose proof (eq_refl : INT_MAX = 2147483647).
  destruct (of_Z_pos_digits Bo ltac:(lia)) as (d & Hd & Hb).
  by rewrite (of_Z_normal Bo d).
Qed.

End Tiling.


(** * The layout of a valid configuration *)

Lemma int_max_eq : INT_MAX = 2147483647.
Proof. reflexivity. Qed.

Lemma size_max_eq : SIZE_MAX = 18446744073709551615.
Proof. reflexivity. Qed.

Lemma valid_config_layout c : valid_config c = true -> layout_ok c.
Proof.
  unfold valid_config. rewrite !andb_true_iff, orb_true_iff, negb_true_iff, !andb_true_iff.
  rewrite !Z.leb_le, !Z.ltb_lt, Z.eqb_eq.
  intros ((((((((Hp & Hpo) & Ho) & Hmod) & Hi1) & Hi2) & Ht1) & Ht2) & Htl).
  pose proof int_max_eq as Hmax. pose proof size_max_eq as Hsz.
  assert (Block_order c = order c / Num_procs c) as HB.
  { unfold Block_order, Block_order_of, size_div. by rewrite to_size_t_small by lia. }
  assert (order c = Num_procs c * (order c / Num_procs c)) as Hdiv.
  { pose proof (Z.div_mod (order c) (Num_procs c) ltac:(lia)). lia. }
  assert (1 <= order c / Num_procs c <= order c) as Hb.
  { split; [apply Z.div_le_lower_bound; lia|].
    apply Z.div_le_upper_bound; [lia|]. nia. }
  split; try lia.
  - unfold Colblock_size, Colblock_size_of. rewrite HB. apply size_mul_small. nia.
  - unfold Block_size, Block_size_of. rewrite HB. apply size_mul_small. nia.
  - intros Ht. destruct Htl as [Htl|Htl]; [congruence|lia].
Qed.

Section Layout_facts.
Context (c : config) (Hc : layout_ok c).

Lemma colstart_eq r :
  0 <= r < Num_procs c -> colstart c r = Block_order c * r.
Proof using Hc.
  destruct Hc. intros Hr. pose proof int_max_eq. pose proof size_max_eq.
  unfold colstart, colstart_of. rewrite to_size_t_small by lia.
  apply size_mul_small. nia.
Qed.

Lemma Colblock_index_eq istart i j :
  0 <= istart -> 0 <= i -> i + istart <= order c -> 0 <= j <= order c ->
  Colblock_index c istart i j = i + istart + order c * j.
Proof using Hc.
  destruct Hc. intros. pose proof int_max_eq. pose proof size_max_eq.
  unfold Colblock_index.
  rewrite (size_add_small i), size_mul_small, size_add_small by nia. done.
Qed.

Lemma Work_index_eq i j :
  0 <= i <= order c -> 0 <= j <= order c ->
  Work_index c i j = i + Block_order c * j.
Proof using Hc.
  destruct Hc. intros. pose proof int_max_eq. pose proof size_max_eq.
  unfold Work_index. rewrite size_mul_small, size_add_small by nia. done.
Qed.

Lemma block_start_eq r :
  0 <= r < Num_procs c -> size_mul (to_size_t r) (Block_order c) = Block_order c * r.
Proof using Hc.
  destruct Hc. intros. pose proof int_max_eq. pose proof size_max_eq.
  rewrite to_size_t_small, size_mul_small by nia. lia.
Qed.

End Layout_facts.

(** * Buffers *)

Lemma length_stores_to d v l buf : length (stores_to d v l buf) = length buf.
Proof.
  unfold stores_to. revert buf. induction l as [|p l IH]; intros buf; [done|].
  cbn. rewrite IH. apply length_insert.
Qed.

Lemma stores_to_miss d v l buf k :
  (∀ p, p ∈ l -> Z.to_nat (d p) ≠ k) -> stores_to d v l buf !! k = buf !! k.
Proof.
  unfold stores_to. revert buf. induction l as [|p l IH]; intros buf H; [done|].
  cbn. rewrite IH by (intros; apply H; by right).
  apply list_lookup_insert_ne. apply H. by left.
Qed.

Lemma stores_to_hit d v l buf p :
  p ∈ l -> NoDup ((λ p, Z.to_nat (d p)) <$> l) ->
  (Z.to_nat (d p) < length buf)%nat ->
  stores_to d v l buf !! Z.to_nat (d p) = Some (v p).
Proof.
  unfold stores_to. revert buf. induction l as [|q l IH]; intros buf Hp Hnd Hlen; [by inv Hp|].
  cbn in *. apply NoDup_cons in Hnd as [Hq Hnd].
  apply elem_of_cons in Hp as [->|Hp].
  - fold (stores_to d v l (<[Z.to_nat (d q) := v q]> buf)).
    rewrite stores_to_miss.
    + by apply list_lookup_insert_eq.
    + intros p Hp E. apply Hq. rewrite <- E. apply list_elem_of_fmap. eauto.
  - apply IH; [done..|]. by rewrite length_insert.
Qed.

Lemma load_Ok buf k : 0 <= k < Z.of_nat (length buf) ->
  load buf k = Ok (buf !!! Z.to_nat k).
Proof.
  intros Hk. unfold load.
  destruct (lookup_lt_is_Some_2 buf (Z.to_nat k) ltac:(lia)) as [v Hv].
  rewrite Hv. by rewrite (list_lookup_total_correct _ _ _ Hv).
Qed.

Lemma store_Ok buf k v : 0 <= k < Z.of_nat (length buf) ->
  store buf k v = Ok (<[Z.to_nat k := v]> buf).
Proof. intros Hk. unfold store. destruct (Z.ltb_spec k (Z.of_nat (length buf))); [done|lia]. Qed.

(** * The loop bodies over a list of index pairs *)

Section Folds.
Context (src dst : Z * Z -> Z).

(** [dest(dst p) = A(src p)] into [B_p]. *)
Lemma fold_B_from_A l : ∀ s,
  (∀ p, p ∈ l -> 0 <= src p < Z.of_nat (length (A_p s))) ->
  (∀ p, p ∈ l -> 0 <= dst p < Z.of_nat (length (B_p s))) ->
  fold_result (λ p s, v ← load (A_p s) (src p);
                      B' ← store (B_p s) (dst p) v;
                      Ok {| A_p := A_p s; B_p := B'; Work_p := Work_p s;
                            B_stores := dst p :: B_stores s |}) l s
  = Ok {| A_p := A_p s;
          B_p := stores_to dst (λ p, A_p s !!! Z.to_nat (src p)) l (B_p s);
          Work_p := Work_p s;
          B_stores := rev (dst <$> l) ++ B_stores s |}.
Proof.
  induction l as [|p l IH]; intros s Hs Hd; [by destruct s|].
  cbn [fold_result]. rewrite load_Ok by (apply Hs; left).
  cbn. rewrite store_Ok by (apply Hd; left). cbn.
  rewrite IH; cbn.
  - by rewrite <- app_assoc.
  - intros. apply Hs. by right.
  - intros. rewrite length_insert. apply Hd. by right.
Qed.

(** [dest(dst p) = A(src p)] into the workspace. *)
Lemma fold_W_from_A l : ∀ s,
  (∀ p, p ∈ l -> 0 <= src p < Z.of_nat (length (A_p s))) ->
  (∀ p, p ∈ l -> 0 <= dst p < Z.of_nat (length (Work_p s))) ->
  fold_result (λ p s, v ← load (A_p s) (src p);
                      W' ← store (Work_p s) (dst p) v;
                      Ok {| A_p := A_p s; B_p := B_p s; Work_p := W';
                            B_stores := B_stores s |}) l s
  = Ok {| A_p := A_p s; B_p := B_p s;
          Work_p := stores_to dst (λ p, A_p s !!! Z.to_nat (src p)) l (Work_p s);
          B_stores := B_stores s |}.
Proof.
  induction l as [|p l IH]; intros s Hs Hd; [by destruct s|].
  cbn [fold_result]. rewrite load_Ok by (apply Hs; left).
  cbn. rewrite store_Ok by (apply Hd; left). cbn.
  rewrite IH; cbn.
  - done.
  - intros. apply Hs. by right.
  - intros. rewrite length_insert. apply Hd. by right.
Qed.

(** [dest(dst p) = Work(src p)] into [B_p]. *)
Lemma fold_B_from_W l : ∀ s,
  (∀ p, p ∈ l -> 0 <= src p < Z.of_nat (length (Work_p s))) ->
  (∀ p, p ∈ l -> 0 <= dst p < Z.of_nat (length (B_p s))) ->
  fold_result (λ p s, v ← load (Work_p s) (src p);
                      B' ← store (B_p s) (dst p) v;
                      Ok {| A_p := A_p s; B_p := B'; Work_p := Work_p s;
                            B_stores := dst p :: B_stores s |}) l s
  = Ok {| A_p := A_p s;
          B_p := stores_to dst (λ p, Work_p s !!! Z.to_nat (src p)) l (B_p s);
          Work_p := Work_p s;
          B_stores := rev (dst <$> l) ++ B_stores s |}.
Proof.
  induction l as [|p l IH]; intros s Hs Hd; [by destruct s|].
  cbn [fold_result]. rewrite load_Ok by (apply Hs; left).
  cbn. rewrite store_Ok by (apply Hd; left). cbn.
  rewrite IH; cbn.
  - by rewrite <- app_assoc.
  - intros. apply Hs. by right.
  - intros. rewrite length_insert. apply Hd. by right.
Qed.

(** [A(dst p) = v p; B(dst p) = w] of the initialisation. *)
Lemma fold_init (v : Z * Z -> double) (w : double) l : ∀ s,
  (∀ p, p ∈ l -> 0 <= dst p < Z.of_nat (length (A_p s))) ->
  (∀ p, p ∈ l -> 0 <= dst p < Z.of_nat (length (B_p s))) ->
  fold_result (λ p s, A' ← store (A_p s) (dst p) (v p);
                      B' ← store (B_p s) (dst p) w;
                      Ok {| A_p := A'; B_p := B'; Work_p := Work_p s;
                            B_stores := dst p :: B_stores s |}) l s
  = Ok {| A_p := stores_to dst v l (A_p s);
          B_p := stores_to dst (λ _, w) l (B_p s);
          Work_p := Work_p s;
          B_stores := rev (dst <$> l) ++ B_stores s |}.
Proof.
  induction l as [|p l IH]; intros s Hs Hd; [by destruct s|].
  cbn [fold_result]. rewrite (store_Ok (A_p s)) by (apply Hs; left).
  cbn. rewrite (store_Ok (B_p s)) by (apply Hd; left). cbn.
  rewrite IH; cbn.
  - by rewrite <- app_assoc.
  - intros. rewrite length_insert. apply Hs. by right.
  - intros. rewrite length_insert. apply Hd. by right.
Qed.

End Folds.

(** * The operations of one rank *)

Lemma strided_inj off stride m p q :
  0 <= p.2 < m -> 0 <= q.2 < m -> m <= stride ->
  strided off stride p = strided off stride q -> p = q.
Proof.
  unfold strided. destruct p as [p1 p2], q as [q1 q2]. cbn. intros Hp Hq Hm E.
  assert (p1 = q1) by nia. subst. f_equal. lia.
Qed.

Lemma NoDup_strided off stride n m l :
  NoDup l -> (∀ p, p ∈ l -> (0 <= p.1 < n) ∧ (0 <= p.2 < m)) ->
  0 <= off -> 0 <= m <= stride ->
  NoDup ((λ p, Z.to_nat (strided off stride p)) <$> l).
Proof.
  intros Hnd Hl Hoff Hm. apply NoDup_fmap_2_strong; [|done].
  intros p q Hp Hq E. apply Hl in Hp, Hq.
  apply (strided_inj off stride m); [lia..|].
  unfold strided in *. nia.
Qed.

Section Rank.
Context (c : config) (Hc : layout_ok c).

Lemma block_pairs_spec p :
  p ∈ block_pairs c ↔ (0 <= p.1 < Block_order c) ∧ (0 <= p.2 < Block_order c).
Proof using Hc.
  destruct Hc. unfold block_pairs. destruct (tiling c) eqn:E.
  - apply elem_of_tiled_pairs; lia.
  - apply elem_of_flat_pairs.
Qed.

Lemma NoDup_block_pairs : NoDup (block_pairs c).
Proof using Hc.
  destruct Hc. unfold block_pairs. destruct (tiling c) eqn:E.
  - apply NoDup_tiled_pairs; lia.
  - apply NoDup_flat_pairs.
Qed.

Lemma init_pairs_spec p :
  p ∈ init_pairs c ↔ (0 <= p.1 < Block_order c) ∧ (0 <= p.2 < order c).
Proof using Hc.
  destruct Hc. unfold init_pairs. destruct (tiling c) eqn:E.
  - apply elem_of_tiled_pairs; lia.
  - apply elem_of_flat_pairs.
Qed.

Lemma NoDup_init_pairs : NoDup (init_pairs c).
Proof using Hc.
  destruct Hc. unfold init_pairs. destruct (tiling c) eqn:E.
  - apply NoDup_tiled_pairs; lia.
  - apply NoDup_flat_pairs.
Qed.

(** The flat and the tiled loop nest of a block, as one fold. *)
Lemma transpose_block_pairs istart put s :
  transpose_block c istart put s
  = fold_result (λ p s, v ← get_A c istart p.1 p.2 s; put p.2 p.1 v s) (block_pairs c) s.
Proof using Hc.
  destruct Hc. pose proof int_max_eq. pose proof size_max_eq.
  unfold transpose_block, block_pairs. destruct (tiling c) eqn:E; cbn [negb].
  - unfold transpose_tiled. rewrite (tiled_nest_pairs
      (λ it jt s, v ← get_A c istart it jt s; put jt it v s)) by lia. done.
  - unfold transpose_flat. rewrite (flat_nest_pairs
      (λ i j s, v ← get_A c istart i j s; put j i v s)) by lia. done.
Qed.

Lemma local_transpose_eq r s :
  0 <= r < Num_procs c ->
  Z.of_nat (length (A_p s)) = Colblock_size c ->
  Z.of_nat (length (B_p s)) = Colblock_size c ->
  local_transpose c r s
  = Ok {| A_p := A_p s;
          B_p := stores_to (strided (Block_order c * r) (order c))
                   (λ p, A_p s !!! Z.to_nat (strided (Block_order c * r) (order c) (swap_pair p)))
                   (block_pairs c) (B_p s);
          Work_p := Work_p s;
          B_stores := rev (strided (Block_order c * r) (order c) <$> block_pairs c)
                      ++ B_stores s |}.
Proof using Hc.
  intros Hr HA HB. pose proof Hc as []. unfold local_transpose.
  rewrite transpose_block_pairs, (colstart_eq c Hc) by done.
  rewrite <- (fold_B_from_A (λ p, strided (Block_order c * r) (order c) (swap_pair p))).
  - apply fold_result_ext. intros p s' Hp. apply block_pairs_spec in Hp.
    unfold get_A, set_B. rewrite !(Colblock_index_eq c Hc) by nia. done.
  - intros p Hp. apply block_pairs_spec in Hp. unfold strided, swap_pair. cbn. nia.
  - intros p Hp. apply block_pairs_spec in Hp. unfold strided. nia.
Qed.

Lemma pack_block_eq q s :
  0 <= q < Num_procs c ->
  Z.of_nat (length (A_p s)) = Colblock_size c ->
  Z.of_nat (length (Work_p s)) = 2 * Block_size c ->
  pack_block c q s
  = Ok {| A_p := A_p s; B_p := B_p s;
          Work_p := stores_to (strided (Block_size c) (Block_order c))
                   (λ p, A_p s !!! Z.to_nat (strided (Block_order c * q) (order c) (swap_pair p)))
                   (block_pairs c) (Work_p s);
          B_stores := B_stores s |}.
Proof using Hc.
  intros Hq HA HW. pose proof Hc as []. unfold pack_block.
  rewrite transpose_block_pairs, (block_start_eq c Hc) by done.
  rewrite <- (fold_W_from_A (λ p, strided (Block_order c * q) (order c) (swap_pair p))).
  - apply fold_result_ext. intros p s' Hp. apply block_pairs_spec in Hp.
    unfold get_A, set_Work_out, Work_out_p, Work_in_p.
    rewrite (Colblock_index_eq c Hc), (Work_index_eq c Hc) by nia.
    unfold strided, swap_pair. cbn.
    replace (0 + Block_size c + (p.2 + Block_order c * p.1))
      with (p.2 + Block_size c + Block_order c * p.1) by lia. done.
  - intros p Hp. apply block_pairs_spec in Hp. unfold strided, swap_pair. cbn. nia.
  - intros p Hp. apply block_pairs_spec in Hp. unfold strided. nia.
Qed.

Lemma scatter_eq q s :
  0 <= q < Num_procs c ->
  Z.of_nat (length (B_p s)) = Colblock_size c ->
  Z.of_nat (length (Work_p s)) = 2 * Block_size c ->
  scatter c q s
  = Ok {| A_p := A_p s;
          B_p := stores_to (strided (Block_order c * q) (order c))
                   (λ p, Work_p s !!! Z.to_nat (strided 0 (Block_order c) p))
                   (flat_pairs (Block_order c) (Block_order c)) (B_p s);
          Work_p := Work_p s;
          B_stores := rev (strided (Block_order c * q) (order c)
                             <$> flat_pairs (Block_order c) (Block_order c))
                      ++ B_stores s |}.
Proof using Hc.
  intros Hq HB HW. pose proof Hc as []. unfold scatter.
  pose proof int_max_eq. pose proof size_max_eq.
  rewrite (flat_nest_pairs (λ j i s, v ← get_Work_in c i j s;
     set_B c (size_mul (to_size_t q) (Block_order c)) i j v s)) by lia.
  rewrite (block_start_eq c Hc) by done.
  rewrite <- (fold_B_from_W (strided 0 (Block_order c))).
  - apply fold_result_ext. intros p s' Hp. apply elem_of_flat_pairs in Hp.
    unfold get_Work_in, set_B, Work_in_p.
    rewrite (Colblock_index_eq c Hc), (Work_index_eq c Hc) by nia.
    unfold strided. cbn.
    replace (0 + (p.2 + Block_order c * p.1)) with (p.2 + 0 + Block_order c * p.1) by lia.
    done.
  - intros p Hp. apply elem_of_flat_pairs in Hp. unfold strided. nia.
  - intros p Hp. apply elem_of_flat_pairs in Hp. unfold strided. nia.
Qed.

Lemma initialize_eq r s :
  0 <= r < Num_procs c ->
  Z.of_nat (length (A_p s)) = Colblock_size c ->
  Z.of_nat (length (B_p s)) = Colblock_size c ->
  initialize c r s
  = Ok {| A_p := stores_to (strided 0 (order c))
                   (λ p, of_Z (order c * (p.1 + Block_order c * r) + p.2))
                   (init_pairs c) (A_p s);
          B_p := stores_to (strided 0 (order c)) (λ _, minus_one) (init_pairs c) (B_p s);
          Work_p := Work_p s;
          B_stores := rev (strided 0 (order c) <$> init_pairs c) ++ B_stores s |}.
Proof using Hc.
  intros Hr HA HB. pose proof Hc as []. unfold initialize.
  pose proof int_max_eq. pose proof size_max_eq.
  rewrite <- (fold_init (strided 0 (order c))).
  - unfold init_pairs. destruct (tiling c) eqn:E.
    + rewrite (tiled_nest_pairs (λ jt it, init_cell c r it jt)) by lia.
      apply fold_result_ext. intros p s' Hp.
      apply elem_of_tiled_pairs in Hp; [|lia..].
      unfold init_cell, set_A, set_B. cbn.
      rewrite (colstart_eq c Hc), !(Colblock_index_eq c Hc) by nia.
      rewrite (size_add_small p.1), size_mul_small, size_add_small by nia.
      unfold strided. destruct (store (A_p s') _ _); done.
    + rewrite (flat_nest_pairs (λ j i, init_cell c r i j)) by lia.
      apply fold_result_ext. intros p s' Hp.
      apply elem_of_flat_pairs in Hp.
      unfold init_cell, set_A, set_B. cbn.
      rewrite (colstart_eq c Hc), !(Colblock_index_eq c Hc) by nia.
      rewrite (size_add_small p.1), size_mul_small, size_add_small by nia.
      unfold strided. destruct (store (A_p s') _ _); done.
  - intros p Hp. apply init_pairs_spec in Hp. unfold strided. nia.
  - intros p Hp. apply init_pairs_spec in Hp. unfold strided. nia.
Qed.

End Rank.


(** * The ring schedule *)

Lemma to_int_small z : INT_MIN <= z <= INT_MAX -> to_int z = z.
Proof.
  unfold to_int, INT_MIN, INT_MAX. intros Hz.
  rewrite Z.mod_small by lia. lia.
Qed.

Section Schedule.
Context (c : config) (HP : 1 <= Num_procs c <= INT_MAX).

Lemma recv_from_eq r ph :
  0 <= r < Num_procs c -> 0 <= ph < Num_procs c ->
  recv_from_of c r ph = (r + ph) mod Num_procs c.
Proof using HP.
  intros Hr Hph. pose proof int_max_eq. pose proof size_max_eq.
  unfold recv_from_of, size_rem.
  rewrite !to_size_t_small, size_add_small by lia.
  pose proof (Z.mod_pos_bound (r + ph) (Num_procs c) ltac:(lia)).
  apply to_int_small. unfold INT_MIN. lia.
Qed.

Lemma send_to_eq r ph :
  0 <= r < Num_procs c -> 0 <= ph < Num_procs c ->
  send_to_of c r ph = (r - ph) mod Num_procs c.
Proof using HP.
  intros Hr Hph. pose proof int_max_eq. pose proof size_max_eq.
  unfold send_to_of, size_rem, size_add, size_sub.
  rewrite (to_size_t_small r), (to_size_t_small (Num_procs c)) by lia. unfold to_size_t.
  rewrite Z.add_mod_idemp_l by lia.
  rewrite (Z.mod_small (r - ph + Num_procs c)) by lia.
  replace (r - ph + Num_procs c) with (r - ph + 1 * Num_procs c) by lia.
  rewrite Z.mod_add by lia.
  pose proof (Z.mod_pos_bound (r - ph) (Num_procs c) ltac:(lia)).
  apply to_int_small. unfold INT_MIN. lia.
Qed.

Lemma mod_shift_eq a b n : 0 < n -> 0 <= a < n -> 0 <= b < n ->
  (a mod n = b mod n) -> a = b.
Proof. intros. rewrite !Z.mod_small in * by lia. done. Qed.

Lemma recv_from_range r ph :
  0 <= r < Num_procs c -> 0 <= ph < Num_procs c ->
  0 <= recv_from_of c r ph < Num_procs c.
Proof using HP. intros. rewrite recv_from_eq by done. apply Z.mod_pos_bound. lia. Qed.

Lemma send_to_range r ph :
  0 <= r < Num_procs c -> 0 <= ph < Num_procs c ->
  0 <= send_to_of c r ph < Num_procs c.
Proof using HP. intros. rewrite send_to_eq by done. apply Z.mod_pos_bound. lia. Qed.

(** With [0 <= a, b < n], [a = (b + d) mod n] pins [d] down modulo [n]. *)
Lemma mod_add_cases a d n : 0 < n -> 0 <= a < n -> - n < d < n ->
  (a + d) mod n = a + d ∨ (a + d) mod n = a + d - n ∨ (a + d) mod n = a + d + n.
Proof.
  intros Hn Ha Hd.
  destruct (Z.lt_ge_cases (a + d) 0).
  - right. right. symmetry. apply Z.mod_unique with (-1); lia.
  - destruct (Z.lt_ge_cases (a + d) n).
    + left. apply Z.mod_small. lia.
    + right. left. symmetry. apply Z.mod_unique with 1; lia.
Qed.

Lemma send_to_recv_from q ph :
  0 <= q < Num_procs c -> 0 <= ph < Num_procs c ->
  send_to_of c (recv_from_of c q ph) ph = q.
Proof using HP.
  intros Hq Hph. rewrite send_to_eq by (done || by apply recv_from_range).
  rewrite recv_from_eq by done.
  rewrite Zminus_mod_idemp_l. replace (q + ph - ph) with q by lia.
  apply Z.mod_small. lia.
Qed.

Lemma recv_from_send_to p ph :
  0 <= p < Num_procs c -> 0 <= ph < Num_procs c ->
  recv_from_of c (send_to_of c p ph) ph = p.
Proof using HP.
  intros Hp Hph. rewrite recv_from_eq by (done || by apply send_to_range).
  rewrite send_to_eq by done.
  rewrite Zplus_mod_idemp_l. replace (p - ph + ph) with p by lia.
  apply Z.mod_small. lia.
Qed.

Lemma send_to_iff_recv_from p q ph :
  0 <= p < Num_procs c -> 0 <= q < Num_procs c -> 0 <= ph < Num_procs c ->
  send_to_of c p ph = q ↔ recv_from_of c q ph = p.
Proof using HP.
  intros Hp Hq Hph. split; intros <-.
  - by apply recv_from_send_to.
  - by apply send_to_recv_from.
Qed.

Lemma send_to_not_self r ph :
  0 <= r < Num_procs c -> 1 <= ph < Num_procs c -> send_to_of c r ph ≠ r.
Proof using HP.
  intros Hr Hph. rewrite send_to_eq by lia.
  destruct (mod_add_cases r (- ph) (Num_procs c)) as [E|[E|E]]; try lia;
    replace (r + - ph) with (r - ph) in E by lia; lia.
Qed.

Lemma recv_from_not_self r ph :
  0 <= r < Num_procs c -> 1 <= ph < Num_procs c -> recv_from_of c r ph ≠ r.
Proof using HP.
  intros Hr Hph. rewrite recv_from_eq by lia.
  destruct (mod_add_cases r ph (Num_procs c)) as [E|[E|E]]; lia.
Qed.

Lemma send_to_inj p p' ph :
  0 <= p < Num_procs c -> 0 <= p' < Num_procs c -> 0 <= ph < Num_procs c ->
  send_to_of c p ph = send_to_of c p' ph -> p = p'.
Proof using HP.
  intros Hp Hp' Hph E.
  rewrite <- (recv_from_send_to p ph), <- (recv_from_send_to p' ph) by done.
  by rewrite E.
Qed.

Lemma recv_from_inj_phase r ph ph' :
  0 <= r < Num_procs c -> 0 <= ph < Num_procs c -> 0 <= ph' < Num_procs c ->
  recv_from_of c r ph = recv_from_of c r ph' -> ph = ph'.
Proof using HP.
  intros Hr Hph Hph'. rewrite !recv_from_eq by done. intros E.
  destruct (mod_add_cases r ph (Num_procs c)) as [E1|[E1|E1]]; try lia;
  destruct (mod_add_cases r ph' (Num_procs c)) as [E2|[E2|E2]]; lia.
Qed.

Lemma send_to_inj_phase r ph ph' :
  0 <= r < Num_procs c -> 0 <= ph < Num_procs c -> 0 <= ph' < Num_procs c ->
  send_to_of c r ph = send_to_of c r ph' -> ph = ph'.
Proof using HP.
  intros Hr Hph Hph'. rewrite !send_to_eq by done. intros E.
  destruct (mod_add_cases r (- ph) (Num_procs c)) as [E1|[E1|E1]]; try lia;
  destruct (mod_add_cases r (- ph') (Num_procs c)) as [E2|[E2|E2]]; try lia;
  replace (r + - ph) with (r - ph) in E1 by lia;
  replace (r + - ph') with (r - ph') in E2 by lia; lia.
Qed.

(** The phase in which [p] sends to [q]. *)
Lemma phase_of_pair p q :
  0 <= p < Num_procs c -> 0 <= q < Num_procs c -> p ≠ q ->
  1 <= (p - q) mod Num_procs c < Num_procs c ∧
  send_to_of c p ((p - q) mod Num_procs c) = q.
Proof using HP.
  intros Hp Hq Hne.
  pose proof (Z.mod_pos_bound (p - q) (Num_procs c) ltac:(lia)) as Hb.
  assert ((p - q) mod Num_procs c ≠ 0) as Hnz.
  { destruct (mod_add_cases p (- q) (Num_procs c)) as [E|[E|E]]; try lia;
      replace (p + - q) with (p - q) in E by lia; lia. }
  split; [lia|]. rewrite send_to_eq by lia.
  rewrite Zminus_mod_idemp_r. replace (p - (p - q)) with q by lia.
  apply Z.mod_small. lia.
Qed.

End Schedule.


(** * One phase on one rank *)

Section Phase_rank.
Context (c : config) (Hc : layout_ok c).

Lemma layout_procs : 1 <= Num_procs c <= INT_MAX.
Proof using Hc. by destruct Hc. Qed.

Lemma block_size_bounds : 1 <= Block_size c ∧ Block_size c = Block_order c * Block_order c.
Proof using Hc. destruct Hc. split; [nia|done]. Qed.

(** With the sizes in range the count of the MPI calls is the size of a
    block. *)
Lemma mpi_count_eq : sizes_ok c -> 1 < Num_procs c -> mpi_count c = Block_size c.
Proof using Hc.
  intros [_ Hn] HP. pose proof block_size_bounds as [Hbs _].
  unfold mpi_count. apply to_int_small. unfold INT_MIN. specialize (Hn HP). lia.
Qed.

Lemma packed_shaped q s : rank_shaped c s -> rank_shaped c (packed c q s).
Proof.
  intros (HA & HB & HW). split_and!; [done..|].
  intros HP. cbn. rewrite length_stores_to. auto.
Qed.

Lemma post_send_eq ph r s :
  1 < Num_procs c -> 0 <= r < Num_procs c -> 0 <= ph < Num_procs c ->
  rank_shaped c s -> sizes_ok c ->
  post_send c ph r s = Ok (packed c (send_to_of c r ph) s, message_of c ph r s).
Proof using Hc.
  intros HP Hr Hph (HA & HB & HW) Hs. specialize (HW HP).
  pose proof (send_to_range c layout_procs r ph Hr Hph) as Hq.
  pose proof block_size_bounds as [Hbs _].
  unfold post_send. rewrite (mpi_count_eq Hs HP).
  destruct (Z.ltb_spec (Block_size c) 0); [lia|].
  rewrite (pack_block_eq c Hc) by done. cbn.
  fold (packed c (send_to_of c r ph) s).
  unfold read_cells, Work_out_p, Work_in_p. cbn [Work_p packed].
  rewrite length_stores_to.
  destruct (Z.leb_spec (0 + Block_size c + Block_size c) (Z.of_nat (length (Work_p s))));
    [|lia].
  cbn. done.
Qed.

Lemma length_message_data ph r s :
  1 < Num_procs c -> rank_shaped c s ->
  Z.of_nat (length (msg_data (message_of c ph r s))) = Block_size c.
Proof using Hc.
  intros HP (HA & HB & HW). specialize (HW HP).
  pose proof block_size_bounds as [Hbs _].
  cbn. rewrite length_take, length_drop, length_stores_to. lia.
Qed.

(** The message holds the transposed block: [Work_out(j,i) = A(i,j)]. *)
Lemma message_data_lookup ph r s x y :
  1 < Num_procs c -> 0 <= r < Num_procs c -> 0 <= ph < Num_procs c ->
  rank_shaped c s ->
  0 <= x < Block_order c -> 0 <= y < Block_order c ->
  msg_data (message_of c ph r s) !! Z.to_nat (y + Block_order c * x)
  = Some (A_p s !!! Z.to_nat (x + Block_order c * send_to_of c r ph + order c * y)).
Proof using Hc.
  intros HP Hr Hph (HA & HB & HW) Hx Hy. specialize (HW HP).
  pose proof Hc as []. pose proof block_size_bounds as [Hbs Hbs'].
  cbn [msg_data message_of packed Work_p].
  rewrite lookup_take_lt by nia. rewrite lookup_drop.
  replace (Z.to_nat (Block_size c) + Z.to_nat (y + Block_order c * x))%nat
    with (Z.to_nat (strided (Block_size c) (Block_order c) (x, y)))
    by (unfold strided; cbn; nia).
  rewrite (stores_to_hit _ (λ p, A_p s !!! Z.to_nat
            (strided (Block_order c * send_to_of c r ph) (order c) (swap_pair p)))).
  - unfold strided, swap_pair. cbn. do 3 f_equal; lia.
  - apply block_pairs_spec; [done|]. cbn. lia.
  - apply (NoDup_strided _ _ (Block_order c) (Block_order c)).
    + by apply NoDup_block_pairs.
    + intros p Hp. by apply block_pairs_spec in Hp.
    + lia.
    + lia.
  - unfold strided. cbn. nia.
Qed.

Lemma scattered_shaped p data s :
  Z.of_nat (length data) = Block_size c -> rank_shaped c s ->
  1 < Num_procs c -> rank_shaped c (scattered c p data s).
Proof using Hc.
  intros Hd (HA & HB & HW) HP. specialize (HW HP).
  pose proof block_size_bounds as [Hbs _].
  split_and!; cbn.
  - done.
  - by rewrite length_stores_to.
  - intros _. rewrite length_app, length_drop. lia.
Qed.

Lemma complete_recv_eq ph r s wire m wire' :
  1 < Num_procs c -> 0 <= r < Num_procs c -> 0 <= ph < Num_procs c ->
  rank_shaped c s ->
  take_message (recv_from_of c r ph) r (to_int ph) wire = Some (m, wire') ->
  Z.of_nat (length (msg_data m)) = Block_size c -> sizes_ok c ->
  complete_recv c ph r s wire
  = Ok (scattered c (recv_from_of c r ph) (msg_data m) s, wire').
Proof using Hc.
  intros HP Hr Hph (HA & HB & HW) Htake Hlen Hs. specialize (HW HP).
  pose proof (recv_from_range c layout_procs r ph Hr Hph) as Hq.
  pose proof block_size_bounds as [Hbs _].
  unfold complete_recv. rewrite Htake, (mpi_count_eq Hs HP).
  destruct (Z.leb_spec (Z.of_nat (length (msg_data m))) (Block_size c)); [|lia].
  unfold write_cells, Work_in_p.
  destruct (Z.leb_spec (0 + Z.of_nat (length (msg_data m))) (Z.of_nat (length (Work_p s))));
    [|lia].
  cbn. rewrite (scatter_eq c Hc); cbn; [done|done|done|].
  rewrite !length_app, length_take, length_drop. lia.
Qed.

(** The scatter stores the received block into the rows of the sender. *)
Lemma scattered_B_hit p data s i j :
  0 <= p < Num_procs c ->
  Z.of_nat (length data) = Block_size c -> rank_shaped c s ->
  0 <= i < Block_order c -> 0 <= j < Block_order c ->
  B_p (scattered c p data s) !! Z.to_nat (i + Block_order c * p + order c * j)
  = data !! Z.to_nat (i + Block_order c * j).
Proof using Hc.
  intros Hp Hd (HA & HB & HW) Hi Hj. pose proof Hc as [].
  pose proof block_size_bounds as [Hbs Hbs'].
  cbn [B_p scattered].
  replace (Z.to_nat (i + Block_order c * p + order c * j))
    with (Z.to_nat (strided (Block_order c * p) (order c) (j, i)))
    by (unfold strided; cbn; lia).
  rewrite (stores_to_hit _ (λ x, (data ++ drop (length data) (Work_p s))
                                   !!! Z.to_nat (strided 0 (Block_order c) x))).
  - unfold strided. cbn.
    assert (Z.to_nat (i + 0 + Block_order c * j) < length data)%nat as Hlt by nia.
    rewrite list_lookup_total_alt, lookup_app_l by done.
    replace (i + 0 + Block_order c * j) with (i + Block_order c * j) by lia.
    destruct (lookup_lt_is_Some_2 data (Z.to_nat (i + Block_order c * j))) as [v Hv];
      [lia|]. by rewrite Hv.
  - apply elem_of_flat_pairs. cbn. lia.
  - apply (NoDup_strided _ _ (Block_order c) (Block_order c)).
    + apply NoDup_flat_pairs.
    + intros x Hx. by apply elem_of_flat_pairs in Hx.
    + nia.
    + lia.
  - unfold strided. cbn. nia.
Qed.

Lemma scattered_B_miss p data s k :
  (∀ i j, 0 <= i < Block_order c -> 0 <= j < Block_order c ->
          k ≠ Z.to_nat (i + Block_order c * p + order c * j)) ->
  B_p (scattered c p data s) !! k = B_p s !! k.
Proof.
  intros Hk. cbn [B_p scattered]. apply stores_to_miss.
  intros x Hx. apply elem_of_flat_pairs in Hx. unfold strided.
  intros E. apply (Hk x.2 x.1); [lia..|]. rewrite <- E. f_equal; lia.
Qed.

(** The local transpose stores the block of the rank itself. *)
Lemma local_transpose_B_hit r s i j :
  0 <= r < Num_procs c -> rank_shaped c s ->
  0 <= i < Block_order c -> 0 <= j < Block_order c ->
  stores_to (strided (Block_order c * r) (order c))
    (λ p, A_p s !!! Z.to_nat (strided (Block_order c * r) (order c) (swap_pair p)))
    (block_pairs c) (B_p s) !! Z.to_nat (i + Block_order c * r + order c * j)
  = Some (A_p s !!! Z.to_nat (j + Block_order c * r + order c * i)).
Proof using Hc.
  intros Hr (HA & HB & HW) Hi Hj. pose proof Hc as [].
  replace (Z.to_nat (i + Block_order c * r + order c * j))
    with (Z.to_nat (strided (Block_order c * r) (order c) (j, i)))
    by (unfold strided; cbn; lia).
  rewrite (stores_to_hit _ (λ p, A_p s !!! Z.to_nat
            (strided (Block_order c * r) (order c) (swap_pair p)))).
  - unfold strided, swap_pair. cbn. done.
  - apply block_pairs_spec; [done|]. cbn. lia.
  - apply (NoDup_strided _ _ (Block_order c) (Block_order c)).
    + by apply NoDup_block_pairs.
    + intros p Hp. by apply block_pairs_spec in Hp.
    + nia.
    + lia.
  - unfold strided. cbn. nia.
Qed.


End Phase_rank.


(** * All ranks together *)

Lemma on_ranks_pure {A B} (f : Z -> A -> result B) (g : Z -> A -> B) l : ∀ i,
  (∀ k a, l !! k = Some a -> f (i + Z.of_nat k) a = Ok (g (i + Z.of_nat k) a)) ->
  on_ranks f i l = Ok (imap (λ k a, g (i + Z.of_nat k) a) l).
Proof.
  induction l as [|a l IH]; intros i H; [done|].
  cbn [on_ranks]. pose proof (H 0%nat a eq_refl) as H0.
  rewrite Z.add_0_r in H0. rewrite H0. cbn.
  rewrite (IH (i + 1)).
  - cbn. rewrite Z.add_0_r. do 2 f_equal. apply imap_ext.
    intros k x _. cbn. f_equal. lia.
  - intros k x Hk. specialize (H (S k) x Hk).
    replace (i + 1 + Z.of_nat k) with (i + Z.of_nat (S k)) by lia. done.
Qed.

Lemma inbox_filter wire i q :
  q ≠ i -> inbox (filter (λ m, msg_dst m ≠ i) wire) q = inbox wire q.
Proof.
  intros Hq. induction wire as [|m wire IH]; [done|].
  rewrite filter_cons. destruct (decide (msg_dst m ≠ i)) as [Hne|He]; cbn.
  - by rewrite IH.
  - destruct (Z.eqb_spec (msg_dst m) q); [|done]. exfalso. apply He. congruence.
Qed.

Lemma filter_all {A} (P : A -> Prop) `{∀ x, Decision (P x)} (l : list A) :
  (∀ x, x ∈ l -> P x) -> filter P l = l.
Proof.
  induction l as [|x l IH]; intros Hl; [done|].
  rewrite filter_cons. destruct (decide (P x)) as [|Hn].
  - f_equal. apply IH. intros. apply Hl. by right.
  - exfalso. apply Hn, Hl. by left.
Qed.

Lemma NoDup_fmap_filter {A B} (f : A -> B) (P : A -> Prop) `{∀ x, Decision (P x)}
    (l : list A) :
  NoDup (f <$> l) -> NoDup (f <$> filter P l).
Proof.
  induction l as [|x l IH]; [done|]. rewrite fmap_cons. intros [Hx Hnd]%NoDup_cons.
  rewrite filter_cons. destruct (decide (P x)); [|by apply IH].
  rewrite fmap_cons. apply NoDup_cons. split; [|by apply IH].
  intros (y & E & Hy)%list_elem_of_fmap. apply list_elem_of_filter in Hy as [_ Hy].
  apply Hx. apply list_elem_of_fmap. eauto.
Qed.

(** A receive takes the one message addressed to the rank. *)
Lemma take_message_spec src dst tag wire m :
  NoDup (msg_dst <$> wire) -> m ∈ wire ->
  msg_src m = src -> msg_dst m = dst -> msg_tag m = tag ->
  take_message src dst tag wire = Some (m, filter (λ m', msg_dst m' ≠ dst) wire)
  ∧ inbox wire dst = msg_data m.
Proof.
  intros Hnd Hm Hs Hd Ht. induction wire as [|m' wire IH]; [by inv Hm|].
  rewrite fmap_cons in Hnd. apply NoDup_cons in Hnd as [Hm' Hnd].
  cbn [take_message inbox]. rewrite filter_cons.
  apply elem_of_cons in Hm as [<-|Hm].
  - rewrite Hs, Hd, Ht, !Z.eqb_refl. cbn.
    destruct (decide (dst ≠ dst)) as [|_]; [done|]. split; [|done].
    do 2 f_equal. symmetry. apply filter_all.
    intros x Hx E. apply Hm'. rewrite Hd, <- E. apply list_elem_of_fmap. eauto.
  - assert (msg_dst m' ≠ dst) as Hne.
    { intros E. apply Hm'. rewrite E, <- Hd. apply list_elem_of_fmap. eauto. }
    destruct (Z.eqb_spec (msg_dst m') dst); [done|].
    rewrite andb_false_r. cbn.
    destruct (IH Hnd Hm) as [-> ->].
    destruct (decide (msg_dst m' ≠ dst)); done.
Qed.

Section World.
Context (c : config) (Hc : layout_ok c) (Hfit : sizes_ok c).

(** The receives of a phase, all ranks in turn. *)
Lemma complete_all_eq ph l : ∀ i wire,
  1 < Num_procs c -> 0 <= ph < Num_procs c ->
  0 <= i -> i + Z.of_nat (length l) = Num_procs c ->
  (∀ k s, l !! k = Some s -> rank_shaped c s) ->
  NoDup (msg_dst <$> wire) ->
  (∀ m, m ∈ wire ->
     i <= msg_dst m < Num_procs c ∧ msg_tag m = to_int ph ∧
     recv_from_of c (msg_dst m) ph = msg_src m ∧
     Z.of_nat (length (msg_data m)) = Block_size c) ->
  (∀ q, i <= q < Num_procs c -> ∃ m, m ∈ wire ∧ msg_dst m = q) ->
  complete_all c ph i l wire
  = Ok (imap (λ k s, scattered c (recv_from_of c (i + Z.of_nat k) ph)
                       (inbox wire (i + Z.of_nat k)) s) l, []).
Proof using Hc Hfit.
  induction l as [|s l IH]; intros i wire HP Hph Hi Hlen Hsh Hnd Hw Hall.
  - cbn in *. destruct wire as [|m wire]; [done|].
    destruct (Hw m ltac:(left)) as [? _]. lia.
  - cbn [complete_all]. cbn [length] in Hlen.
    destruct (Hall i ltac:(lia)) as (m & Hm & Hd).
    destruct (Hw m Hm) as (_ & Ht & Hs & Hl). rewrite Hd in Hs.
    destruct (take_message_spec (recv_from_of c i ph) i (to_int ph) wire m)
      as [Htake Hin]; [done..|].
    rewrite (complete_recv_eq c Hc ph i s wire m _ HP ltac:(lia) Hph
               (Hsh 0%nat s eq_refl) Htake Hl Hfit).
    cbn. rewrite (IH (i + 1)); [|done|done|lia|lia| | | |].
    + cbn. rewrite Z.add_0_r, Hin. do 3 f_equal. apply imap_ext.
      intros k x _. cbn. rewrite inbox_filter by lia.
      replace (i + 1 + Z.of_nat k) with (i + Z.of_nat (S k)) by lia. done.
    + intros k x Hk. apply (Hsh (S k) x Hk).
    + by apply NoDup_fmap_filter.
    + intros m' Hm'. apply list_elem_of_filter in Hm' as [Hne Hm'].
      destruct (Hw m' Hm') as (? & ? & ? & ?). split_and!; [lia|lia|done..].
    + intros q Hq. destruct (Hall q ltac:(lia)) as (m' & Hm' & Hd').
      exists m'. split; [|done]. apply list_elem_of_filter. split; [lia|done].
Qed.

Lemma imap_index {A B} (f : Z -> B) (l : list A) :
  imap (λ k _, f (Z.of_nat k)) l = f <$> seqZ 0 (Z.of_nat (length l)).
Proof.
  apply list_eq. intros k. rewrite list_lookup_imap, list_lookup_fmap.
  destruct (l !! k) as [a|] eqn:E; cbn.
  - apply lookup_lt_Some in E. rewrite lookup_seqZ_lt by lia. done.
  - apply lookup_ge_None in E. rewrite lookup_seqZ_ge by lia. done.
Qed.

Lemma sent_messages_lookup ph rs k :
  sent_messages c ph rs !! k = message_of c ph (Z.of_nat k) <$> rs !! k.
Proof. unfold sent_messages. by rewrite list_lookup_imap. Qed.

Lemma elem_of_sent_messages ph rs m :
  m ∈ sent_messages c ph rs ↔ ∃ k s, rs !! k = Some s ∧ m = message_of c ph (Z.of_nat k) s.
Proof.
  unfold sent_messages. rewrite elem_of_lookup_imap. split.
  - intros (k & s & -> & Hk). eauto.
  - intros (k & s & Hk & ->). eauto.
Qed.

Lemma NoDup_sent_dst ph rs :
  1 < Num_procs c -> 0 <= ph < Num_procs c ->
  Z.of_nat (length rs) = Num_procs c ->
  NoDup (msg_dst <$> sent_messages c ph rs).
Proof using Hc.
  intros HP Hph Hlen. apply NoDup_alt. intros i j q.
  rewrite !list_lookup_fmap, !sent_messages_lookup.
  destruct (rs !! i) as [si|] eqn:Ei; [|done].
  destruct (rs !! j) as [sj|] eqn:Ej; [|done]. cbn.
  intros [= <-] [= E]. apply lookup_lt_Some in Ei, Ej.
  apply (send_to_inj c (layout_procs c Hc)) in E; lia.
Qed.

(** One phase on all ranks, in closed form. *)
Lemma exchange_phase_eq ph w :
  1 < Num_procs c -> 1 <= ph < Num_procs c -> world_shaped c w ->
  exchange_phase c ph w
  = Ok {| ranks := after_phase c ph (ranks w); wire := [];
          traffic := rev ((λ k, (k, send_to_of c k ph, to_int ph))
                            <$> seqZ 0 (Num_procs c)) ++ traffic w |}.
Proof using Hc Hfit.
  intros HP Hph (Hlen & Hsh & Hwire). pose proof (layout_procs c Hc) as HPr.
  unfold exchange_phase.
  rewrite (on_ranks_pure (post_send c ph)
             (λ r s, (packed c (send_to_of c r ph) s, message_of c ph r s))).
  2:{ intros k s Hk. rewrite Z.add_0_l. apply (post_send_eq c Hc); [done| |lia|by eapply Hsh|done].
      apply lookup_lt_Some in Hk. lia. }
  cbn [mbind result_bind]. rewrite Hwire, app_nil_l.
  set (posted := imap _ (ranks w)).
  assert (posted.*2 = sent_messages c ph (ranks w)) as ->.
  { subst posted. rewrite fmap_imap. unfold sent_messages.
    apply imap_ext. intros k s _. cbn. by rewrite Z.add_0_l. }
  assert (posted.*1 = imap (λ k s, packed c (send_to_of c (Z.of_nat k) ph) s) (ranks w))
    as ->.
  { subst posted. rewrite fmap_imap.
    apply imap_ext. intros k s _. cbn. by rewrite Z.add_0_l. }
  clear posted.
  rewrite (complete_all_eq ph); [|done|lia|lia| | | | |].
  - cbn. f_equal. f_equal.
    + (* the ranks *)
      unfold after_phase. apply list_eq. intros k.
      rewrite !list_lookup_imap. destruct (ranks w !! k) as [s|] eqn:Ek; [|done].
      cbn. rewrite !Z.add_0_l. do 2 f_equal.
      apply lookup_lt_Some in Ek.
      pose proof (recv_from_range c HPr (Z.of_nat k) ph ltac:(lia) ltac:(lia)) as Hp.
      set (p := recv_from_of c (Z.of_nat k) ph) in *.
      destruct (lookup_lt_is_Some_2 (ranks w) (Z.to_nat p) ltac:(lia)) as [sp Hsp].
      rewrite (list_lookup_total_correct _ _ _ Hsp).
      destruct (take_message_spec p (Z.of_nat k) (to_int ph)
                  (sent_messages c ph (ranks w)) (message_of c ph p sp)) as [_ ->].
      * by apply NoDup_sent_dst; [done|lia|].
      * apply elem_of_sent_messages. exists (Z.to_nat p), sp.
        split; [done|]. by rewrite Z2Nat.id by lia.
      * done.
      * cbn. subst p. apply (send_to_recv_from c HPr); lia.
      * done.
      * done.
    + (* the traffic *)
      f_equal. f_equal. unfold sent_messages. rewrite fmap_imap.
      rewrite <- Hlen. rewrite <- (imap_index (λ k, (k, send_to_of c k ph, to_int ph))).
      apply imap_ext. intros k s _. done.
  - rewrite length_imap. lia.
  - intros k s. rewrite list_lookup_imap.
    destruct (ranks w !! k) as [s'|] eqn:Ek; [|done]. cbn. intros [= <-].
    apply packed_shaped. by eapply Hsh.
  - apply NoDup_sent_dst; [done|lia|done].
  - intros m (k & s & Hk & ->)%elem_of_sent_messages. cbn [msg_dst msg_tag msg_src message_of].
    pose proof (lookup_lt_Some _ _ _ Hk) as Hk'.
    split_and!.
    + apply (send_to_range c HPr); lia.
    + apply (send_to_range c HPr); lia.
    + done.
    + apply (recv_from_send_to c HPr); lia.
    + apply (length_message_data c Hc); [done|]. by eapply Hsh.
  - intros q Hq.
    pose proof (recv_from_range c HPr q ph ltac:(lia) ltac:(lia)) as Hp.
    destruct (lookup_lt_is_Some_2 (ranks w) (Z.to_nat (recv_from_of c q ph)) ltac:(lia))
      as [sp Hsp].
    exists (message_of c ph (recv_from_of c q ph) sp). split.
    + apply elem_of_sent_messages. exists (Z.to_nat (recv_from_of c q ph)), sp.
      split; [done|]. by rewrite Z2Nat.id by lia.
    + cbn. apply (send_to_recv_from c HPr); lia.
Qed.

End World.


(** * The invariant of the phases *)

Section Invariant.
Context (c : config) (Hc : layout_ok c).

Lemma block_cell_inj x b y i p j :
  0 <= x < Block_order c -> 0 <= i < Block_order c ->
  0 <= b < Num_procs c -> 0 <= p < Num_procs c -> 0 <= y -> 0 <= j ->
  x + Block_order c * b + order c * y = i + Block_order c * p + order c * j ->
  b = p ∧ x = i ∧ y = j.
Proof using Hc.
  destruct Hc. intros Hx Hi Hb Hp Hy Hj E.
  assert (0 <= x + Block_order c * b < order c) by nia.
  assert (0 <= i + Block_order c * p < order c) by nia.
  assert (y = j) by nia. subst y.
  assert (b = p) by nia. subst b. lia.
Qed.

Lemma lookup_total_in_range (l : list double) (k : nat) :
  (k < length l)%nat -> Some (l !!! k) = l !! k.
Proof.
  intros Hk. destruct (lookup_lt_is_Some_2 l k Hk) as [v Hv].
  by rewrite (list_lookup_total_correct _ _ _ Hv).
Qed.

Lemma chron_stores_succ r n :
  1 <= n ->
  chron_stores c r n
  = chron_stores c r (n - 1)
    ++ (strided (Block_order c * recv_from_of c r n) (order c)
          <$> flat_pairs (Block_order c) (Block_order c)).
Proof.
  intros Hn. unfold chron_stores.
  replace n with ((n - 1) + 1) at 1 by lia.
  rewrite seqZ_app by lia. replace (1 + (n - 1)) with n by lia.
  rewrite bind_app, <- app_assoc. do 2 f_equal.
  rewrite seqZ_singleton. cbn. by rewrite app_nil_r.
Qed.

Lemma phase_inv_start rs0 :
  Z.of_nat (length rs0) = Num_procs c ->
  (∀ k s, rs0 !! k = Some s -> rank_shaped c s) ->
  phase_inv c 0 rs0 (imap (λ k s, after_local_transpose c (Z.of_nat k) s) rs0).
Proof using Hc.
  intros Hlen Hsh. pose proof (layout_procs c Hc) as HPr.
  split; [by rewrite length_imap|].
  intros k s0 Hk. pose proof (lookup_lt_Some _ _ _ Hk) as Hk'.
  pose proof (Hsh k s0 Hk) as Hs0. pose proof Hs0 as (HA & HB & HW).
  exists (after_local_transpose c (Z.of_nat k) s0).
  rewrite list_lookup_imap, Hk. split; [done|]. split; [done|]. split.
  { split_and!; cbn; [done| |done]. by rewrite length_stores_to. }
  split.
  { cbn. unfold chron_stores. rewrite seqZ_nil by lia. cbn. by rewrite app_nil_r. }
  intros d Hd b x j Hx Hj. assert (d = 0) as -> by lia. subst b.
  rewrite (recv_from_eq c HPr) by lia. rewrite Z.add_0_r, Z.mod_small by lia.
  rewrite Nat2Z.id, (list_lookup_total_correct _ _ _ Hk).
  cbn [B_p after_local_transpose].
  rewrite (local_transpose_B_hit c Hc) by (done || lia).
  apply lookup_total_in_range. destruct Hc. nia.
Qed.

Lemma phase_inv_step n rs0 rs :
  1 < Num_procs c -> 1 <= n < Num_procs c ->
  Z.of_nat (length rs0) = Num_procs c ->
  phase_inv c (n - 1) rs0 rs ->
  phase_inv c n rs0 (after_phase c n rs).
Proof using Hc.
  intros HP Hn Hlen [Hl Hinv]. pose proof (layout_procs c Hc) as HPr.
  split; [unfold after_phase; by rewrite length_imap|].
  intros k s0 Hk. pose proof (lookup_lt_Some _ _ _ Hk) as Hk'.
  destruct (Hinv k s0 Hk) as (s & Hs & HAs & Hsh & Hst & Hblk).
  pose proof (recv_from_range c HPr (Z.of_nat k) n ltac:(lia) ltac:(lia)) as Hp.
  set (p := recv_from_of c (Z.of_nat k) n) in *.
  destruct (lookup_lt_is_Some_2 rs0 (Z.to_nat p) ltac:(lia)) as [sp0 Hsp0].
  destruct (Hinv _ sp0 Hsp0) as (sp & Hsp & HAsp & Hshp & _ & _).
  assert (send_to_of c p n = Z.of_nat k) as Hst_p
    by (subst p; apply (send_to_recv_from c HPr); lia).
  set (data := msg_data (message_of c n p sp)).
  assert (Z.of_nat (length data) = Block_size c) as Hdata
    by (by apply (length_message_data c Hc)).
  exists (scattered c p data (packed c (send_to_of c (Z.of_nat k) n) s)).
  split.
  { unfold after_phase. rewrite list_lookup_imap, Hs. cbn. fold p.
    by rewrite (list_lookup_total_correct _ _ _ Hsp). }
  split; [done|]. split.
  { apply (scattered_shaped c Hc); [done| |done]. by apply packed_shaped. }
  split.
  { cbn [B_stores scattered packed]. rewrite Hst, (chron_stores_succ _ n) by lia.
    fold p. by rewrite rev_app_distr, <- app_assoc. }
  intros d Hd b x j Hx Hj.
  destruct (Z.eq_dec d n) as [->|Hne].
  - subst b. fold p.
    rewrite (scattered_B_hit c Hc) by (done || by apply packed_shaped).
    subst data.
    rewrite (message_data_lookup c Hc n p sp j x) by (done || lia).
    rewrite Hst_p, HAsp, (list_lookup_total_correct _ _ _ Hsp0).
    apply lookup_total_in_range. rewrite <- HAsp.
    destruct Hshp as (HA & _). destruct Hc. nia.
  - pose proof (recv_from_range c HPr (Z.of_nat k) d ltac:(lia) ltac:(lia)) as Hb.
    rewrite scattered_B_miss.
    + cbn [B_p packed]. apply Hblk; [lia|done..].
    + intros i j' Hi Hj' E. apply Z2Nat.inj in E; [| destruct Hc; nia..].
      apply block_cell_inj in E as (E & _ & _); [|done|done|done|done|lia|lia].
      subst b p. apply (recv_from_inj_phase c HPr) in E; lia.
Qed.

End Invariant.


(** * One iteration *)

Section Iteration.
Context (c : config) (Hc : layout_ok c) (Hfit : sizes_ok c).

Lemma phase_inv_shaped n rs0 rs :
  phase_inv c n rs0 rs -> ∀ k s, rs !! k = Some s -> rank_shaped c s.
Proof.
  intros [Hl Hinv] k s Hk. pose proof (lookup_lt_Some _ _ _ Hk) as Hk'.
  destruct (lookup_lt_is_Some_2 rs0 k ltac:(lia)) as [s0 Hs0].
  destruct (Hinv k s0 Hs0) as (s' & Hs' & _ & Hsh & _). congruence.
Qed.

Lemma chron_traffic_succ n :
  0 <= n ->
  chron_traffic c (n + 1)
  = chron_traffic c n
    ++ ((λ k, (k, send_to_of c k (n + 1), to_int (n + 1))) <$> seqZ 0 (Num_procs c)).
Proof.
  intros Hn. unfold chron_traffic. rewrite seqZ_app by lia.
  rewrite bind_app. f_equal.
  rewrite seqZ_singleton. cbn. rewrite app_nil_r.
  by replace (1 + n) with (n + 1) by lia.
Qed.

Lemma exchange_prefix rs0 w (n : nat) :
  Z.of_nat n <= Num_procs c - 1 ->
  Z.of_nat (length rs0) = Num_procs c -> wire w = [] ->
  phase_inv c 0 rs0 (ranks w) ->
  fold_result (exchange_phase c) (seqZ 1 (Z.of_nat n)) w
  = Ok {| ranks := after_phases c n (ranks w); wire := [];
          traffic := rev (chron_traffic c (Z.of_nat n)) ++ traffic w |}
  ∧ phase_inv c (Z.of_nat n) rs0 (after_phases c n (ranks w)).
Proof using Hc Hfit.
  intros Hn Hlen Hwire Hinv. induction n as [|n IH].
  - cbn. split; [|done]. destruct w. cbn in *. by subst.
  - destruct IH as [IH1 IH2]; [lia|].
    rewrite seqZ_S, fold_result_app, IH1. cbn [mbind result_bind fold_result].
    assert (phase_inv c (Z.of_nat (S n)) rs0 (after_phases c (S n) (ranks w))) as Hstep.
    { cbn [after_phases]. replace (Z.of_nat (S n)) with (Z.of_nat n + 1) by lia.
      apply (phase_inv_step c Hc); [lia|lia|done|].
      by replace (Z.of_nat n + 1 - 1) with (Z.of_nat n) by lia. }
    split; [|done].
    rewrite (exchange_phase_eq c Hc Hfit); [|lia|lia|].
    + cbn [ranks traffic after_phases]. do 2 f_equal.
      replace (1 + Z.of_nat n) with (Z.of_nat n + 1) by lia.
      replace (Z.of_nat (S n)) with (Z.of_nat n + 1) by lia.
      rewrite chron_traffic_succ, rev_app_distr, <- app_assoc by lia. done.
    + destruct IH2 as [Hl2 ?]. split_and!; cbn.
      * lia.
      * by eapply phase_inv_shaped.
      * done.
Qed.

(** One iteration, in closed form: every rank keeps [A], and its [B]
    holds in the rows of every rank the transposed block of that rank. *)
Lemma transpose_iteration_eq w :
  world_shaped c w ->
  transpose_iteration c w
  = Ok {| ranks := after_iteration c (ranks w); wire := [];
          traffic := rev (chron_traffic c (Num_procs c - 1)) ++ traffic w |}
  ∧ phase_inv c (Num_procs c - 1) (ranks w) (after_iteration c (ranks w)).
Proof using Hc Hfit.
  intros (Hlen & Hsh & Hwire). pose proof (layout_procs c Hc) as HPr.
  pose proof int_max_eq. pose proof size_max_eq.
  unfold transpose_iteration.
  rewrite (on_ranks_pure (local_transpose c) (after_local_transpose c)).
  2:{ intros k s Hk. rewrite Z.add_0_l. pose proof (lookup_lt_Some _ _ _ Hk).
      destruct (Hsh k s Hk) as (HA & HB & _).
      apply (local_transpose_eq c Hc); (done || lia). }
  cbn [mbind result_bind]. unfold exchange_phases.
  rewrite to_size_t_small, for_lt_unit by lia.
  set (rs1 := imap _ (ranks w)).
  assert (rs1 = imap (λ k s, after_local_transpose c (Z.of_nat k) s) (ranks w)) as Hrs1.
  { subst rs1. apply imap_ext. intros k s _. cbn. by rewrite Z.add_0_l. }
  destruct (exchange_prefix (ranks w)
              {| ranks := rs1; wire := wire w; traffic := traffic w |}
              (Z.to_nat (Num_procs c - 1))) as [E Hinv].
  - lia.
  - done.
  - done.
  - cbn. rewrite Hrs1. by apply (phase_inv_start c Hc).
  - rewrite Z2Nat.id in E, Hinv by lia. cbn [ranks traffic] in E, Hinv.
    rewrite E. unfold after_iteration. by rewrite <- Hrs1.
Qed.

Lemma after_iteration_shaped w :
  world_shaped c w ->
  world_shaped c {| ranks := after_iteration c (ranks w); wire := [];
                    traffic := rev (chron_traffic c (Num_procs c - 1)) ++ traffic w |}.
Proof using Hc Hfit.
  intros Hw. destruct (transpose_iteration_eq w Hw) as [_ Hinv].
  destruct Hw as (Hlen & Hsh & Hwire). split_and!; cbn.
  - destruct Hinv as [-> _]. done.
  - by eapply phase_inv_shaped.
  - done.
Qed.

End Iteration.


(** * The start of the run and its iterations *)

Lemma for_loop_ext {St} (cond cond' : Z -> bool) next (body : Z -> St -> result St) :
  (∀ i, cond i = cond' i) ->
  ∀ fuel i s, for_loop fuel i cond next body s = for_loop fuel i cond' next body s.
Proof.
  intros H fuel. induction fuel as [|fuel IH]; intros i s; cbn; rewrite <- H.
  - done.
  - destruct (cond i); [|done]. destruct (body i s); cbn; [apply IH|done].
Qed.

Lemma for_le_unit {St} (body : Z -> St -> result St) a b s :
  0 <= a <= SIZE_MAX -> b + 1 <= SIZE_MAX ->
  for_le a b body s = fold_result body (seqZ a (b + 1 - a)) s.
Proof.
  intros Ha Hb. rewrite <- for_lt_unit by lia. unfold for_le, for_lt.
  apply for_loop_ext. intros i. destruct (Z.leb_spec i b), (Z.ltb_spec i (b + 1)); lia.
Qed.

Section Start.
Context (c : config) (Hc : layout_ok c) (Hfit : sizes_ok c).

Lemma allocate_eq f :
  enough_memory c f = true -> allocate c f = Ok (allocated c f).
Proof using Hc Hfit.
  unfold enough_memory. rewrite !andb_true_iff, orb_true_iff, !Z.leb_le.
  intros [[HA HB] HW]. pose proof Hc as []. destruct Hfit as [Hbytes Hcount].
  pose proof int_max_eq. pose proof size_max_eq.
  pose proof (block_size_bounds c Hc) as [Hb1 Hb2].
  unfold sizeof_double in *.
  assert (0 <= Colblock_size c) as Hcb by nia.
  unfold allocate, malloc, sizeof_double.
  rewrite (size_mul_small (Colblock_size c)) by lia. rewrite Z.div_mul by done.
  destruct (Z.leb_spec (Colblock_size c) (Z.of_nat (length f.1.1))); [|lia].
  destruct (Z.leb_spec (Colblock_size c) (Z.of_nat (length f.1.2))); [|lia].
  cbn. unfold allocated. destruct (Z.ltb_spec 1 (Num_procs c)); [|done].
  specialize (Hcount ltac:(lia)).
  rewrite (size_mul_small 2), size_mul_small by lia. rewrite Z.div_mul by done.
  destruct (Z.leb_spec (2 * Block_size c) (Z.of_nat (length f.2))); [done|lia].
Qed.

Lemma allocated_shaped f :
  enough_memory c f = true -> rank_shaped c (allocated c f).
Proof using Hc.
  unfold enough_memory. rewrite !andb_true_iff, orb_true_iff, !Z.leb_le.
  intros [[HA HB] HW]. pose proof Hc as []. pose proof (block_size_bounds c Hc) as [? _].
  split_and!; cbn; rewrite ?length_take; [nia|nia|].
  intros HP. destruct (Z.ltb_spec 1 (Num_procs c)); [|lia].
  rewrite length_take. lia.
Qed.

Lemma initialised_shaped r s : rank_shaped c s -> rank_shaped c (initialised c r s).
Proof. intros (HA & HB & HW). split_and!; cbn; rewrite ?length_stores_to; done. Qed.

Lemma initialised_A r s :
  0 <= r < Num_procs c -> rank_shaped c s -> A_initialised c r (initialised c r s).
Proof using Hc.
  intros Hr (HA & HB & _) i j Hi Hj. pose proof Hc as [].
  cbn [A_p initialised].
  replace (Z.to_nat (i + order c * j)) with (Z.to_nat (strided 0 (order c) (j, i)))
    by (unfold strided; cbn; lia).
  rewrite (stores_to_hit _ (λ p, of_Z (order c * (p.1 + Block_order c * r) + p.2))).
  - cbn. by rewrite (colstart_eq c Hc).
  - apply init_pairs_spec; [done|]. cbn. lia.
  - apply (NoDup_strided _ _ (Block_order c) (order c)).
    + by apply NoDup_init_pairs.
    + intros p Hp. by apply init_pairs_spec in Hp.
    + lia.
    + lia.
  - unfold strided. cbn. nia.
Qed.

(** After the initialisation every cell of [B] holds the sentinel. *)
Lemma initialised_B r s i j :
  rank_shaped c s -> 0 <= i < order c -> 0 <= j < Block_order c ->
  B_p (initialised c r s) !! Z.to_nat (i + order c * j) = Some minus_one.
Proof using Hc.
  intros (HA & HB & _) Hi Hj. pose proof Hc as [].
  cbn [B_p initialised].
  replace (Z.to_nat (i + order c * j)) with (Z.to_nat (strided 0 (order c) (j, i)))
    by (unfold strided; cbn; lia).
  rewrite (stores_to_hit _ (λ _, minus_one)).
  - done.
  - apply init_pairs_spec; [done|]. cbn. lia.
  - apply (NoDup_strided _ _ (Block_order c) (order c)).
    + by apply NoDup_init_pairs.
    + intros p Hp. by apply init_pairs_spec in Hp.
    + lia.
    + lia.
  - unfold strided. cbn. nia.
Qed.

Lemma start_world_eq fresh :
  Z.of_nat (length fresh) = Num_procs c ->
  forallb (enough_memory c) fresh = true ->
  start_world c fresh = Ok (first_world c fresh).
Proof using Hc Hfit.
  intros Hlen Hmem. unfold start_world.
  rewrite (on_ranks_pure _ (λ r f, initialised c r (allocated c f))).
  - reflexivity.
  - intros k f Hk. rewrite Z.add_0_l. pose proof (lookup_lt_Some _ _ _ Hk).
    rewrite forallb_forall in Hmem.
    assert (enough_memory c f = true) as Hf.
    { apply Hmem. apply list_elem_of_In. by eapply list_elem_of_lookup_2. }
    rewrite (allocate_eq f Hf). cbn.
    destruct (allocated_shaped f Hf) as (HA & HB & _).
    apply (initialize_eq c Hc); [lia|done..].
Qed.

Lemma first_world_shaped fresh :
  Z.of_nat (length fresh) = Num_procs c ->
  forallb (enough_memory c) fresh = true ->
  world_shaped c (first_world c fresh)
  ∧ ∀ k s, ranks (first_world c fresh) !! k = Some s -> A_initialised c (Z.of_nat k) s.
Proof using Hc.
  intros Hlen Hmem. rewrite forallb_forall in Hmem.
  assert (∀ k f, fresh !! k = Some f -> enough_memory c f = true) as Hf.
  { intros k f Hk. apply Hmem. apply list_elem_of_In. by eapply list_elem_of_lookup_2. }
  split; [split_and!|]; cbn.
  - by rewrite length_imap.
  - intros k s. rewrite list_lookup_imap.
    destruct (fresh !! k) as [f|] eqn:Ek; [|done]. cbn. intros [= <-].
    apply initialised_shaped, allocated_shaped. eauto.
  - done.
  - intros k s. rewrite list_lookup_imap.
    destruct (fresh !! k) as [f|] eqn:Ek; [|done]. cbn. intros [= <-].
    pose proof (lookup_lt_Some _ _ _ Ek).
    apply initialised_A; [lia|]. apply allocated_shaped. eauto.
Qed.

End Start.


Section Run.
Context (c : config) (Hc : layout_ok c) (Hfit : sizes_ok c).

Lemma events_upto_succ n :
  0 <= n -> events_upto (n + 1) = events_upto n ++ iteration_events n.
Proof.
  intros Hn. unfold events_upto. rewrite seqZ_app by lia.
  rewrite bind_app, Z.add_0_l, seqZ_singleton. cbn. by rewrite app_nil_r.
Qed.

Lemma world_after_succ n w :
  wire w = [] ->
  world_after c (S n) w
  = {| ranks := after_iteration c (ranks (world_after c n w)); wire := [];
       traffic := rev (chron_traffic c (Num_procs c - 1)) ++ traffic (world_after c n w) |}.
Proof. intros Hw. unfold world_after. cbn. by rewrite Hw. Qed.

Lemma world_after_shaped n w :
  world_shaped c w -> world_shaped c (world_after c n w).
Proof using Hc Hfit.
  intros Hw. induction n as [|n IH].
  - by destruct w.
  - rewrite world_after_succ by apply Hw. by apply (after_iteration_shaped c Hc Hfit).
Qed.

(** The loop over the iterations, in closed form. *)
Lemma iterations_prefix timers time0 (n : nat) w :
  world_shaped c w ->
  fold_result (iteration_body c timers) (seqZ 0 (Z.of_nat n))
    {| rs_world := w; rs_events := []; rs_time := time0 |}
  = Ok {| rs_world := world_after c n w;
          rs_events := rev (events_upto (Z.of_nat n));
          rs_time := time_after timers time0 n |}.
Proof using Hc Hfit.
  intros Hw. induction n as [|n IH].
  - cbn. by destruct w.
  - rewrite seqZ_S, fold_result_app, IH. cbn [mbind result_bind fold_result].
    unfold iteration_body. cbn [rs_world rs_events rs_time].
    destruct (transpose_iteration_eq c Hc Hfit (world_after c n w)) as [-> _];
      [by apply world_after_shaped|].
    cbn [mbind result_bind]. rewrite world_after_succ by apply Hw.
    rewrite Z.add_0_l. f_equal.
    replace (Z.of_nat (S n)) with (Z.of_nat n + 1) by lia.
    rewrite events_upto_succ, rev_app_distr by lia.
    unfold iteration_events, time_after.
    destruct n as [|[|n]]; try done.
    replace (Z.of_nat (S (S n)) =? 1) with false by (symmetry; apply Z.eqb_neq; lia).
    done.
Qed.

Lemma world_after_inv n w :
  world_shaped c w ->
  phase_inv c (Num_procs c - 1) (ranks (world_after c n w))
    (ranks (world_after c (S n) w)).
Proof using Hc Hfit.
  intros Hw. rewrite world_after_succ by apply Hw. cbn [ranks].
  by apply (transpose_iteration_eq c Hc Hfit), world_after_shaped.
Qed.

(** [A] is the same list after any number of iterations. *)
Lemma world_after_A n w k s0 :
  world_shaped c w -> ranks w !! k = Some s0 ->
  ∃ s, ranks (world_after c n w) !! k = Some s ∧ A_p s = A_p s0.
Proof using Hc Hfit.
  intros Hw Hk. induction n as [|n (s & Hs & HA)]; [by exists s0|].
  destruct (world_after_inv n w Hw) as [_ Hinv].
  destruct (Hinv k s Hs) as (s' & Hs' & HA' & _). exists s'. split; [done|congruence].
Qed.

Lemma world_after_length n w :
  world_shaped c w -> Z.of_nat (length (ranks (world_after c n w))) = Num_procs c.
Proof using Hc Hfit. intros Hw. by apply world_after_shaped. Qed.

(** After an iteration that started from initialised source blocks, [B]
    is the transpose. *)
Lemma phase_inv_transposed rs0 rs :
  Z.of_nat (length rs0) = Num_procs c ->
  (∀ k s0, rs0 !! k = Some s0 -> A_initialised c (Z.of_nat k) s0) ->
  phase_inv c (Num_procs c - 1) rs0 rs ->
  ∀ k s, rs !! k = Some s -> B_transposed c (Z.of_nat k) s.
Proof using Hc.
  intros Hlen HA0 [Hl Hinv] k s Hk i j Hi Hj.
  pose proof (layout_procs c Hc) as HPr. pose proof Hc as [].
  pose proof (lookup_lt_Some _ _ _ Hk) as Hk'.
  destruct (lookup_lt_is_Some_2 rs0 k ltac:(lia)) as [s0 Hs0].
  destruct (Hinv k s0 Hs0) as (s' & Hs' & _ & _ & _ & Hblk).
  assert (s' = s) as -> by congruence.
  (* the row block of [i] and the phase that fills it *)
  pose proof (Z.div_mod i (Block_order c) ltac:(lia)) as Hdm.
  pose proof (Z.mod_pos_bound i (Block_order c) ltac:(lia)) as Hx.
  set (b := i / Block_order c) in *. set (x := i mod Block_order c) in *.
  assert (0 <= b < Num_procs c) as Hb.
  { subst b. split; [apply Z.div_pos; lia|]. apply Z.div_lt_upper_bound; nia. }
  set (d := (b - Z.of_nat k) mod Num_procs c).
  pose proof (Z.mod_pos_bound (b - Z.of_nat k) (Num_procs c) ltac:(lia)) as Hd. fold d in Hd.
  assert (recv_from_of c (Z.of_nat k) d = b) as Hrf.
  { rewrite (recv_from_eq c HPr) by lia. subst d.
    rewrite Zplus_mod_idemp_r. replace (Z.of_nat k + (b - Z.of_nat k)) with b by lia.
    apply Z.mod_small. lia. }
  specialize (Hblk d ltac:(lia)). cbv zeta in Hblk. rewrite Hrf in Hblk.
  replace (i + order c * j) with (x + Block_order c * b + order c * j) by lia.
  rewrite Hblk by lia.
  destruct (lookup_lt_is_Some_2 rs0 (Z.to_nat b) ltac:(lia)) as [sb Hsb].
  rewrite (list_lookup_total_correct _ _ _ Hsb).
  pose proof (HA0 _ sb Hsb (j + Block_order c * Z.of_nat k) x ltac:(nia) ltac:(lia)) as HA.
  rewrite Z2Nat.id in HA by lia. rewrite HA.
  rewrite !(colstart_eq c Hc) by lia. do 2 f_equal. lia.
Qed.

Lemma world_after_initialised n w :
  world_shaped c w ->
  (∀ k s, ranks w !! k = Some s -> A_initialised c (Z.of_nat k) s) ->
  ∀ k s, ranks (world_after c n w) !! k = Some s -> A_initialised c (Z.of_nat k) s.
Proof using Hc Hfit.
  intros Hw HA k s Hk. pose proof (lookup_lt_Some _ _ _ Hk) as Hk'.
  pose proof (world_after_length n w Hw) as Hl. destruct Hw as (Hlen & Hsh & Hwire).
  destruct (lookup_lt_is_Some_2 (ranks w) k ltac:(lia)) as [s0 Hs0].
  destruct (world_after_A n w k s0 ltac:(done) Hs0) as (s' & Hs' & E).
  assert (s' = s) as -> by congruence.
  intros i j Hi Hj. rewrite E. by apply (HA k s0 Hs0).
Qed.

Lemma world_after_transposed n w :
  world_shaped c w ->
  (∀ k s, ranks w !! k = Some s -> A_initialised c (Z.of_nat k) s) ->
  ∀ k s, ranks (world_after c (S n) w) !! k = Some s -> B_transposed c (Z.of_nat k) s.
Proof using Hc Hfit.
  intros Hw HA. apply (phase_inv_transposed (ranks (world_after c n w))).
  - by apply world_after_length.
  - by apply world_after_initialised.
  - by apply world_after_inv.
Qed.

End Run.


(** * The cells of [B] an iteration stores to *)

Section Writes.
Context (c : config) (Hc : layout_ok c).






End Writes.


(** * The properties of the specification *)

Lemma world_shapedb_spec c w : world_shapedb c w = true -> world_shaped c w.
Proof.
  unfold world_shapedb. rewrite !andb_true_iff, Z.eqb_eq, forallb_forall.
  intros [[Hlen Hall] Hw]. split_and!; [done| |by destruct (wire w)].
  intros k s Hk.
  assert (rank_shapedb c s = true) as Hs
    by (apply Hall, list_elem_of_In; by eapply list_elem_of_lookup_2).
  unfold rank_shapedb in Hs.
  rewrite !andb_true_iff, orb_true_iff, !Z.eqb_eq, Z.leb_le in Hs.
  destruct Hs as [[HA HB] HW]. split_and!; [done..|]. lia.
Qed.

Lemma sizes_fit_ok c : sizes_fit c = true -> sizes_ok c.
Proof.
  unfold sizes_fit. rewrite andb_true_iff, orb_true_iff, !Z.leb_le.
  intros [Hb Hn]. split; [done|]. lia.
Qed.

Lemma iterations_upto c timers time0 m w :
  layout_ok c -> sizes_ok c -> world_shaped c w -> 0 <= m <= INT_MAX ->
  for_le 0 m (iteration_body c timers)
    {| rs_world := w; rs_events := []; rs_time := time0 |}
  = Ok {| rs_world := world_after c (Z.to_nat (m + 1)) w;
          rs_events := rev (events_upto (m + 1));
          rs_time := time_after timers time0 (Z.to_nat (m + 1)) |}.
Proof.
  intros Hc Hfit Hw Hm. pose proof int_max_eq. pose proof size_max_eq.
  rewrite for_le_unit by lia. rewrite Z.sub_0_r.
  pose proof (iterations_prefix c Hc Hfit timers time0 (Z.to_nat (m + 1)) w Hw) as E.
  rewrite Z2Nat.id in E by lia. done.
Qed.

(** The loops only store to the buffers their bodies store to. *)
Lemma for_loop_preserves {St} (R : St -> St -> Prop) `{!Reflexive R, !Transitive R}
    cond next (body : Z -> St -> result St) :
  (∀ i s s', body i s = Ok s' -> R s s') ->
  ∀ fuel i s s', for_loop fuel i cond next body s = Ok s' -> R s s'.
Proof.
  intros Hbody fuel. induction fuel as [|fuel IH]; intros i s s'; cbn.
  - destruct (cond i); [done|]. by intros [= <-].
  - destruct (cond i); [|by intros [= <-]].
    destruct (body i s) as [s1|] eqn:E; [|done]. cbn. intros H.
    transitivity s1; [by eapply Hbody|by eapply IH].
Qed.

#[local] Instance same_A_refl : Reflexive same_A.
Proof. by intros s. Qed.
#[local] Instance same_A_trans : Transitive same_A.
Proof. intros s1 s2 s3 H1 H2. unfold same_A in *. congruence. Qed.

Lemma set_B_same_A c istart i j v s s' : set_B c istart i j v s = Ok s' -> same_A s s'.
Proof. unfold set_B. destruct (store _ _ _); [|done]. by intros [= <-]. Qed.

Lemma set_Work_out_same_A c i j v s s' : set_Work_out c i j v s = Ok s' -> same_A s s'.
Proof. unfold set_Work_out. destruct (store _ _ _); [|done]. by intros [= <-]. Qed.

Lemma transpose_block_same_A c istart put s s' :
  (∀ i j v s s', put i j v s = Ok s' -> same_A s s') ->
  transpose_block c istart put s = Ok s' -> same_A s s'.
Proof.
  intros Hput. unfold transpose_block, transpose_flat, transpose_tiled, for_lt.
  assert (∀ i j s s', (v ← get_A c istart i j s; put j i v s) = Ok s' -> same_A s s') as Hb.
  { intros i j s1 s2. destruct (get_A c istart i j s1); [|done]. apply Hput. }
  destruct (negb (tiling c)).
  - apply for_loop_preserves; [apply _..|]. intros i.
    apply for_loop_preserves; [apply _..|]. intros j. apply Hb.
  - apply for_loop_preserves; [apply _..|]. intros i.
    apply for_loop_preserves; [apply _..|]. intros j.
    apply for_loop_preserves; [apply _..|]. intros it.
    apply for_loop_preserves; [apply _..|]. intros jt. apply Hb.
Qed.

Lemma local_transpose_same_A c r s s' : local_transpose c r s = Ok s' -> same_A s s'.
Proof. apply transpose_block_same_A. intros. by eapply set_B_same_A. Qed.

Lemma pack_block_same_A c q s s' : pack_block c q s = Ok s' -> same_A s s'.
Proof. apply transpose_block_same_A. intros. by eapply set_Work_out_same_A. Qed.

Lemma scatter_same_A c q s s' : scatter c q s = Ok s' -> same_A s s'.
Proof.
  unfold scatter, for_lt.
  apply for_loop_preserves; [apply _..|]. intros j.
  apply for_loop_preserves; [apply _..|]. intros i s1 s2.
  destruct (get_Work_in c i j s1); [|done]. apply set_B_same_A.
Qed.

Lemma post_send_same_A c ph r s s' m : post_send c ph r s = Ok (s', m) -> same_A s s'.
Proof.
  unfold post_send. destruct (mpi_count c <? 0); [done|].
  destruct (pack_block _ _ _) as [s1|] eqn:E; [|done]. cbn.
  destruct (read_cells _ _ _); [|done]. cbn. intros [= <- _].
  by eapply pack_block_same_A.
Qed.

Lemma complete_recv_same_A c ph r s wire s' wire' :
  complete_recv c ph r s wire = Ok (s', wire') -> same_A s s'.
Proof.
  unfold complete_recv. destruct (take_message _ _ _ _) as [[m w]|]; [|done].
  destruct (_ <=? _); [|done]. destruct (write_cells _ _ _) as [W|]; [|done]. cbn.
  destruct (scatter _ _ _) as [s2|] eqn:E; [|done]. cbn. intros [= <- _].
  apply scatter_same_A in E. done.
Qed.


(** The same source blocks: what the ranks of a world keep through the
    operations that return. *)
#[local] Instance ranks_same_A_refl : Reflexive ranks_same_A.
Proof. intros w. unfold ranks_same_A. induction (ranks w); constructor; [reflexivity|done]. Qed.
#[local] Instance ranks_same_A_trans : Transitive ranks_same_A.
Proof.
  intros w1 w2 w3 H12 H23. unfold ranks_same_A in *.
  eapply Forall2_trans; [|done..]. intros s1 s2 s3. apply same_A_trans.
Qed.

Lemma on_ranks_related {A B} (R : A -> B -> Prop) (f : Z -> A -> result B) l : ∀ i l',
  (∀ i a b, f i a = Ok b -> R a b) ->
  on_ranks f i l = Ok l' -> Forall2 R l l'.
Proof.
  induction l as [|a l IH]; intros i l' Hf; cbn.
  - intros [= <-]. constructor.
  - destruct (f i a) as [b|] eqn:E; [|done]. cbn.
    destruct (on_ranks f (i + 1) l) as [bs|] eqn:E'; [|done]. cbn.
    intros [= <-]. constructor; [by eapply Hf|by eapply IH].
Qed.

Lemma complete_all_same_A c ph l : ∀ i wire l' wire',
  complete_all c ph i l wire = Ok (l', wire') -> Forall2 same_A l l'.
Proof.
  induction l as [|s l IH]; intros i wire l' wire'; cbn.
  - intros [= <- _]. constructor.
  - destruct (complete_recv c ph i s wire) as [[s1 w1]|] eqn:E; [|done]. cbn.
    destruct (complete_all c ph (i + 1) l w1) as [[l1 w2]|] eqn:E'; [|done]. cbn.
    intros [= <- _]. constructor; [by eapply complete_recv_same_A|by eapply IH].
Qed.

Lemma exchange_phase_same_A c ph w w' :
  exchange_phase c ph w = Ok w' -> ranks_same_A w w'.
Proof.
  unfold exchange_phase.
  destruct (on_ranks (post_send c ph) 0 (ranks w)) as [posted|] eqn:E; [|done]. cbn.
  destruct (complete_all c ph 0 posted.*1 _) as [[l' wire']|] eqn:E'; [|done]. cbn.
  intros [= <-]. unfold ranks_same_A. cbn [ranks].
  apply (on_ranks_related (λ s (sm : rank_state * message), same_A s sm.1)) in E;
    [|intros i s [s1 m]; apply post_send_same_A].
  apply complete_all_same_A in E'.
  assert (Forall2 same_A (ranks w) posted.*1) as E1 by by apply Forall2_fmap_r.
  eapply Forall2_trans; [|done..]. intros s1 s2 s3. apply same_A_trans.
Qed.

Lemma transpose_iteration_same_A c w w' :
  transpose_iteration c w = Ok w' -> ranks_same_A w w'.
Proof.
  unfold transpose_iteration.
  destruct (on_ranks (local_transpose c) 0 (ranks w)) as [rs|] eqn:E; [|done]. cbn.
  intros H. apply (on_ranks_related same_A) in E;
    [|intros i s s1; apply local_transpose_same_A].
  unfold exchange_phases, for_lt in H.
  apply (for_loop_preserves ranks_same_A) in H;
    [|apply _..|intros i w1 w2; apply exchange_phase_same_A].
  unfold ranks_same_A in *. cbn [ranks] in H.
  eapply Forall2_trans; [|done..]. intros s1 s2 s3. apply same_A_trans.
Qed.

Lemma iterations_same_A c timers m st0 st :
  for_le 0 m (iteration_body c timers) st0 = Ok st ->
  ranks_same_A (rs_world st0) (rs_world st).
Proof.
  unfold for_le.
  assert (Reflexive (λ a b, ranks_same_A (rs_world a) (rs_world b))) as HR
    by (intros a; reflexivity).
  assert (Transitive (λ a b, ranks_same_A (rs_world a) (rs_world b))) as HT
    by (intros a b d Hab Hbd; by etransitivity).
  apply (for_loop_preserves (λ a b, ranks_same_A (rs_world a) (rs_world b))).
  intros i a b. unfold iteration_body.
  destruct (transpose_iteration c (rs_world a)) as [w|] eqn:E; [|done]. cbn.
  intros [= <-]. cbn. by apply (transpose_iteration_same_A c).
Qed.


(** ** Blocks with more cells than an [int] counts *)








(** C9.  The source block [A] is never modified after the
    initialisation: the local transpose, the transpose of the outgoing
    block, the send, the receive and the scatter leave [A_p] as it is
    whenever they return, and so do the iterations, on every
    configuration and from any memory: the ranks after iteration [m] hold
    the [A_p] the initialisation left.  Where the sizes fit and the
    memory suffices the run gets that far, and [A(i,j)] is still
    [order*(j+colstart) + i]. *)
Theorem C9_source_never_modified c fresh timers time0 m :
  valid_config c = true ->
  0 <= m <= iterations c ->
  (∀ r s s', local_transpose c r s = Ok s' -> A_p s' = A_p s)
  ∧ (∀ q s s', pack_block c q s = Ok s' -> A_p s' = A_p s)
  ∧ (∀ ph r s s' msg, post_send c ph r s = Ok (s', msg) -> A_p s' = A_p s)
  ∧ (∀ ph r s wire s' wire',
       complete_recv c ph r s wire = Ok (s', wire') -> A_p s' = A_p s)
  ∧ (∀ q s s', scatter c q s = Ok s' -> A_p s' = A_p s)
  ∧ (∀ w w', transpose_iteration c w = Ok w' ->
       length (ranks w') = length (ranks w)
       ∧ ∀ r s, ranks w !! r = Some s ->
           ∃ s', ranks w' !! r = Some s' ∧ A_p s' = A_p s)
  ∧ (∀ w0 st,
       start_world c fresh = Ok w0 ->
       for_le 0 m (iteration_body c timers)
         {| rs_world := w0; rs_events := []; rs_time := time0 |} = Ok st ->
       ∀ r s0, ranks w0 !! r = Some s0 ->
         ∃ s, ranks (rs_world st) !! r = Some s ∧ A_p s = A_p s0)
  ∧ (sizes_fit c = true ->
     Z.of_nat (length fresh) = Num_procs c ->
     forallb (enough_memory c) fresh = true ->
     ∃ w0 st,
       start_world c fresh = Ok w0
       ∧ for_le 0 m (iteration_body c timers)
           {| rs_world := w0; rs_events := []; rs_time := time0 |} = Ok st
       ∧ ∀ r s0, ranks w0 !! r = Some s0 ->
           ∃ s, ranks (rs_world st) !! r = Some s
                ∧ A_p s = A_p s0
                ∧ A_initialised c (Z.of_nat r) s).
Proof.
  intros Hv Hm. pose proof (valid_config_layout c Hv) as Hc.
  split; [intros; by eapply local_transpose_same_A|].
  split; [intros; by eapply pack_block_same_A|].
  split; [intros; by eapply post_send_same_A|].
  split; [intros; by eapply complete_recv_same_A|].
  split; [intros; by eapply scatter_same_A|].
  split.
  { intros w w' H. apply transpose_iteration_same_A in H. unfold ranks_same_A in H.
    split; [symmetry; by eapply Forall2_length|].
    intros r s Hr. destruct (Forall2_lookup_l _ _ _ _ _ H Hr) as (s' & Hs' & E).
    by exists s'. }
  split.
  { intros w0 st _ H r s0 Hr. apply iterations_same_A in H.
    unfold ranks_same_A in H. cbn [rs_world] in H.
    destruct (Forall2_lookup_l _ _ _ _ _ H Hr) as (s & Hs & E). by exists s. }
  intros Hsz Hlen Hmem. pose proof (sizes_fit_ok c Hsz) as Hfit.
  destruct (first_world_shaped c Hc fresh Hlen Hmem) as [Hw HA].
  exists (first_world c fresh). eexists. split_and!.
  - by apply start_world_eq.
  - apply iterations_upto; [done..|]. destruct Hc. lia.
  - cbn [rs_world]. intros r s0 Hr.
    destruct (world_after_A c Hc Hfit (Z.to_nat (m + 1)) _ r s0 Hw Hr) as (s & Hs & E).
    exists s. split_and!; [done..|].
    by eapply world_after_initialised.
Qed.

(** ** The ring schedule *)

Lemma chron_traffic_elem c n p q t :
  (p, q, t) ∈ chron_traffic c n
  ↔ ∃ d, 1 <= d <= n ∧ 0 <= p < Num_procs c ∧ q = send_to_of c p d ∧ t = to_int d.
Proof.
  unfold chron_traffic. rewrite list_elem_of_bind.
  setoid_rewrite elem_of_seqZ.
  setoid_rewrite list_elem_of_fmap. setoid_rewrite elem_of_seqZ. split.
  - intros (d & (k & E & Hk) & Hd). injection E as -> -> ->.
    exists d. split_and!; (done || lia).
  - intros (d & Hd & Hp & -> & ->). exists d. split; [|lia]. exists p. split; [done|lia].
Qed.

Lemma NoDup_traffic_pairs c :
  1 <= Num_procs c <= INT_MAX ->
  NoDup ((λ t : Z * Z * Z, (t.1.1, t.1.2)) <$> chron_traffic c (Num_procs c - 1)).
Proof.
  intros HP. unfold chron_traffic.
  apply NoDup_fmap_2_strong.
  - intros [[p q] t] [[p' q'] t'] H1 H2 [= <- <-].
    apply chron_traffic_elem in H1 as (d & Hd & Hp & Hq & ->).
    apply chron_traffic_elem in H2 as (d' & Hd' & _ & Hq' & ->).
    rewrite Hq in Hq'. apply (send_to_inj_phase c HP) in Hq'; [|lia..]. by subst.
  - apply NoDup_bind; [| |apply NoDup_seqZ].
    + intros d1 d2 [[p q] t] Hd1 Hd2 (k & [= -> -> ->] & Hk)%list_elem_of_fmap
        (k' & [= E1 E2 E3] & Hk')%list_elem_of_fmap.
      apply elem_of_seqZ in Hd1, Hd2, Hk. subst k'.
      apply (send_to_inj_phase c HP) in E2; lia.
    + intros d Hd. apply NoDup_fmap_2_strong; [|apply NoDup_seqZ].
      by intros k k' _ _ [= ->].
Qed.

(** C3.  With [recv_from = (my_ID + phase) mod Num_procs] and
    [send_to = (my_ID - phase + Num_procs) mod Num_procs], no rank sends
    to or receives from itself, every ordered pair of distinct ranks is
    (sender, receiver) in exactly one phase of an iteration, and [p]
    sends to [q] with tag [phase] exactly when [q] receives from [p]
    with that tag.  Where the cells of a block fit the [int] count of
    the MPI calls, the messages an iteration posts are these pairs, each
    once. *)
Theorem C3_ring_schedule c :
  2 <= Num_procs c <= INT_MAX ->
  (∀ my_ID phase, 0 <= my_ID < Num_procs c -> 1 <= phase < Num_procs c ->
     send_to_of c my_ID phase ≠ my_ID ∧ recv_from_of c my_ID phase ≠ my_ID)
  ∧ (∀ p q, 0 <= p < Num_procs c -> 0 <= q < Num_procs c -> p ≠ q ->
       ∃ phase, (1 <= phase < Num_procs c ∧ send_to_of c p phase = q)
                ∧ ∀ phase', 1 <= phase' < Num_procs c ->
                    send_to_of c p phase' = q -> phase' = phase)
  ∧ (∀ p q phase, 0 <= p < Num_procs c -> 0 <= q < Num_procs c ->
       1 <= phase < Num_procs c ->
       send_to_of c p phase = q ↔ recv_from_of c q phase = p)
  ∧ NoDup ((λ t : Z * Z * Z, (t.1.1, t.1.2)) <$> chron_traffic c (Num_procs c - 1))
  ∧ (∀ p q, (p, q) ∈ ((λ t : Z * Z * Z, (t.1.1, t.1.2))
                        <$> chron_traffic c (Num_procs c - 1))
            ↔ 0 <= p < Num_procs c ∧ 0 <= q < Num_procs c ∧ p ≠ q)
  ∧ (∀ w, valid_config c = true -> sizes_fit c = true ->
       world_shapedb c w = true ->
       ∃ w', transpose_iteration c w = Ok w'
             ∧ traffic w' = rev (chron_traffic c (Num_procs c - 1)) ++ traffic w).
Proof.
  intros HP. assert (1 <= Num_procs c <= INT_MAX) as HP1 by lia.
  split_and!.
  - intros r ph Hr Hph. split.
    + by apply send_to_not_self.
    + by apply recv_from_not_self.
  - intros p q Hp Hq Hne.
    destruct (phase_of_pair c HP1 p q Hp Hq Hne) as [Hph Hs].
    exists ((p - q) mod Num_procs c). split; [done|].
    intros ph' Hph' Hs'. rewrite <- Hs in Hs'.
    apply (send_to_inj_phase c HP1) in Hs'; lia.
  - intros p q ph Hp Hq Hph. apply send_to_iff_recv_from; lia.
  - by apply NoDup_traffic_pairs.
  - intros p q. rewrite list_elem_of_fmap. split.
    + intros ([[p' q'] t] & [= -> ->] & Ht). cbn.
      apply chron_traffic_elem in Ht as (d & Hd & Hp & -> & _).
      split; [done|]. split; [apply send_to_range; lia|].
      apply not_eq_sym, send_to_not_self; lia.
    + intros (Hp & Hq & Hne).
      destruct (phase_of_pair c HP1 p q Hp Hq Hne) as [Hph Hs].
      exists (p, q, to_int ((p - q) mod Num_procs c)). split; [done|].
      apply chron_traffic_elem. exists ((p - q) mod Num_procs c). split_and!; (done || lia).
  - intros w Hv Hsz Hw. pose proof (valid_config_layout c Hv) as Hc.
    apply world_shapedb_spec in Hw.
    destruct (transpose_iteration_eq c Hc (sizes_fit_ok c Hsz) w Hw) as [E _]. eauto.
Qed.

(** ** One rank *)




(** ** A matrix with more bytes than a [size_t] counts *)

(** What a fold that returns has gone through: a condition that every
    step needs, and that the steps do not change, held at the start. *)
Lemma fold_result_needs {A St} (body : A -> St -> result St) (I : St -> St -> Prop)
    (Q : A -> St -> Prop) l :
  (∀ x s s', x ∈ l -> body x s = Ok s' -> Q x s ∧ I s s') ->
  (∀ x s s', I s s' -> Q x s' -> Q x s) ->
  (∀ s1 s2 s3, I s1 s2 -> I s2 s3 -> I s1 s3) ->
  ∀ s s', fold_result body l s = Ok s' -> ∀ x, x ∈ l -> Q x s.
Proof.
  intros Hb HQ HI. induction l as [|y l IH]; intros s s' H x Hx; [by inv Hx|].
  cbn in H. destruct (body y s) as [s1|] eqn:E; [|done]. cbn in H.
  destruct (Hb y s s1 ltac:(left) E) as [Hq Hi].
  apply elem_of_cons in Hx as [->|Hx]; [done|].
  apply (HQ x s s1 Hi). apply (IH (λ x s s' Hx, Hb x s s' ltac:(by right)) s1 s' H x Hx).
Qed.

Lemma fold_result_fault_kind {A St} (body : A -> St -> result St) (e : fault) l :
  (∀ x s f, body x s = Fault f -> f = e) ->
  ∀ s f, fold_result body l s = Fault f -> f = e.
Proof.
  intros Hb. induction l as [|y l IH]; intros s f; cbn; [done|].
  destruct (body y s) as [s1|f1] eqn:E; cbn; [apply IH|].
  intros [= <-]. by eapply Hb.
Qed.

Lemma init_cell_needs c r s s' i j :
  layout_ok c -> 0 <= i < order c -> 0 <= j < Block_order c ->
  init_cell c r i j s = Ok s' ->
  (i + order c * j < Z.of_nat (length (A_p s))
   ∧ i + order c * j < Z.of_nat (length (B_p s)))
  ∧ length (A_p s') = length (A_p s) ∧ length (B_p s') = length (B_p s).
Proof.
  intros Hc Hi Hj. pose proof Hc as []. unfold init_cell, set_A, set_B, store.
  rewrite !(Colblock_index_eq c Hc) by nia. cbn [mbind result_bind A_p B_p].
  replace (i + 0 + order c * j) with (i + order c * j) by lia.
  destruct (Z.ltb_spec (i + order c * j) (Z.of_nat (length (A_p s)))); [|done].
  cbn [mbind result_bind A_p B_p].
  destruct (Z.ltb_spec (i + order c * j) (Z.of_nat (length (B_p s)))); [|done].
  cbn. intros [= <-]. cbn. by rewrite !length_insert.
Qed.

Lemma init_cell_fault c r s i j f : init_cell c r i j s = Fault f -> f = OutOfBounds.
Proof.
  unfold init_cell, set_A, set_B, store.
  destruct (_ <? _); cbn; [|by intros [= <-]].
  destruct (_ <? _); cbn; [done|by intros [= <-]].
Qed.

Lemma initialize_pairs c r s :
  layout_ok c ->
  initialize c r s = fold_result (λ p, init_cell c r p.2 p.1) (init_pairs c) s.
Proof.
  intros Hc. pose proof Hc as [? ? ? ? ? ? ? ? Htil].
  pose proof int_max_eq. pose proof size_max_eq.
  unfold initialize, init_pairs. destruct (tiling c) eqn:E.
  - pose proof (Htil eq_refl).
    by rewrite (tiled_nest_pairs (λ jt it, init_cell c r it jt)) by lia.
  - by rewrite (flat_nest_pairs (λ j i, init_cell c r i j)) by lia.
Qed.

(** The initialisation needs the whole column block: on shorter buffers
    a store lands outside. *)
Lemma initialize_short c r s :
  layout_ok c ->
  Z.of_nat (length (A_p s)) < Colblock_size c
  ∨ Z.of_nat (length (B_p s)) < Colblock_size c ->
  initialize c r s = Fault OutOfBounds.
Proof.
  intros Hc Hshort. pose proof Hc as []. rewrite (initialize_pairs c r s Hc).
  destruct (fold_result _ (init_pairs c) s) as [s'|f] eqn:E.
  - exfalso.
    pose proof (fold_result_needs (λ p, init_cell c r p.2 p.1)
      (λ s s', length (A_p s') = length (A_p s) ∧ length (B_p s') = length (B_p s))
      (λ p s, p.2 + order c * p.1 < Z.of_nat (length (A_p s))
              ∧ p.2 + order c * p.1 < Z.of_nat (length (B_p s)))
      (init_pairs c)) as Hn.
    specialize (Hn ltac:(intros p s1 s2 Hp; apply (init_pairs_spec c Hc) in Hp;
                         apply init_cell_needs; (done || lia))).
    specialize (Hn ltac:(intros p s1 s2 [-> ->]; done)).
    specialize (Hn ltac:(intros s1 s2 s3 [? ?] [? ?]; split; congruence)).
    specialize (Hn s s' E (Block_order c - 1, order c - 1)).
    cbn in Hn. destruct Hn as [? ?]; [|nia].
    apply (init_pairs_spec c Hc). cbn. lia.
  - f_equal. eapply fold_result_fault_kind; [|exact E].
    intros p s1 f1. apply init_cell_fault.
Qed.

Lemma allocate_cells c f s :
  layout_ok c -> allocate c f = Ok s ->
  Z.of_nat (length (A_p s)) = size_mul (Colblock_size c) sizeof_double / sizeof_double
  ∧ Z.of_nat (length (B_p s)) = size_mul (Colblock_size c) sizeof_double / sizeof_double.
Proof.
  intros Hc. unfold allocate, malloc.
  set (n := size_mul (Colblock_size c) sizeof_double / sizeof_double).
  assert (0 <= n).
  { subst n. apply Z.div_pos; [|done]. unfold size_mul, to_size_t.
    apply Z.mod_pos_bound. done. }
  destruct (Z.leb_spec n (Z.of_nat (length f.1.1))); [|done].
  destruct (Z.leb_spec n (Z.of_nat (length f.1.2))); [|done].
  cbn [mbind result_bind].
  destruct (if 1 <? Num_procs c then _ else _) as [W|]; [|done].
  cbn. intros [= <-]. cbn. rewrite !length_take. lia.
Qed.

Lemma allocate_fault c f e : allocate c f = Fault e -> e = AllocationFailed.
Proof.
  unfold allocate, malloc.
  repeat match goal with |- context [if ?b then _ else _] => destruct b end;
    cbn; first [by intros [= <-] | done].
Qed.

(** When the byte count of the column block wraps, the run does not get
    past the initialisation of its first rank. *)
Lemma start_world_wrapped c f fresh :
  layout_ok c ->
  size_mul (Colblock_size c) sizeof_double / sizeof_double < Colblock_size c ->
  (∀ s, allocate c f = Ok s -> initialize c 0 s = Fault OutOfBounds)
  ∧ ∃ e, start_world c (f :: fresh) = Fault e
         ∧ (e = AllocationFailed ∨ e = OutOfBounds).
Proof.
  intros Hc Hwrap.
  assert (∀ s, allocate c f = Ok s -> initialize c 0 s = Fault OutOfBounds) as Hin.
  { intros s Hs. apply allocate_cells in Hs as [HA _]; [|done].
    apply initialize_short; [done|]. left. lia. }
  split; [done|]. unfold start_world. cbn [on_ranks].
  destruct (allocate c f) as [s|e] eqn:E.
  - cbn [mbind result_bind]. rewrite (Hin s eq_refl). cbn. eauto.
  - exists e. split; [done|]. left. by eapply allocate_fault.
Qed.


(** ** The stores of an iteration *)

Section Any_matrix.
Context (c : config) (Hc : layout_ok c).

(** After the local transpose and all the phases, the row block [b] of
    [B] on rank [k] is the transposed block [k] of [A] on rank [b]. *)
Lemma iteration_blocks rs0 rs (k b : nat) s sb x j :
  Z.of_nat (length rs0) = Num_procs c ->
  (∀ k s, rs0 !! k = Some s -> rank_shaped c s) ->
  phase_inv c (Num_procs c - 1) rs0 rs ->
  rs !! k = Some s -> rs0 !! b = Some sb ->
  0 <= x < Block_order c -> 0 <= j < Block_order c ->
  B_p s !! Z.to_nat (x + Block_order c * Z.of_nat b + order c * j)
  = Some (A_p sb !!! Z.to_nat (j + Block_order c * Z.of_nat k + order c * x)).
Proof using Hc.
  intros Hlen Hsh [Hl Hinv] Hk Hb Hx Hj.
  pose proof (layout_procs c Hc) as HPr. pose proof Hc as [].
  pose proof (lookup_lt_Some _ _ _ Hk) as Hk'.
  pose proof (lookup_lt_Some _ _ _ Hb) as Hb'.
  destruct (lookup_lt_is_Some_2 rs0 k ltac:(lia)) as [s0 Hs0].
  destruct (Hinv k s0 Hs0) as (s' & Hs' & _ & _ & _ & Hblk).
  assert (s' = s) as -> by congruence.
  set (d := (Z.of_nat b - Z.of_nat k) mod Num_procs c).
  pose proof (Z.mod_pos_bound (Z.of_nat b - Z.of_nat k) (Num_procs c) ltac:(lia)) as Hd.
  fold d in Hd.
  assert (recv_from_of c (Z.of_nat k) d = Z.of_nat b) as Hrf.
  { rewrite (recv_from_eq c HPr) by lia. subst d.
    rewrite Zplus_mod_idemp_r.
    replace (Z.of_nat k + (Z.of_nat b - Z.of_nat k)) with (Z.of_nat b) by lia.
    apply Z.mod_small. lia. }
  specialize (Hblk d ltac:(lia)). cbv zeta in Hblk. rewrite Hrf in Hblk.
  rewrite Hblk by lia. rewrite Nat2Z.id.
  rewrite (list_lookup_total_correct _ _ _ Hb).
  symmetry. apply lookup_total_in_range.
  destruct (Hsh b sb Hb) as (HA & _). nia.
Qed.

(** A cell of the column block, by row block, row in the block and
    column. *)
Lemma cell_of_index (n : nat) :
  Z.of_nat n < Colblock_size c ->
  ∃ (b : nat) x j,
    Z.of_nat b < Num_procs c ∧ 0 <= x < Block_order c ∧ 0 <= j < Block_order c
    ∧ n = Z.to_nat (x + Block_order c * Z.of_nat b + order c * j).
Proof using Hc.
  intros Hn. pose proof Hc as [].
  pose proof (Z.div_mod (Z.of_nat n) (order c) ltac:(lia)) as Hdm.
  pose proof (Z.mod_pos_bound (Z.of_nat n) (order c) ltac:(lia)) as Hi.
  set (i := Z.of_nat n mod order c) in *. set (j := Z.of_nat n / order c) in *.
  pose proof (Z.div_mod i (Block_order c) ltac:(lia)) as Hdm'.
  pose proof (Z.mod_pos_bound i (Block_order c) ltac:(lia)) as Hx.
  assert (0 <= j < Block_order c).
  { subst j. split; [apply Z.div_pos; lia|]. apply Z.div_lt_upper_bound; lia. }
  assert (0 <= i / Block_order c < Num_procs c).
  { split; [apply Z.div_pos; lia|]. apply Z.div_lt_upper_bound; nia. }
  exists (Z.to_nat (i / Block_order c)), (i mod Block_order c), j.
  rewrite Z2Nat.id by lia. split_and!; try lia.
Qed.

End Any_matrix.

Lemma world_shaped_test c w : world_shaped c w -> world_shapedb c w = true.
Proof.
  intros (Hlen & Hr & Hw). unfold world_shapedb.
  rewrite !andb_true_iff, Z.eqb_eq, forallb_forall. split_and!; [done| |by rewrite Hw].
  intros s Hs. apply list_elem_of_In, list_elem_of_lookup in Hs as [k Hk].
  destruct (Hr k s Hk) as (HA & HB & HW). unfold rank_shapedb.
  rewrite !andb_true_iff, orb_true_iff, !Z.eqb_eq, Z.leb_le. split_and!; [done..|].
  destruct (Z.le_gt_cases (Num_procs c) 1); [by left|right; apply HW; lia].
Qed.



(** ** The tiling decision *)

(** Without [COLLAPSE] the flag is what the layout promises, for every
    input the argument tests let through. *)
Lemma tiling_without_collapse fp_invalid order P T nthread :
  1 <= P <= order -> order <= INT_MAX ->
  tiling_of fp_invalid false order P T nthread = true
  ↔ 0 < T < order ∧ nthread <= (order / P + T - 1) / T.
Proof.
  intros HP Ho. rewrite tiling_of_eq by done. cbv zeta.
  unfold tiling_requested.
  rewrite !andb_true_iff, negb_true_iff, !Z.ltb_lt, Z.ltb_ge. lia.
Qed.

(** With [COLLAPSE] it is, as long as the square of the estimate is an
    [int]. *)
Lemma tiling_with_collapse fp_invalid order P T nthread :
  1 <= P <= order -> order <= INT_MAX ->
  (0 < T -> ((order / P + T - 1) / T) ^ 2 <= INT_MAX) ->
  tiling_of fp_invalid true order P T nthread = true
  ↔ 0 < T < order ∧ nthread <= ((order / P + T - 1) / T) ^ 2.
Proof.
  intros HP Ho Hsq. rewrite tiling_of_eq by done. cbv zeta.
  unfold tiling_requested.
  rewrite !andb_true_iff, negb_true_iff, !Z.ltb_lt, Z.ltb_ge.
  assert (0 < T -> int_mul ((order / P + T - 1) / T) ((order / P + T - 1) / T)
                   = ((order / P + T - 1) / T) ^ 2) as Hm.
  { intros HT. specialize (Hsq HT). unfold int_mul.
    rewrite Z.pow_2_r. apply to_int_small. unfold INT_MIN. nia. }
  split.
  - intros [[H1 H2] H3]. rewrite Hm in H3 by lia. lia.
  - intros [H1 H2]. rewrite Hm by lia. lia.
Qed.

(** C4, at the input where the code leaves it.  With [COLLAPSE], order
    65536 on one rank, tile order 1 and one thread: tiling is requested
    ([0 < 1 < 65536]) and the squared estimate [65536^2] is at least the
    thread count, yet [concurrency *= concurrency] overflows [int] and
    the flag is cleared. *)
Theorem C4_collapse_overflow fp_invalid :
  tiling_requested 65536 1 = true
  ∧ 1 <= ((Block_order_of 65536 1 + 1 - 1) / 1) ^ 2
  ∧ concurrency_of fp_invalid true (Block_order_of 65536 1) 1 = 0
  ∧ tiling_of fp_invalid true 65536 1 1 1 = false.
Proof. by vm_compute. Qed.


(** A quotient by zero is an infinity or a NaN, and so is its [ceil]. *)
Lemma fdiv_zero_not_number x : is_number (ceil (fdiv x (of_Z 0))) = false.
Proof. by destruct x as [[]|[]| |[] m e]. Qed.

(** C8, at the input where the code leaves it.  With [Tile_order = 0]
    the estimate [ceil((double)Block_order/(double)Tile_order)] is still
    computed; the quotient is an infinity or a NaN, and no [int] is its
    conversion: the statement [concurrency = ceil(...)] has no defined
    result, whatever the order, the ranks and the threads are.  For order
    4 on one rank the quotient is [+infinity]. *)
Theorem C8_tile_order_zero_undefined :
  (∀ COLLAPSE order P nthread_input,
     tiling_checked COLLAPSE order P 0 nthread_input = Fault UndefinedBehaviour)
  ∧ (∀ COLLAPSE Block_order,
       concurrency_checked COLLAPSE Block_order 0 = Fault UndefinedBehaviour)
  ∧ (∀ x, is_number (ceil (fdiv x (of_Z 0))) = false)
  ∧ ceil (fdiv (of_Z (Block_order_of 4 1)) (of_Z 0)) = S754_infinity false
  ∧ to_int_checked (S754_infinity false) = Fault UndefinedBehaviour
  ∧ tiling_requested 4 0 = false.
Proof.
  assert (∀ COLLAPSE Block_order,
            concurrency_checked COLLAPSE Block_order 0 = Fault UndefinedBehaviour) as H.
  { intros COLLAPSE Bo. unfold concurrency_checked.
    pose proof (fdiv_zero_not_number (of_Z Bo)) as Hn.
    by destruct (ceil (fdiv (of_Z Bo) (of_Z 0))) as [?|?| |? ? ?]. }
  split_and!; [|done|apply fdiv_zero_not_number|done..].
  intros COLLAPSE order P nthread. unfold tiling_checked. cbv zeta. by rewrite H.
Qed.

(** ** The validator *)

Lemma fold_result_fixed {A St} (body : A -> St -> result St) l a :
  (∀ x, x ∈ l -> body x a = Ok a) -> fold_result body l a = Ok a.
Proof.
  induction l as [|x l IH]; intros H; [done|].
  cbn. rewrite H by left. cbn. apply IH. intros. apply H. by right.
Qed.

Lemma reduce_fadd_zero (l : list double) :
  (∀ x, x ∈ l -> x = pzero) -> reduce fadd l = pzero.
Proof.
  destruct l as [|x l]; [done|]. intros H. cbn [reduce].
  rewrite (H x) by left.
  assert (∀ y, y ∈ l -> y = pzero) as Hl by (intros; apply H; by right).
  clear H. induction l as [|y l IH]; [done|].
  cbn. rewrite (Hl y) by left. apply IH. intros. apply Hl. by right.
Qed.

Lemma abserr_of_transposed c r s :
  layout_ok c -> 0 <= r < Num_procs c -> B_transposed c r s ->
  abserr_of c r s = Ok pzero.
Proof.
  intros Hc Hr HB. pose proof Hc as []. pose proof int_max_eq. pose proof size_max_eq.
  unfold abserr_of.
  rewrite (flat_nest_pairs (λ j i, abserr_cell c r s i j)) by lia.
  apply fold_result_fixed. intros p Hp. apply elem_of_flat_pairs in Hp.
  unfold abserr_cell, load.
  rewrite (Colblock_index_eq c Hc) by lia. rewrite Z.add_0_r.
  rewrite (HB p.2 p.1) by lia. cbn [mbind result_bind].
  rewrite (colstart_eq c Hc) by done.
  rewrite size_mul_small, (size_add_small (order c * p.2)), size_add_small by nia.
  replace (order c * p.2 + p.1 + Block_order c * r)
    with (order c * p.2 + (p.1 + Block_order c * r)) by lia.
  unfold ABS. rewrite fsub_self; [done|].
  apply of_Z_is_number. nia.
Qed.

Lemma abserr_tot_of_transposed c w :
  layout_ok c -> world_shaped c w ->
  (∀ r s, ranks w !! r = Some s -> B_transposed c (Z.of_nat r) s) ->
  abserr_tot_of c w = Ok pzero.
Proof.
  intros Hc (Hlen & _ & _) HB. unfold abserr_tot_of.
  rewrite (on_ranks_pure _ (λ _ _, pzero)).
  - cbn. f_equal. apply reduce_fadd_zero. intros x.
    rewrite elem_of_lookup_imap. by intros (k & s & -> & _).
  - intros k s Hk. pose proof (lookup_lt_Some _ _ _ Hk).
    rewrite Z.add_0_l. apply abserr_of_transposed; [done|lia|by eapply HB].
Qed.

Lemma fold_result_foldl {A St} (body : A -> St -> result St) (f : St -> A -> St) l a :
  (∀ x a, x ∈ l -> body x a = Ok (f a x)) ->
  fold_result body l a = Ok (foldl f a l).
Proof.
  revert a. induction l as [|x l IH]; intros a H; [done|].
  cbn. rewrite H by left. cbn. apply IH. intros. apply H. by right.
Qed.

(** The validator of one rank reads every cell of [B] and adds up the
    absolute differences, in the order of the loop nest. *)
Lemma abserr_of_eq c r s :
  layout_ok c -> 0 <= r < Num_procs c ->
  Z.of_nat (length (B_p s)) = Colblock_size c ->
  abserr_of c r s = Ok (abs_error_sum c r (B_p s)).
Proof.
  intros Hc Hr HB. pose proof Hc as []. pose proof int_max_eq. pose proof size_max_eq.
  unfold abserr_of, abs_error_sum.
  rewrite (flat_nest_pairs (λ j i, abserr_cell c r s i j)) by lia.
  apply fold_result_foldl. intros p a Hp. apply elem_of_flat_pairs in Hp.
  unfold abserr_cell, load.
  rewrite (Colblock_index_eq c Hc) by lia. rewrite Z.add_0_r.
  assert (Z.to_nat (p.2 + order c * p.1) < length (B_p s))%nat as Hin by nia.
  destruct (lookup_lt_is_Some_2 _ _ Hin) as [v Hv]. rewrite Hv.
  rewrite (list_lookup_total_correct _ _ _ Hv). cbn [mbind result_bind].
  rewrite (colstart_eq c Hc) by done.
  rewrite size_mul_small, (size_add_small (order c * p.2)), size_add_small by nia.
  done.
Qed.

Lemma abserr_tot_of_eq c w :
  layout_ok c -> world_shaped c w ->
  abserr_tot_of c w
  = Ok (reduce fadd (imap (λ r s, abs_error_sum c (Z.of_nat r) (B_p s)) (ranks w))).
Proof.
  intros Hc (Hlen & Hsh & _). unfold abserr_tot_of.
  rewrite (on_ranks_pure _ (λ r s, abs_error_sum c r (B_p s))).
  - cbn. do 2 f_equal.
  - intros k s Hk. rewrite Z.add_0_l. pose proof (lookup_lt_Some _ _ _ Hk).
    destruct (Hsh k s Hk) as (_ & HB & _). apply abserr_of_eq; [done|lia|done].
Qed.


(** ** Iterations, timer and report *)

(** The events of iterations [0..k], for [k >= 1]: the warm-up, then the
    barrier and the start of the timer, then the timed iterations. *)
Lemma events_upto_timed (n : nat) :
  events_upto (2 + Z.of_nat n)
  = [EvTranspose 0; EvBarrier; EvTimerStart]
    ++ (EvTranspose <$> seqZ 1 (1 + Z.of_nat n)).
Proof.
  induction n as [|n IH]; [done|].
  replace (2 + Z.of_nat (S n)) with ((2 + Z.of_nat n) + 1) by lia.
  rewrite events_upto_succ, IH by lia.
  replace (1 + Z.of_nat (S n)) with (Z.of_nat (S (S n))) by lia.
  rewrite seqZ_S, fmap_app, app_assoc.
  replace (1 + Z.of_nat n) with (Z.of_nat (S n)) by lia.
  unfold iteration_events.
  replace (2 + Z.of_nat n =? 1) with false by (symmetry; apply Z.eqb_neq; lia).
  cbn [app fmap list_fmap]. do 6 f_equal. lia.
Qed.

Lemma events_upto_iterations k :
  1 <= k ->
  events_upto (k + 1)
  = [EvTranspose 0; EvBarrier; EvTimerStart] ++ (EvTranspose <$> seqZ 1 k).
Proof.
  intros Hk. pose proof (events_upto_timed (Z.to_nat (k - 1))) as E.
  rewrite Z2Nat.id in E by lia.
  replace (2 + (k - 1)) with (k + 1) in E by lia.
  by replace (1 + (k - 1)) with k in E by lia.
Qed.

Lemma elapsed_times (timers : list timer) (n : nat) :
  zip_with (λ (wtime : timer) t, fsub (wtime n) t) timers
    ((λ wtime : timer, wtime 2%nat) <$> timers)
  = (λ wtime : timer, fsub (wtime n) (wtime 2%nat)) <$> timers.
Proof. induction timers as [|t l IH]; [done|]. cbn. by rewrite IH. Qed.


(** The report of a run, in closed form. *)
Lemma run_eq c fresh timers time0 :
  valid_config c = true ->
  sizes_fit c = true ->
  Z.of_nat (length fresh) = Num_procs c ->
  forallb (enough_memory c) fresh = true ->
  let elapsed :=
    (λ wtime : timer, fsub (wtime (Z.to_nat (iterations c + 3))) (wtime 2%nat))
      <$> timers in
  run c fresh timers time0
  = Ok {| rep_validates := true; rep_abserr_tot := pzero;
          rep_trans_time := trans_time_of elapsed;
          rep_avgtime := avgtime_of c (trans_time_of elapsed);
          rep_rate := rate_of c (avgtime_of c (trans_time_of elapsed));
          rep_events := events_upto (iterations c + 1) ++ [EvTimerStop];
          rep_world := world_after c (Z.to_nat (iterations c + 1)) (first_world c fresh) |}.
Proof.
  intros Hv Hsz Hlen Hmem elapsed. pose proof (valid_config_layout c Hv) as Hc.
  pose proof (sizes_fit_ok c Hsz) as Hfit.
  destruct (first_world_shaped c Hc fresh Hlen Hmem) as [Hw HA].
  pose proof Hc as []. unfold run.
  rewrite (start_world_eq c Hc Hfit) by done. cbn [mbind result_bind].
  unfold all_iterations. rewrite iterations_upto by (done || lia).
  cbn [mbind result_bind rs_world rs_events rs_time].
  rewrite abserr_tot_of_transposed; [|done|by apply (world_after_shaped c Hc Hfit)|].
  2:{ replace (Z.to_nat (iterations c + 1)) with (S (Z.to_nat (iterations c))) by lia.
      by apply (world_after_transposed c Hc Hfit). }
  cbn [mbind result_bind].
  assert (time_after timers time0 (Z.to_nat (iterations c + 1))
          = (λ wtime : timer, wtime 2%nat) <$> timers) as ->.
  { replace (Z.to_nat (iterations c + 1))
      with (S (S (Z.to_nat (iterations c - 1)))) by lia. done. }
  assert (length (rev (events_upto (iterations c + 1)))
          = Z.to_nat (iterations c + 3)) as ->.
  { rewrite length_rev, events_upto_iterations by lia.
    rewrite length_app, length_fmap, length_seqZ. cbn. lia. }
  rewrite elapsed_times. cbn [rev]. by rewrite rev_involutive.
Qed.










(** ** The tiled and the flat transpose *)

(** Stores to distinct cells commute: the buffer after the stores of a
    list does not depend on the order of the list. *)
Lemma stores_to_perm d v (l l' : list (Z * Z)) buf :
  l ≡ₚ l' -> NoDup ((λ p, Z.to_nat (d p)) <$> l) ->
  (∀ p, p ∈ l -> (Z.to_nat (d p) < length buf)%nat) ->
  stores_to d v l buf = stores_to d v l' buf.
Proof.
  intros Hp Hnd Hlen. apply list_eq. intros k.
  destruct (decide (k ∈ (λ p, Z.to_nat (d p)) <$> l)) as [Hk|Hk].
  - apply list_elem_of_fmap in Hk as (p & -> & Hin).
    rewrite !stores_to_hit; [done| | |by apply Hlen|done|done|by apply Hlen].
    + by rewrite <- Hp.
    + by rewrite <- Hp.
  - rewrite !stores_to_miss; [done|..].
    + intros p Hin E. apply Hk. apply list_elem_of_fmap. exists p.
      split; [done|]. by rewrite Hp.
    + intros p Hin E. apply Hk. apply list_elem_of_fmap. by exists p.
Qed.

Section Block_transpose.
Context (c : config) (Hc : layout_ok c).
Context (istart : Z) (Hlo : 0 <= istart) (Hhi : istart + Block_order c <= order c).

(** The loop body of the transpose into [B] over any list of cells of
    the block. *)
Lemma transpose_cells_B (l : list (Z * Z)) s :
  (∀ p, p ∈ l -> (0 <= p.1 < Block_order c) ∧ (0 <= p.2 < Block_order c)) ->
  Z.of_nat (length (A_p s)) = Colblock_size c ->
  Z.of_nat (length (B_p s)) = Colblock_size c ->
  fold_result (λ p s, v ← get_A c istart p.1 p.2 s; set_B c istart p.2 p.1 v s) l s
  = Ok {| A_p := A_p s;
          B_p := stores_to (strided istart (order c))
                   (λ p, A_p s !!! Z.to_nat (strided istart (order c) (swap_pair p)))
                   l (B_p s);
          Work_p := Work_p s;
          B_stores := rev (strided istart (order c) <$> l) ++ B_stores s |}.
Proof using Hc Hlo Hhi.
  intros Hl HA HB. pose proof Hc as [].
  rewrite <- (fold_B_from_A (λ p, strided istart (order c) (swap_pair p))).
  - apply fold_result_ext. intros p s' Hp. apply Hl in Hp.
    unfold get_A, set_B. rewrite !(Colblock_index_eq c Hc) by nia. done.
  - intros p Hp. apply Hl in Hp. unfold strided, swap_pair. cbn. nia.
  - intros p Hp. apply Hl in Hp. unfold strided. nia.
Qed.

(** The same into [Work_out]. *)
Lemma transpose_cells_W (l : list (Z * Z)) s :
  (∀ p, p ∈ l -> (0 <= p.1 < Block_order c) ∧ (0 <= p.2 < Block_order c)) ->
  Z.of_nat (length (A_p s)) = Colblock_size c ->
  Z.of_nat (length (Work_p s)) = 2 * Block_size c ->
  fold_result (λ p s, v ← get_A c istart p.1 p.2 s; set_Work_out c p.2 p.1 v s) l s
  = Ok {| A_p := A_p s; B_p := B_p s;
          Work_p := stores_to (strided (Block_size c) (Block_order c))
                      (λ p, A_p s !!! Z.to_nat (strided istart (order c) (swap_pair p)))
                      l (Work_p s);
          B_stores := B_stores s |}.
Proof using Hc Hlo Hhi.
  intros Hl HA HW. pose proof Hc as [].
  rewrite <- (fold_W_from_A (λ p, strided istart (order c) (swap_pair p))).
  - apply fold_result_ext. intros p s' Hp. apply Hl in Hp.
    unfold get_A, set_Work_out, Work_out_p, Work_in_p.
    rewrite (Colblock_index_eq c Hc), (Work_index_eq c Hc) by nia.
    unfold strided, swap_pair. cbn.
    replace (0 + Block_size c + (p.2 + Block_order c * p.1))
      with (p.2 + Block_size c + Block_order c * p.1) by lia. done.
  - intros p Hp. apply Hl in Hp. unfold strided, swap_pair. cbn. nia.
  - intros p Hp. apply Hl in Hp. unfold strided. nia.
Qed.

Lemma transpose_flat_cells put s :
  transpose_flat c istart put s
  = fold_result (λ p s, v ← get_A c istart p.1 p.2 s; put p.2 p.1 v s)
      (flat_pairs (Block_order c) (Block_order c)) s.
Proof using Hc.
  destruct Hc. pose proof int_max_eq. pose proof size_max_eq.
  unfold transpose_flat. by rewrite (flat_nest_pairs
    (λ i j s, v ← get_A c istart i j s; put j i v s)) by lia.
Qed.

Lemma transpose_tiled_cells put s :
  0 < Tile_order c ->
  transpose_tiled c istart put s
  = fold_result (λ p s, v ← get_A c istart p.1 p.2 s; put p.2 p.1 v s)
      (tiled_pairs (Block_order c) (Block_order c) (Tile_order c)) s.
Proof using Hc.
  intros HT. destruct Hc. pose proof int_max_eq. pose proof size_max_eq.
  unfold transpose_tiled. by rewrite (tiled_nest_pairs
    (λ it jt s, v ← get_A c istart it jt s; put jt it v s)) by lia.
Qed.

End Block_transpose.

(** C2.  For a block of the column block at any [istart], and any tile
    order above 0, the flat loops and the tiled loops both finish, leave
    the same [A_p], [B_p] and [Work_p], store to the same cells, and the
    destination holds [dest[c][r] = source[r][c]] for every element of the
    block; this for the transpose into [B] and, when the workspace is
    allocated, for the transpose into [Work_out]. *)
Theorem C2_tiled_equals_flat c istart s :
  valid_config c = true ->
  0 < Tile_order c ->
  0 <= istart -> istart + Block_order c <= order c ->
  Z.of_nat (length (A_p s)) = Colblock_size c ->
  Z.of_nat (length (B_p s)) = Colblock_size c ->
  (∃ s_flat s_tiled,
      transpose_flat c istart (set_B c istart) s = Ok s_flat
      ∧ transpose_tiled c istart (set_B c istart) s = Ok s_tiled
      ∧ A_p s_tiled = A_p s_flat ∧ B_p s_tiled = B_p s_flat
      ∧ Work_p s_tiled = Work_p s_flat
      ∧ B_stores s_tiled ≡ₚ B_stores s_flat
      ∧ spec_transposed (Block_order c)
          (λ i j, A_p s !! Z.to_nat (Colblock_index c istart i j))
          (λ j i, B_p s_flat !! Z.to_nat (Colblock_index c istart j i)))
  ∧ (Z.of_nat (length (Work_p s)) = 2 * Block_size c ->
     ∃ s_flat s_tiled,
      transpose_flat c istart (set_Work_out c) s = Ok s_flat
      ∧ transpose_tiled c istart (set_Work_out c) s = Ok s_tiled
      ∧ A_p s_tiled = A_p s_flat ∧ B_p s_tiled = B_p s_flat
      ∧ Work_p s_tiled = Work_p s_flat
      ∧ B_stores s_tiled = B_stores s_flat
      ∧ spec_transposed (Block_order c)
          (λ i j, A_p s !! Z.to_nat (Colblock_index c istart i j))
          (λ j i, Work_p s_flat !! Z.to_nat (Work_out_p c + Work_index c j i))).
Proof.
  intros Hv HT Hlo Hhi HA HB. pose proof (valid_config_layout c Hv) as Hc.
  pose proof Hc as [].
  set (n := Block_order c) in *.
  assert (tiled_pairs n n (Tile_order c) ≡ₚ flat_pairs n n) as Hperm
    by (apply tiled_pairs_perm; lia).
  assert (∀ p, p ∈ flat_pairs n n -> (0 <= p.1 < n) ∧ (0 <= p.2 < n)) as Hflat
    by (intros p; apply elem_of_flat_pairs).
  assert (∀ p, p ∈ tiled_pairs n n (Tile_order c) -> (0 <= p.1 < n) ∧ (0 <= p.2 < n))
    as Htiled by (intros p Hp; apply Hflat; rewrite Hperm in Hp; exact Hp).
  split.
  - eexists _, _.
    rewrite (transpose_flat_cells c Hc), (transpose_tiled_cells c Hc) by done.
    rewrite !(transpose_cells_B c Hc istart Hlo Hhi) by done.
    split; [done|]. split; [done|]. cbn [A_p B_p Work_p B_stores].
    assert (NoDup ((λ p, Z.to_nat (strided istart (order c) p)) <$> flat_pairs n n))
      as Hnd by (apply (NoDup_strided _ _ n n); [apply NoDup_flat_pairs|done|lia..]).
    assert (∀ p, p ∈ flat_pairs n n ->
              (Z.to_nat (strided istart (order c) p) < length (B_p s))%nat) as Hin.
    { intros p Hp. apply Hflat in Hp. unfold strided. nia. }
    split_and!.
    + done.
    + symmetry. by apply stores_to_perm.
    + done.
    + apply Permutation_app_tail.
      etrans; [symmetry; apply Permutation_rev|].
      etrans; [|apply Permutation_rev]. by apply fmap_Permutation.
    + intros i j Hi Hj.
      rewrite !(Colblock_index_eq c Hc) by lia.
      split; [apply lookup_lt_is_Some_2; nia|].
      change (j + istart + order c * i) with (strided istart (order c) (i, j)).
      assert ((i, j) ∈ flat_pairs n n) as Hmem
        by (apply elem_of_flat_pairs; cbn; lia).
      rewrite stores_to_hit; [|done|done|by apply Hin].
      unfold strided, swap_pair. cbn.
      symmetry. apply list_lookup_lookup_total_lt. nia.
  - intros HW. eexists _, _.
    rewrite (transpose_flat_cells c Hc), (transpose_tiled_cells c Hc) by done.
    rewrite !(transpose_cells_W c Hc istart Hlo Hhi) by done.
    split; [done|]. split; [done|]. cbn [A_p B_p Work_p B_stores].
    assert (NoDup ((λ p, Z.to_nat (strided (Block_size c) n p)) <$> flat_pairs n n))
      as Hnd by (apply (NoDup_strided _ _ n n); [apply NoDup_flat_pairs|done|lia..]).
    assert (∀ p, p ∈ flat_pairs n n ->
              (Z.to_nat (strided (Block_size c) n p) < length (Work_p s))%nat) as Hin.
    { intros p Hp. apply Hflat in Hp. unfold strided. nia. }
    split_and!.
    + done.
    + done.
    + symmetry. by apply stores_to_perm.
    + done.
    + intros i j Hi Hj.
      rewrite (Colblock_index_eq c Hc), (Work_index_eq c Hc) by lia.
      split; [apply lookup_lt_is_Some_2; nia|].
      unfold Work_out_p, Work_in_p.
      replace (0 + Block_size c + (j + Block_order c * i))
        with (strided (Block_size c) (Block_order c) (i, j))
        by (unfold strided; cbn; lia).
      assert ((i, j) ∈ flat_pairs n n) as Hmem
        by (apply elem_of_flat_pairs; cbn; lia).
      rewrite stores_to_hit; [|done|done|by apply Hin].
      unfold strided, swap_pair. cbn.
      symmetry. apply list_lookup_lookup_total_lt. nia.
Qed.


(** * The specification at sample inputs *)


(** C2 on the second block of a column block of order 4 by 2, with tiles of order 1. *)
Lemma C2_witness :
  (valid_config sample_config = true)
  ∧ (0 < Tile_order sample_config)
  ∧ (0 <= 2)
  ∧ (2 + Block_order sample_config <= order sample_config)
  ∧ (Z.of_nat (length (A_p sample_rank)) = Colblock_size sample_config)
  ∧ (Z.of_nat (length (B_p sample_rank)) = Colblock_size sample_config)
  ∧ ((∃ s_flat s_tiled,
      transpose_flat sample_config 2 (set_B sample_config 2) sample_rank = Ok s_flat
      ∧ transpose_tiled sample_config 2 (set_B sample_config 2) sample_rank = Ok s_tiled
      ∧ A_p s_tiled = A_p s_flat ∧ B_p s_tiled = B_p s_flat
      ∧ Work_p s_tiled = Work_p s_flat
      ∧ B_stores s_tiled ≡ₚ B_stores s_flat
      ∧ spec_transposed (Block_order sample_config)
          (λ i j, A_p sample_rank !! Z.to_nat (Colblock_index sample_config 2 i j))
          (λ j i, B_p s_flat !! Z.to_nat (Colblock_index sample_config 2 j i)))
  ∧ (Z.of_nat (length (Work_p sample_rank)) = 2 * Block_size sample_config ->
     ∃ s_flat s_tiled,
      transpose_flat sample_config 2 (set_Work_out sample_config) sample_rank = Ok s_flat
      ∧ transpose_tiled sample_config 2 (set_Work_out sample_config) sample_rank = Ok s_tiled
      ∧ A_p s_tiled = A_p s_flat ∧ B_p s_tiled = B_p s_flat
      ∧ Work_p s_tiled = Work_p s_flat
      ∧ B_stores s_tiled = B_stores s_flat
      ∧ spec_transposed (Block_order sample_config)
          (λ i j, A_p sample_rank !! Z.to_nat (Colblock_index sample_config 2 i j))
          (λ j i, Work_p s_flat !! Z.to_nat (Work_out_p sample_config + Work_index sample_config j i)))).
Proof.
  assert (valid_config sample_config = true) as H1
    by (reflexivity).
  assert (0 < Tile_order sample_config) as H2
    by (reflexivity).
  assert (0 <= 2) as H3
    by (discriminate).
  assert (2 + Block_order sample_config <= order sample_config) as H4
    by (vm_compute; discriminate).
  assert (Z.of_nat (length (A_p sample_rank)) = Colblock_size sample_config) as H5
    by (reflexivity).
  assert (Z.of_nat (length (B_p sample_rank)) = Colblock_size sample_config) as H6
    by (reflexivity).
  pose proof (C2_tiled_equals_flat sample_config 2 sample_rank H1 H2 H3 H4 H5 H6) as HT.
  exact (conj H1 (conj H2 (conj H3 (conj H4 (conj H5 (conj H6 HT)))))).
Defined.

(** C3 on two ranks. *)
Lemma C3_witness :
  (2 <= Num_procs sample_config <= INT_MAX)
  ∧ ((∀ my_ID phase, 0 <= my_ID < Num_procs sample_config -> 1 <= phase < Num_procs sample_config ->
     send_to_of sample_config my_ID phase ≠ my_ID ∧ recv_from_of sample_config my_ID phase ≠ my_ID)
  ∧ (∀ p q, 0 <= p < Num_procs sample_config -> 0 <= q < Num_procs sample_config -> p ≠ q ->
       ∃ phase, (1 <= phase < Num_procs sample_config ∧ send_to_of sample_config p phase = q)
                ∧ ∀ phase', 1 <= phase' < Num_procs sample_config ->
                    send_to_of sample_config p phase' = q -> phase' = phase)
  ∧ (∀ p q phase, 0 <= p < Num_procs sample_config -> 0 <= q < Num_procs sample_config ->
       1 <= phase < Num_procs sample_config ->
       send_to_of sample_config p phase = q ↔ recv_from_of sample_config q phase = p)
  ∧ NoDup ((λ t : Z * Z * Z, (t.1.1, t.1.2)) <$> chron_traffic sample_config (Num_procs sample_config - 1))
  ∧ (∀ p q, (p, q) ∈ ((λ t : Z * Z * Z, (t.1.1, t.1.2))
                        <$> chron_traffic sample_config (Num_procs sample_config - 1))
            ↔ 0 <= p < Num_procs sample_config ∧ 0 <= q < Num_procs sample_config ∧ p ≠ q)
  ∧ (∀ w, valid_config sample_config = true -> sizes_fit sample_config = true ->
       world_shapedb sample_config w = true ->
       ∃ w', transpose_iteration sample_config w = Ok w'
             ∧ traffic w' = rev (chron_traffic sample_config (Num_procs sample_config - 1)) ++ traffic w)).
Proof.
  assert (2 <= Num_procs sample_config <= INT_MAX) as H1
    by (vm_compute; split; discriminate).
  pose proof (C3_ring_schedule sample_config H1) as HT.
  exact (conj H1 HT).
Defined.




(** C9 on two ranks, order 4, after iteration 2. *)
Lemma C9_witness :
  (valid_config sample_config = true)
  ∧ (0 <= 2 <= iterations sample_config)
  ∧ ((∀ r s s', local_transpose sample_config r s = Ok s' -> A_p s' = A_p s)
  ∧ (∀ q s s', pack_block sample_config q s = Ok s' -> A_p s' = A_p s)
  ∧ (∀ ph r s s' msg, post_send sample_config ph r s = Ok (s', msg) -> A_p s' = A_p s)
  ∧ (∀ ph r s wire s' wire',
       complete_recv sample_config ph r s wire = Ok (s', wire') -> A_p s' = A_p s)
  ∧ (∀ q s s', scatter sample_config q s = Ok s' -> A_p s' = A_p s)
  ∧ (∀ w w', transpose_iteration sample_config w = Ok w' ->
       length (ranks w') = length (ranks w)
       ∧ ∀ r s, ranks w !! r = Some s ->
           ∃ s', ranks w' !! r = Some s' ∧ A_p s' = A_p s)
  ∧ (∀ w0 st,
       start_world sample_config sample_fresh = Ok w0 ->
       for_le 0 2 (iteration_body sample_config sample_timers)
         {| rs_world := w0; rs_events := []; rs_time := [pzero; pzero] |} = Ok st ->
       ∀ r s0, ranks w0 !! r = Some s0 ->
         ∃ s, ranks (rs_world st) !! r = Some s ∧ A_p s = A_p s0)
  ∧ (sizes_fit sample_config = true ->
     Z.of_nat (length sample_fresh) = Num_procs sample_config ->
     forallb (enough_memory sample_config) sample_fresh = true ->
     ∃ w0 st,
       start_world sample_config sample_fresh = Ok w0
       ∧ for_le 0 2 (iteration_body sample_config sample_timers)
           {| rs_world := w0; rs_events := []; rs_time := [pzero; pzero] |} = Ok st
       ∧ ∀ r s0, ranks w0 !! r = Some s0 ->
           ∃ s, ranks (rs_world st) !! r = Some s
                ∧ A_p s = A_p s0
                ∧ A_initialised sample_config (Z.of_nat r) s)).
Proof.
  assert (valid_config sample_config = true) as H1
    by (reflexivity).
  assert (0 <= 2 <= iterations sample_config) as H2
    by (vm_compute; split; discriminate).
  pose proof (C9_source_never_modified
    sample_config
    sample_fresh
    sample_timers
    [pzero; pzero]
    2
    H1 H2) as HT.
  exact (conj H1 (conj H2 HT)).
Defined.



(** * Further properties of the kernel *)

(** ** The input tests *)

Lemma to_size_t_int z : is_int z -> to_size_t z = if z <? 0 then z + 2 ^ 64 else z.
Proof.
  unfold is_int, INT_MIN, INT_MAX, to_size_t. intros Hz.
  destruct (Z.ltb_spec z 0).
  - symmetry. apply (Z.mod_unique _ _ (-1)); lia.
  - apply Z.mod_small. lia.
Qed.

Lemma to_size_t_zero z : is_int z -> (to_size_t z <? 1) = true ↔ z = 0.
Proof.
  intros Hz. rewrite (to_size_t_int z Hz), Z.ltb_lt.
  unfold is_int, INT_MIN in Hz. destruct (Z.ltb_spec z 0); lia.
Qed.

(** What the tests let through. *)
Lemma test_input_accepts MAX_THREADS P argv i :
  1 <= P <= INT_MAX -> Forall is_int argv ->
  test_input MAX_THREADS P argv = inr i
  ↔ ∃ nthread iters ord rest,
      argv = nthread :: iters :: ord :: rest ∧ (length rest <= 1)%nat
      ∧ 1 <= nthread <= MAX_THREADS
      ∧ iters ≠ 0
      ∧ P <= to_size_t ord ∧ to_size_t ord mod P = 0
      ∧ i = {| in_nthread_input := nthread; in_iterations := to_size_t iters;
               in_order := to_size_t ord;
               in_Tile_order := match rest with [] => 32 | t :: _ => to_size_t t end |}.
Proof.
  intros HP Hint. pose proof int_max_eq. pose proof size_max_eq.
  unfold test_input, size_rem. rewrite (to_size_t_small P) by lia.
  destruct argv as [|nthread [|iters [|ord rest]]];
    try (split; [done|by intros (? & ? & ? & ? & ? & _)]).
  apply Forall_cons in Hint as [_ Hint]. apply Forall_cons in Hint as [Hiters _].
  cbn [length lookup_total list_lookup_total].
  destruct rest as [|t [|t' rest]]; cbn [length].
  - change (1 + Z.of_nat 3 =? 4) with true. cbn [negb andb].
    change (1 + Z.of_nat 3 =? 5) with false. cbv iota.
    destruct (Z.ltb_spec nthread 1), (Z.ltb_spec MAX_THREADS nthread); cbn [orb];
      try (split; [done|intros (? & ? & ? & ? & [= <- <- <- <-] & _ & ? & _); lia]).
    destruct (to_size_t iters <? 1) eqn:E1.
    { split; [done|]. intros (? & ? & ? & ? & [= <- <- <- <-] & _ & _ & ? & _).
      by apply (to_size_t_zero iters Hiters) in E1. }
    destruct (Z.ltb_spec (to_size_t ord) P);
      try (split; [done|intros (? & ? & ? & ? & [= <- <- <- <-] & _ & _ & _ & ? & _); lia]).
    destruct (Z.eqb_spec (to_size_t ord mod P) 0); cbn [negb];
      try (split; [done|intros (? & ? & ? & ? & [= <- <- <- <-] & _ & _ & _ & _ & ? & _); lia]).
    split.
    + intros [= <-]. exists nthread, iters, ord, []. split_and!; try done; try (cbn; lia).
      intros ->. by rewrite (proj2 (to_size_t_zero 0 Hiters) eq_refl) in E1.
    + by intros (? & ? & ? & ? & [= <- <- <- <-] & _ & _ & _ & _ & _ & ->).
  - change (1 + Z.of_nat 4 =? 4) with false. change (1 + Z.of_nat 4 =? 5) with true.
    cbn [negb andb]. cbv iota.
    destruct (Z.ltb_spec nthread 1), (Z.ltb_spec MAX_THREADS nthread); cbn [orb];
      try (split; [done|intros (? & ? & ? & ? & [= <- <- <- <-] & _ & ? & _); lia]).
    destruct (to_size_t iters <? 1) eqn:E1.
    { split; [done|]. intros (? & ? & ? & ? & [= <- <- <- <-] & _ & _ & ? & _).
      by apply (to_size_t_zero iters Hiters) in E1. }
    destruct (Z.ltb_spec (to_size_t ord) P);
      try (split; [done|intros (? & ? & ? & ? & [= <- <- <- <-] & _ & _ & _ & ? & _); lia]).
    destruct (Z.eqb_spec (to_size_t ord mod P) 0); cbn [negb];
      try (split; [done|intros (? & ? & ? & ? & [= <- <- <- <-] & _ & _ & _ & _ & ? & _); lia]).
    split.
    + intros [= <-]. exists nthread, iters, ord, [t]. split_and!; try done; try (cbn; lia).
      intros ->. by rewrite (proj2 (to_size_t_zero 0 Hiters) eq_refl) in E1.
    + by intros (? & ? & ? & ? & [= <- <- <- <-] & _ & _ & _ & _ & _ & ->).
  - replace (1 + Z.of_nat (S (S (S (S (S (length rest)))))) =? 4) with false
      by (symmetry; apply Z.eqb_neq; lia).
    replace (1 + Z.of_nat (S (S (S (S (S (length rest)))))) =? 5) with false
      by (symmetry; apply Z.eqb_neq; lia).
    cbn [negb andb]. split; [done|].
    intros (? & ? & ? & ? & [= <- <- <- <-] & Hl & _). cbn in Hl. lia.
Qed.

(** X1.  The root rank accepts its arguments exactly when there are three
    or four of them, the thread count is in [[1, MAX_THREADS]], the
    iteration count is not 0, and the order, as a [size_t], is at least
    the number of ranks and a multiple of it.  The tile order is the
    fourth argument converted to [size_t], or 32. *)
Theorem X1_input_tests MAX_THREADS P argv i :
  1 <= P <= INT_MAX -> Forall is_int argv ->
  test_input MAX_THREADS P argv = inr i
  ↔ ∃ nthread iters ord rest,
      argv = nthread :: iters :: ord :: rest ∧ (length rest <= 1)%nat
      ∧ 1 <= nthread <= MAX_THREADS
      ∧ iters ≠ 0
      ∧ P <= to_size_t ord ∧ to_size_t ord mod P = 0
      ∧ i = {| in_nthread_input := nthread; in_iterations := to_size_t iters;
               in_order := to_size_t ord;
               in_Tile_order := match rest with [] => 32 | t :: _ => to_size_t t end |}.
Proof. apply test_input_accepts. Qed.

Lemma tiling_of_requested fp_invalid COLLAPSE order P T nthread :
  tiling_of fp_invalid COLLAPSE order P T nthread = true ->
  tiling_requested order T = true.
Proof.
  unfold tiling_of. cbv zeta. destruct (tiling_requested order T); [done|].
  by cbn.
Qed.

(** Accepted arguments that are not negative make a valid configuration. *)
Lemma accepted_valid MAX_THREADS fp_invalid COLLAPSE P argv i :
  1 <= P <= INT_MAX -> Forall is_int argv ->
  test_input MAX_THREADS P argv = inr i ->
  0 <= argv !!! 1%nat -> 0 <= argv !!! 2%nat ->
  valid_config (config_of fp_invalid COLLAPSE P i) = true.
Proof.
  intros HP Hint Hi H1 H2. pose proof int_max_eq. pose proof size_max_eq.
  apply test_input_accepts in Hi
    as (nthread & iters & ord & rest & -> & Hl & Hn & Hit & Ho & Hd & ->); [|done..].
  cbn in H1, H2.
  apply Forall_cons in Hint as [_ Hint]. apply Forall_cons in Hint as [Hiters Hint].
  apply Forall_cons in Hint as [Hord Hrest].
  unfold is_int, INT_MIN in *.
  rewrite (to_size_t_small ord) in Ho, Hd by lia.
  unfold valid_config, config_of.
  cbn [Num_procs order Tile_order tiling iterations
       in_nthread_input in_iterations in_order in_Tile_order].
  rewrite (to_size_t_small iters), (to_size_t_small ord) by lia.
  assert (0 <= match rest with [] => 32 | t :: _ => to_size_t t end <= SIZE_MAX) as HT.
  { destruct rest as [|t ?]; [lia|]. unfold to_size_t.
    pose proof (Z.mod_pos_bound t (2 ^ 64) ltac:(lia)). lia. }
  rewrite !andb_true_iff, orb_true_iff, negb_true_iff, !andb_true_iff.
  rewrite !Z.leb_le, !Z.ltb_lt, Z.eqb_eq.
  split_and!; try lia.
  destruct (tiling_of _ _ _ _ _ _) eqn:E; [right|by left].
  apply tiling_of_requested in E. unfold tiling_requested in E.
  by rewrite andb_true_iff, !Z.ltb_lt in E.
Qed.

(** X2.  When the root rank accepts its arguments and the iteration count
    and the order are not negative, the parameters the ranks hold after
    the broadcast and the tiling decision form a valid configuration. *)
Theorem X2_accepted_input_valid MAX_THREADS fp_invalid COLLAPSE P argv i :
  1 <= P <= INT_MAX -> Forall is_int argv ->
  test_input MAX_THREADS P argv = inr i ->
  0 <= argv !!! 1%nat -> 0 <= argv !!! 2%nat ->
  valid_config (config_of fp_invalid COLLAPSE P i) = true
  ∧ in_order i = argv !!! 2%nat ∧ in_iterations i = argv !!! 1%nat.
Proof.
  intros HP Hint Hi H1 H2. split; [by eapply accepted_valid|].
  pose proof int_max_eq. pose proof size_max_eq.
  apply test_input_accepts in Hi
    as (nthread & iters & ord & rest & -> & Hl & Hn & Hit & Ho & Hd & ->); [|done..].
  apply Forall_cons in Hint as [_ Hint]. apply Forall_cons in Hint as [Hiters Hint].
  apply Forall_cons in Hint as [Hord Hrest].
  unfold is_int in *. cbn in *.
  rewrite (to_size_t_small iters), (to_size_t_small ord) by lia. done.
Qed.

(** X3.  A tile order that is not positive as an [int], or not below the
    order, means no tiling, whatever the thread count and the estimate
    of the concurrency. *)
Theorem X3_no_tiling_without_tile fp_invalid COLLAPSE order P t nthread_input :
  is_int t -> 0 <= order <= INT_MAX ->
  t <= 0 ∨ order <= t ->
  tiling_of fp_invalid COLLAPSE order P (to_size_t t) nthread_input = false.
Proof.
  intros Ht Ho Hcase. pose proof int_max_eq.
  unfold tiling_of. cbv zeta.
  assert (tiling_requested order (to_size_t t) = false) as ->; [|done].
  unfold tiling_requested. rewrite (to_size_t_int t Ht).
  unfold is_int, INT_MIN in Ht. apply andb_false_iff.
  destruct (Z.ltb_spec t 0).
  - right. apply Z.ltb_ge. lia.
  - destruct (Z.eq_dec t 0) as [->|]; [by left|].
    right. apply Z.ltb_ge. lia.
Qed.

(** X4.  The estimate of the concurrency, computed in double precision,
    is the exact integer ceiling of [Block_order / Tile_order], and its
    wrapped square under [COLLAPSE], for every block order and tile order
    that are positive [int]s. *)
Theorem X4_concurrency_estimate_exact fp_invalid COLLAPSE Bo T :
  0 < Bo <= INT_MAX -> 0 < T <= INT_MAX ->
  concurrency_of fp_invalid COLLAPSE Bo T
  = (if COLLAPSE then to_int (((Bo + T - 1) / T) * ((Bo + T - 1) / T))
     else (Bo + T - 1) / T)
  ∧ (Bo + T - 1) / T * T - T < Bo <= (Bo + T - 1) / T * T.
Proof.
  intros HB HT. split; [by rewrite concurrency_of_exact|].
  pose proof (ceil_div_spec Bo T ltac:(lia) ltac:(lia)). lia.
Qed.

(** ** Allocation and initialisation *)

Lemma allocate_fails c f :
  layout_ok c -> sizes_ok c ->
  enough_memory c f = false -> allocate c f = Fault AllocationFailed.
Proof.
  intros Hc [Hbytes Hcount] H. pose proof Hc as [].
  pose proof int_max_eq. pose proof size_max_eq.
  pose proof (block_size_bounds c Hc) as [Hb1 Hb2].
  unfold sizeof_double in *.
  assert (0 <= Colblock_size c) as Hcb by nia.
  unfold enough_memory in H. unfold allocate, malloc, sizeof_double.
  rewrite (size_mul_small (Colblock_size c)) by lia. rewrite Z.div_mul by done.
  destruct (Colblock_size c <=? Z.of_nat (length f.1.1)); [|done].
  destruct (Colblock_size c <=? Z.of_nat (length f.1.2)); [|done].
  cbn in *. apply orb_false_iff in H as [HP HW]. apply Z.leb_gt in HP.
  destruct (Z.ltb_spec 1 (Num_procs c)); [|lia].
  specialize (Hcount ltac:(lia)).
  rewrite (size_mul_small 2), size_mul_small by lia. rewrite Z.div_mul by done.
  by rewrite HW.
Qed.

Lemma start_fails c l : layout_ok c -> sizes_ok c -> ∀ i,
  0 <= i -> i + Z.of_nat (length l) <= Num_procs c ->
  forallb (enough_memory c) l = false ->
  on_ranks (λ my_ID f, s ← allocate c f; initialize c my_ID s) i l
  = Fault AllocationFailed.
Proof.
  intros Hc Hfit. induction l as [|f l IH]; intros i Hi Hlen Hmem; [done|].
  cbn [forallb length on_ranks] in *.
  destruct (enough_memory c f) eqn:Hf; cbn in Hmem.
  - rewrite (allocate_eq c Hc Hfit f Hf). cbn [mbind result_bind].
    destruct (allocated_shaped c Hc f Hf) as (HA & HB & _).
    rewrite (initialize_eq c Hc) by (done || lia). cbn [mbind result_bind].
    rewrite IH by (done || lia). done.
  - by rewrite (allocate_fails c f Hc Hfit Hf).
Qed.

(** X5.  On a valid configuration whose sizes fit the integer types of
    the allocation and of the MPI calls, a run has one way to fail: a
    rank whose allocation fails.  With enough memory on every rank the
    run returns its report, so no load or store leaves its buffer, no
    loop runs out of fuel and no receive is left without its message;
    without, the run stops at the allocations. *)
Theorem X5_only_fault_is_allocation c fresh timers time0 :
  valid_config c = true ->
  sizes_fit c = true ->
  Z.of_nat (length fresh) = Num_procs c ->
  (forallb (enough_memory c) fresh = true ->
     ∃ rep, run c fresh timers time0 = Ok rep)
  ∧ (forallb (enough_memory c) fresh = false ->
     start_world c fresh = Fault AllocationFailed
     ∧ run c fresh timers time0 = Fault AllocationFailed)
  ∧ ∀ f, run c fresh timers time0 = Fault f -> f = AllocationFailed.
Proof.
  intros Hv Hsz Hlen. pose proof (valid_config_layout c Hv) as Hc.
  pose proof (sizes_fit_ok c Hsz) as Hfit.
  assert (forallb (enough_memory c) fresh = false ->
          start_world c fresh = Fault AllocationFailed
          ∧ run c fresh timers time0 = Fault AllocationFailed) as Hfail.
  { intros Hmem. unfold run, start_world.
    rewrite (start_fails c fresh Hc Hfit 0) by (done || lia). done. }
  split_and!.
  - intros Hmem. eexists. by apply run_eq.
  - done.
  - intros f Hf. destruct (forallb (enough_memory c) fresh) eqn:Hmem.
    + by rewrite run_eq in Hf.
    + destruct (Hfail eq_refl) as [_ E]. congruence.
Qed.

Lemma initialised_B_all c r s :
  layout_ok c -> rank_shaped c s ->
  B_p (initialised c r s) = replicate (Z.to_nat (Colblock_size c)) minus_one.
Proof.
  intros Hc Hs. pose proof Hc as []. pose proof Hs as (HA & HB & _).
  apply list_eq. intros k.
  destruct (decide (k < Z.to_nat (Colblock_size c))%nat) as [Hk|Hk].
  - rewrite lookup_replicate_2 by done.
    pose proof (Z.div_mod (Z.of_nat k) (order c) ltac:(lia)) as Hdm.
    pose proof (Z.mod_pos_bound (Z.of_nat k) (order c) ltac:(lia)) as Hi.
    assert (0 <= Z.of_nat k / order c < Block_order c) as Hj.
    { split; [apply Z.div_pos; lia|]. apply Z.div_lt_upper_bound; lia. }
    rewrite <- (initialised_B c Hc r s (Z.of_nat k mod order c) (Z.of_nat k / order c))
      by done.
    f_equal. lia.
  - rewrite !lookup_ge_None_2; [done|rewrite length_replicate; lia|].
    cbn. rewrite length_stores_to. lia.
Qed.

(** X6.  After the allocations and the initialisation, where the sizes
    fit the integer types, every cell of [B], on every rank, holds the
    sentinel [-1.0], whatever the allocated memory held; the workspace
    is left as allocated. *)
Theorem X6_sentinel_after_initialisation c fresh :
  valid_config c = true ->
  sizes_fit c = true ->
  Z.of_nat (length fresh) = Num_procs c ->
  forallb (enough_memory c) fresh = true ->
  ∃ w0, start_world c fresh = Ok w0
    ∧ Z.of_nat (length (ranks w0)) = Num_procs c
    ∧ ∀ r s f, ranks w0 !! r = Some s -> fresh !! r = Some f ->
        B_p s = replicate (Z.to_nat (Colblock_size c)) minus_one
        ∧ Work_p s = (if 1 <? Num_procs c
                      then take (Z.to_nat (2 * Block_size c)) f.2 else [])
        ∧ double_is_int minus_one (-1).
Proof.
  intros Hv Hsz Hlen Hmem. pose proof (valid_config_layout c Hv) as Hc.
  pose proof (sizes_fit_ok c Hsz) as Hfit.
  exists (first_world c fresh). split; [by apply (start_world_eq c Hc Hfit)|].
  split; [cbn; by rewrite length_imap|].
  intros r s f Hs Hf. cbn in Hs. rewrite list_lookup_imap, Hf in Hs.
  injection Hs as <-. split_and!.
  - apply initialised_B_all; [done|]. apply allocated_shaped; [done|].
    rewrite forallb_forall in Hmem. apply Hmem, list_elem_of_In.
    by eapply list_elem_of_lookup_2.
  - done.
  - done.
Qed.

Lemma with_tiling_valid c :
  valid_config c = true -> valid_config (with_tiling false c) = true.
Proof.
  unfold valid_config. cbn [with_tiling Num_procs order Tile_order tiling iterations].
  rewrite !andb_true_iff. intros [H _]. by split.
Qed.

(** X7.  The tiled initialisation and the flat one leave the same
    matrices: they differ in the order of the stores only. *)
Theorem X7_tiled_initialisation c r s :
  valid_config c = true -> tiling c = true ->
  0 <= r < Num_procs c ->
  Z.of_nat (length (A_p s)) = Colblock_size c ->
  Z.of_nat (length (B_p s)) = Colblock_size c ->
  ∃ s_tiled s_flat,
    initialize c r s = Ok s_tiled
    ∧ initialize (with_tiling false c) r s = Ok s_flat
    ∧ A_p s_tiled = A_p s_flat ∧ B_p s_tiled = B_p s_flat
    ∧ Work_p s_tiled = Work_p s_flat
    ∧ B_stores s_tiled ≡ₚ B_stores s_flat.
Proof.
  intros Hv Htl Hr HA HB. pose proof (valid_config_layout c Hv) as Hc.
  pose proof (valid_config_layout _ (with_tiling_valid c Hv)) as Hc'.
  pose proof (lo_tiling c Hc Htl) as Htile. pose proof Hc as [].
  eexists _, _. rewrite (initialize_eq c Hc), (initialize_eq _ Hc') by done.
  split; [done|]. split; [done|]. cbn [A_p B_p Work_p B_stores].
  unfold init_pairs. cbn [tiling with_tiling order Tile_order]. rewrite Htl.
  change (Block_order (with_tiling false c)) with (Block_order c).
  set (n := Block_order c) in *.
  assert (tiled_pairs n (order c) (Tile_order c) ≡ₚ flat_pairs n (order c)) as Hperm
    by (apply tiled_pairs_perm; lia).
  assert (NoDup ((λ p, Z.to_nat (strided 0 (order c) p)) <$> flat_pairs n (order c)))
    as Hnd.
  { apply (NoDup_strided _ _ n (order c)); [apply NoDup_flat_pairs| |lia..].
    intros p. apply elem_of_flat_pairs. }
  assert (∀ buf : list double, Z.of_nat (length buf) = Colblock_size c ->
            ∀ p, p ∈ flat_pairs n (order c) ->
              (Z.to_nat (strided 0 (order c) p) < length buf)%nat) as Hin.
  { intros buf Hb p Hp. apply elem_of_flat_pairs in Hp. unfold strided. nia. }
  split_and!.
  - symmetry. apply stores_to_perm; [by symmetry|done|by apply Hin].
  - symmetry. apply stores_to_perm; [by symmetry|done|by apply Hin].
  - done.
  - apply Permutation_app_tail.
    etrans; [symmetry; apply Permutation_rev|].
    etrans; [|apply Permutation_rev]. by apply fmap_Permutation.
Qed.

(** ** One iteration on any matrix *)



(** X8.  One iteration transposes whatever the source blocks hold, not
    only the matrix of the initialisation: row [x] of the row block [b]
    of [B] on rank [k] becomes column [x] of the block [k] of [A] on rank
    [b], where the sizes fit the integer types.  The sizes of the
    buffers are kept and no message is left on the wire. *)
Theorem X8_iteration_transposes_any_matrix c w :
  valid_config c = true ->
  sizes_fit c = true ->
  world_shapedb c w = true ->
  ∃ w', transpose_iteration c w = Ok w'
    ∧ world_shapedb c w' = true
    ∧ ∀ (k b : nat) s' sb x j,
        ranks w' !! k = Some s' -> ranks w !! b = Some sb ->
        0 <= x < Block_order c -> 0 <= j < Block_order c ->
        B_p s' !! Z.to_nat (x + Block_order c * Z.of_nat b + order c * j)
        = Some (A_p sb !!! Z.to_nat (j + Block_order c * Z.of_nat k + order c * x)).
Proof.
  intros Hv Hsz Hw. pose proof (valid_config_layout c Hv) as Hc.
  pose proof (sizes_fit_ok c Hsz) as Hfit.
  apply world_shapedb_spec in Hw. pose proof Hw as (Hlen & Hsh & _).
  destruct (transpose_iteration_eq c Hc Hfit w Hw) as [E Hinv].
  eexists. split; [exact E|]. split.
  - apply world_shaped_test. by apply (after_iteration_shaped c Hc Hfit).
  - intros k b s' sb x j Hk Hb Hx Hj. cbn [ranks] in Hk.
    by apply (iteration_blocks c Hc (ranks w) (after_iteration c (ranks w))).
Qed.

(** X9.  A second iteration changes neither [A] nor [B], where the sizes
    fit the integer types: what an iteration stores to [B] depends on
    the source blocks only. *)
Theorem X9_iteration_idempotent c w :
  valid_config c = true ->
  sizes_fit c = true ->
  world_shapedb c w = true ->
  ∃ w1 w2,
    transpose_iteration c w = Ok w1
    ∧ transpose_iteration c w1 = Ok w2
    ∧ length (ranks w2) = length (ranks w1)
    ∧ ∀ k s1 s2, ranks w1 !! k = Some s1 -> ranks w2 !! k = Some s2 ->
        A_p s2 = A_p s1 ∧ B_p s2 = B_p s1.
Proof.
  intros Hv Hsz Hw. pose proof (valid_config_layout c Hv) as Hc.
  pose proof (sizes_fit_ok c Hsz) as Hfit.
  apply world_shapedb_spec in Hw. pose proof Hw as (Hlen & Hsh & _).
  destruct (transpose_iteration_eq c Hc Hfit w Hw) as [E1 Hinv1].
  pose proof (after_iteration_shaped c Hc Hfit w Hw) as Hw1.
  destruct (transpose_iteration_eq c Hc Hfit _ Hw1) as [E2 Hinv2].
  pose proof Hw1 as (Hlen1 & Hsh1 & _). cbn [ranks] in *.
  eexists _, _. split; [exact E1|]. split; [exact E2|]. cbn [ranks].
  split; [by destruct Hinv2|].
  intros k s1 s2 Hk1 Hk2.
  destruct Hinv2 as [Hl2 Hi2]. destruct (Hi2 k s1 Hk1) as (s & Hs & HA & Hs2 & _).
  assert (s = s2) as -> by congruence. split; [done|].
  destruct (Hsh1 k s1 Hk1) as (_ & HB1 & _). destruct Hs2 as (_ & HB2 & _).
  apply list_eq. intros n.
  destruct (decide (Z.of_nat n < Colblock_size c)) as [Hn|Hn].
  - destruct (cell_of_index c Hc n Hn) as (b & x & j & Hb & Hx & Hj & ->).
    destruct (lookup_lt_is_Some_2 (ranks w) b ltac:(lia)) as [sb Hsb].
    destruct Hinv1 as [Hl1 Hi1]. destruct (Hi1 b sb Hsb) as (sb1 & Hsb1 & HAb & _).
    rewrite (iteration_blocks c Hc (after_iteration c (ranks w))
               (after_iteration c (after_iteration c (ranks w))) k b s2 sb1 x j)
      by (done || by split).
    rewrite (iteration_blocks c Hc (ranks w) (after_iteration c (ranks w)) k b s1 sb x j)
      by (done || by split).
    by rewrite HAb.
  - rewrite !lookup_ge_None_2 by lia. done.
Qed.

(** ** The messages of a phase *)

Lemma rank_shapedb_spec c s : rank_shapedb c s = true -> rank_shaped c s.
Proof.
  unfold rank_shapedb.
  rewrite !andb_true_iff, orb_true_iff, !Z.eqb_eq, Z.leb_le.
  intros [[HA HB] HW]. split_and!; [done..|]. lia.
Qed.

(** X10.  Where the cells of a block fit the [int] count of the MPI
    calls, the message a rank posts in a phase goes to [send_to], never
    to the rank itself, is tagged with the phase, and holds [Block_size]
    doubles: the block of [A] that belongs to [send_to], transposed.
    Posting it changes neither [A] nor [B]. *)
Theorem X10_message_is_transposed_block c ph r s :
  valid_config c = true ->
  sizes_fit c = true ->
  1 <= ph < Num_procs c -> 0 <= r < Num_procs c ->
  rank_shapedb c s = true ->
  ∃ s' m,
    post_send c ph r s = Ok (s', m)
    ∧ msg_src m = r ∧ msg_dst m = send_to_of c r ph ∧ msg_dst m ≠ r
    ∧ msg_tag m = ph
    ∧ Z.of_nat (length (msg_data m)) = Block_size c
    ∧ (∀ x y, 0 <= x < Block_order c -> 0 <= y < Block_order c ->
         msg_data m !! Z.to_nat (y + Block_order c * x)
         = Some (A_p s !!! Z.to_nat (x + Block_order c * send_to_of c r ph
                                      + order c * y)))
    ∧ A_p s' = A_p s ∧ B_p s' = B_p s ∧ B_stores s' = B_stores s.
Proof.
  intros Hv Hsz Hph Hr Hs. pose proof (valid_config_layout c Hv) as Hc.
  pose proof (sizes_fit_ok c Hsz) as Hfit.
  apply rank_shapedb_spec in Hs. pose proof (layout_procs c Hc) as HP.
  pose proof int_max_eq.
  eexists _, _. split; [apply (post_send_eq c Hc); (done || lia)|].
  split_and!; try done.
  - cbn. apply (send_to_not_self c HP); lia.
  - cbn. apply to_int_small. unfold INT_MIN. lia.
  - apply (length_message_data c Hc); [lia|done].
  - intros x y Hx Hy. apply (message_data_lookup c Hc); (done || lia).
Qed.

Lemma after_phase_shaped c ph rs :
  layout_ok c -> 1 < Num_procs c -> 0 <= ph < Num_procs c ->
  Z.of_nat (length rs) = Num_procs c ->
  (∀ k s, rs !! k = Some s -> rank_shaped c s) ->
  ∀ k s, after_phase c ph rs !! k = Some s -> rank_shaped c s.
Proof.
  intros Hc HP Hph Hlen Hrs k s. unfold after_phase. rewrite list_lookup_imap.
  destruct (rs !! k) as [s0|] eqn:Hk; [|done]. cbn. intros [= <-].
  pose proof (lookup_lt_Some _ _ _ Hk).
  pose proof (recv_from_range c (layout_procs c Hc) (Z.of_nat k) ph ltac:(lia) Hph) as Hp.
  apply (scattered_shaped c Hc); [|by apply packed_shaped, (Hrs k)|done].
  apply (length_message_data c Hc); [done|].
  destruct (lookup_lt_is_Some_2 rs (Z.to_nat (recv_from_of c (Z.of_nat k) ph))
              ltac:(lia)) as [sp Hsp].
  rewrite (list_lookup_total_correct _ _ _ Hsp). by eapply Hrs.
Qed.

(** X11.  Where the sizes fit the integer types, every phase runs to its
    end from any world between two phases: each rank posts one message,
    every receive finds its message, and no message is left on the wire.
    What a rank then holds in [Work_in] is the message its [recv_from]
    peer posted for it. *)
Theorem X11_phase_delivers_every_message c ph w :
  valid_config c = true ->
  sizes_fit c = true ->
  world_shapedb c w = true ->
  1 <= ph < Num_procs c ->
  ∃ w', exchange_phase c ph w = Ok w'
    ∧ wire w' = []
    ∧ world_shapedb c w' = true
    ∧ Z.of_nat (length (traffic w')) = Z.of_nat (length (traffic w)) + Num_procs c
    ∧ ∀ (k : nat) s' sp sp' m,
        ranks w' !! k = Some s' ->
        ranks w !! Z.to_nat (recv_from_of c (Z.of_nat k) ph) = Some sp ->
        post_send c ph (recv_from_of c (Z.of_nat k) ph) sp = Ok (sp', m) ->
        msg_dst m = Z.of_nat k
        ∧ take (Z.to_nat (Block_size c)) (Work_p s') = msg_data m.
Proof.
  intros Hv Hsz Hw Hph. pose proof (valid_config_layout c Hv) as Hc.
  pose proof (sizes_fit_ok c Hsz) as Hfit.
  apply world_shapedb_spec in Hw. pose proof Hw as (Hlen & Hsh & Hwire).
  pose proof (layout_procs c Hc) as HP.
  eexists. split; [apply (exchange_phase_eq c Hc Hfit); (done || lia)|].
  cbn [ranks wire traffic]. split_and!.
  - done.
  - apply world_shaped_test. split_and!; cbn [ranks wire].
    + unfold after_phase. by rewrite length_imap.
    + apply after_phase_shaped; (done || lia).
    + done.
  - rewrite length_app, length_rev, length_fmap, length_seqZ. lia.
  - intros k s' sp sp' m Hk Hsp Hpost.
    pose proof (lookup_lt_Some _ _ _ Hk) as Hk'.
    unfold after_phase in Hk, Hk'. rewrite length_imap in Hk'.
    pose proof (recv_from_range c HP (Z.of_nat k) ph ltac:(lia) ltac:(lia)) as Hp.
    rewrite (post_send_eq c Hc) in Hpost; [|lia|done|lia|by eapply Hsh|done].
    injection Hpost as <- <-. split.
    + cbn. apply (send_to_recv_from c HP); lia.
    + rewrite list_lookup_imap in Hk.
      destruct (ranks w !! k) as [s0|] eqn:Hs0; [|done]. cbn in Hk.
      injection Hk as <-. cbn [Work_p scattered].
      rewrite (list_lookup_total_correct _ _ _ Hsp).
      pose proof (length_message_data c Hc ph (recv_from_of c (Z.of_nat k) ph) sp
                    ltac:(lia) (Hsh _ sp Hsp)) as Hl.
      pose proof (block_size_bounds c Hc) as [Hb _].
      apply take_app_length'. apply Nat2Z.inj. rewrite Z2Nat.id by lia. exact (eq_sym Hl).
Qed.

(** ** The two halves of the workspace *)

Lemma take_stores_to d v (l : list (Z * Z)) (buf : list double) (n : nat) :
  (∀ p, p ∈ l -> (n <= Z.to_nat (d p))%nat) ->
  take n (stores_to d v l buf) = take n buf.
Proof.
  unfold stores_to. revert buf. induction l as [|p l IH]; intros buf H; [done|].
  cbn. rewrite IH by (intros; apply H; by right).
  apply take_insert_ge. apply H. by left.
Qed.

(** X12.  The transpose of the outgoing block stores to the [Work_out]
    half of the workspace only: the [Work_in] half, [A], [B] and the
    size of the workspace are as before. *)
Theorem X12_outgoing_block_keeps_receive_buffer c q s :
  valid_config c = true ->
  1 < Num_procs c -> 0 <= q < Num_procs c ->
  rank_shapedb c s = true ->
  ∃ s', pack_block c q s = Ok s'
    ∧ take (Z.to_nat (Block_size c)) (Work_p s')
      = take (Z.to_nat (Block_size c)) (Work_p s)
    ∧ length (Work_p s') = length (Work_p s)
    ∧ A_p s' = A_p s ∧ B_p s' = B_p s ∧ B_stores s' = B_stores s
    ∧ ∀ x y, 0 <= x < Block_order c -> 0 <= y < Block_order c ->
        Work_p s' !! Z.to_nat (Work_out_p c + Work_index c y x)
        = Some (A_p s !!! Z.to_nat (Colblock_index c (Block_order c * q) x y)).
Proof.
  intros Hv HP Hq Hs. pose proof (valid_config_layout c Hv) as Hc.
  apply rank_shapedb_spec in Hs. pose proof Hs as (HA & HB & HW).
  specialize (HW HP). pose proof Hc as [].
  pose proof (block_size_bounds c Hc) as [Hb _].
  eexists. split; [by apply (pack_block_eq c Hc)|].
  cbn [A_p B_p Work_p B_stores]. split_and!; try done.
  - apply take_stores_to. intros p Hp. apply (block_pairs_spec c Hc) in Hp.
    unfold strided. nia.
  - apply length_stores_to.
  - intros x y Hx Hy.
    rewrite (Colblock_index_eq c Hc), (Work_index_eq c Hc) by nia.
    unfold Work_out_p, Work_in_p.
    replace (0 + Block_size c + (y + Block_order c * x))
      with (strided (Block_size c) (Block_order c) (x, y))
      by (unfold strided; cbn; lia).
    rewrite stores_to_hit.
    + unfold strided, swap_pair. cbn. done.
    + apply (block_pairs_spec c Hc). cbn. lia.
    + apply (NoDup_strided _ _ (Block_order c) (Block_order c));
        [by apply NoDup_block_pairs| |lia..].
      intros p. by apply block_pairs_spec.
    + unfold strided. cbn. nia.
Qed.

(** X13.  Where the cells of a block fit the [int] count of the MPI
    calls, the receive of a phase fills the [Work_in] half of the
    workspace with the message and leaves the [Work_out] half; the
    scatter then copies the message, unchanged, to the rows of [B] that
    belong to [recv_from], and leaves [A]. *)
Theorem X13_receive_keeps_send_buffer c ph r s data :
  valid_config c = true ->
  sizes_fit c = true ->
  1 <= ph < Num_procs c -> 0 <= r < Num_procs c ->
  rank_shapedb c s = true ->
  Z.of_nat (length data) = Block_size c ->
  ∃ s',
    complete_recv c ph r s
      [{| msg_src := recv_from_of c r ph; msg_dst := r; msg_tag := ph;
          msg_data := data |}] = Ok (s', [])
    ∧ take (Z.to_nat (Block_size c)) (Work_p s') = data
    ∧ drop (Z.to_nat (Block_size c)) (Work_p s')
      = drop (Z.to_nat (Block_size c)) (Work_p s)
    ∧ A_p s' = A_p s
    ∧ ∀ x j, 0 <= x < Block_order c -> 0 <= j < Block_order c ->
        B_p s' !! Z.to_nat (Colblock_index c (Block_order c * recv_from_of c r ph) x j)
        = data !! Z.to_nat (Work_index c x j).
Proof.
  intros Hv Hsz Hph Hr Hs Hd. pose proof (valid_config_layout c Hv) as Hc.
  pose proof (sizes_fit_ok c Hsz) as Hfit.
  apply rank_shapedb_spec in Hs. pose proof (layout_procs c Hc) as HP.
  pose proof int_max_eq. pose proof Hc as [].
  pose proof (block_size_bounds c Hc) as [Hb _].
  pose proof (recv_from_range c HP r ph ltac:(lia) ltac:(lia)) as Hp.
  assert (to_int ph = ph) as Htag by (apply to_int_small; unfold INT_MIN; lia).
  assert (length data = Z.to_nat (Block_size c)) as Hd' by lia.
  eexists. split.
  - apply (complete_recv_eq c Hc ph r s _
             {| msg_src := recv_from_of c r ph; msg_dst := r; msg_tag := ph;
                msg_data := data |} []); try (done || lia).
    cbn. by rewrite Htag, !Z.eqb_refl.
  - cbn [Work_p scattered A_p msg_data]. split_and!.
    + by apply take_app_length'.
    + rewrite drop_app_length' by done. by rewrite Hd'.
    + done.
    + intros x j Hx Hj.
      rewrite (Colblock_index_eq c Hc), (Work_index_eq c Hc) by nia.
      by apply (scattered_B_hit c Hc).
Qed.

(** ** The whole run *)

(** X14.  On a valid configuration whose sizes fit the integer types,
    with enough memory, the run goes through: the matrix is initialised,
    transposed in every iteration, and the validator, which adds up the
    absolute differences of all the cells of [B] on all the ranks, finds
    an aggregate error of exactly [+0.0], so the solution validates. *)
Theorem X14_run_validates c fresh timers time0 :
  valid_config c = true ->
  sizes_fit c = true ->
  Z.of_nat (length fresh) = Num_procs c ->
  forallb (enough_memory c) fresh = true ->
  ∃ rep,
    run c fresh timers time0 = Ok rep
    ∧ rep_validates rep = true
    ∧ rep_abserr_tot rep = pzero
    ∧ reduce fadd (imap (λ r s, abs_error_sum c (Z.of_nat r) (B_p s))
                     (ranks (rep_world rep)))
      = rep_abserr_tot rep
    ∧ world_shapedb c (rep_world rep) = true
    ∧ (∀ r s, ranks (rep_world rep) !! r = Some s ->
         A_initialised c (Z.of_nat r) s ∧ B_transposed c (Z.of_nat r) s)
    ∧ Z.of_nat (length (traffic (rep_world rep)))
      = (iterations c + 1) * (Num_procs c * (Num_procs c - 1)).
Proof.
  intros Hv Hsz Hlen Hmem. pose proof (valid_config_layout c Hv) as Hc.
  pose proof (sizes_fit_ok c Hsz) as Hfit.
  destruct (first_world_shaped c Hc fresh Hlen Hmem) as [Hw HA].
  pose proof Hc as [].
  pose proof (world_after_shaped c Hc Hfit (Z.to_nat (iterations c + 1)) _ Hw) as Hwn.
  assert (∀ r s, ranks (world_after c (Z.to_nat (iterations c + 1)) (first_world c fresh))
                   !! r = Some s -> B_transposed c (Z.of_nat r) s) as HBn.
  { intros r s Hs.
    replace (Z.to_nat (iterations c + 1)) with (S (Z.to_nat (iterations c))) in Hs
      by lia.
    exact (world_after_transposed c Hc Hfit _ _ Hw HA r s Hs). }
  eexists. split; [by apply run_eq|].
  cbn [rep_validates rep_abserr_tot rep_world]. split_and!; try done.
  - pose proof (abserr_tot_of_eq c _ Hc Hwn) as E.
    rewrite abserr_tot_of_transposed in E by done. by injection E.
  - by apply world_shaped_test.
  - intros r s Hs. split.
    + exact (world_after_initialised c Hc Hfit _ _ Hw HA r s Hs).
    + by apply HBn.
  - cbn [traffic world_after first_world].
    assert (∀ n t, length (Nat.iter n
              (λ t : list (Z * Z * Z), rev (chron_traffic c (Num_procs c - 1)) ++ t) t)
            = (n * Z.to_nat (Num_procs c * (Num_procs c - 1)) + length t)%nat) as Hit.
    { intros n t. induction n as [|n IH]; [done|].
      rewrite Nat.iter_succ, length_app, length_rev, IH.
      assert (length (chron_traffic c (Num_procs c - 1))
              = Z.to_nat (Num_procs c * (Num_procs c - 1))) as ->; [|lia].
      unfold chron_traffic.
      assert (∀ (l : list Z), length (d ← l;
                (λ k, (k, send_to_of c k d, to_int d)) <$> seqZ 0 (Num_procs c))
              = (length l * Z.to_nat (Num_procs c))%nat) as ->.
      { intros l. induction l as [|d l IHl]; [done|].
        rewrite bind_cons, length_app, IHl, length_fmap, length_seqZ. cbn. lia. }
      rewrite length_seqZ. nia. }
    rewrite Hit. cbn [length]. nia.
Qed.

(** X15.  From the command line to the verdict: when the root rank
    accepts its arguments, the iteration count and the order are not
    negative, the sizes fit the integer types, and every rank has the
    memory for its buffers, the run with the parameters of the broadcast
    validates: the sum of the absolute differences over all the cells of
    [B] is [+0.0]. *)
Theorem X15_accepted_run_validates MAX_THREADS fp_invalid COLLAPSE P argv i
    fresh timers time0 :
  1 <= P <= INT_MAX -> Forall is_int argv ->
  test_input MAX_THREADS P argv = inr i ->
  0 <= argv !!! 1%nat -> 0 <= argv !!! 2%nat ->
  sizes_fit (config_of fp_invalid COLLAPSE P i) = true ->
  Z.of_nat (length fresh) = P ->
  forallb (enough_memory (config_of fp_invalid COLLAPSE P i)) fresh = true ->
  ∃ rep,
    run (config_of fp_invalid COLLAPSE P i) fresh timers time0 = Ok rep
    ∧ rep_validates rep = true
    ∧ reduce fadd (imap (λ r s, abs_error_sum (config_of fp_invalid COLLAPSE P i)
                                  (Z.of_nat r) (B_p s))
                     (ranks (rep_world rep)))
      = pzero
    ∧ ∀ r s, ranks (rep_world rep) !! r = Some s ->
        B_transposed (config_of fp_invalid COLLAPSE P i) (Z.of_nat r) s.
Proof.
  intros HP Hint Hi H1 H2 Hsz Hlen Hmem.
  pose proof (accepted_valid MAX_THREADS fp_invalid COLLAPSE P argv i HP Hint Hi H1 H2)
    as Hv.
  set (c := config_of fp_invalid COLLAPSE P i) in *.
  pose proof (valid_config_layout _ Hv) as Hc.
  pose proof (sizes_fit_ok c Hsz) as Hfit.
  pose proof (lo_iter c Hc) as Hit.
  destruct (first_world_shaped _ Hc fresh Hlen Hmem) as [Hw HA].
  pose proof (world_after_shaped c Hc Hfit (Z.to_nat (iterations c + 1)) _ Hw) as Hwn.
  assert (∀ r s, ranks (world_after c (Z.to_nat (iterations c + 1)) (first_world c fresh))
                   !! r = Some s -> B_transposed c (Z.of_nat r) s) as HBn.
  { intros r s Hs.
    replace (Z.to_nat (iterations c + 1)) with (S (Z.to_nat (iterations c))) in Hs
      by lia.
    exact (world_after_transposed c Hc Hfit _ _ Hw HA r s Hs). }
  eexists. split; [by apply run_eq|].
  cbn [rep_validates rep_world]. split_and!; [done| |done].
  pose proof (abserr_tot_of_eq c _ Hc Hwn) as E.
  rewrite abserr_tot_of_transposed in E by done. by injection E.
Qed.

(** ** At the limits of the integer types *)


(** X17.  The byte count of a column block is computed in [size_t].
    Where it wraps, the allocation, if it succeeds, is shorter than the
    column block, the initialisation of the first rank stores outside
    it, and no run returns a report. *)
Theorem X17_wrapped_allocation_stops_run c f fresh :
  valid_config c = true ->
  size_mul (Colblock_size c) sizeof_double / sizeof_double < Colblock_size c ->
  (∀ s, allocate c f = Ok s ->
     Z.of_nat (length (A_p s)) < Colblock_size c
     ∧ initialize c 0 s = Fault OutOfBounds)
  ∧ (∃ e, start_world c (f :: fresh) = Fault e
          ∧ (e = AllocationFailed ∨ e = OutOfBounds))
  ∧ ∀ timers time0 rep, run c (f :: fresh) timers time0 ≠ Ok rep.
Proof.
  intros Hv Hwrap. pose proof (valid_config_layout c Hv) as Hc.
  destruct (start_world_wrapped c f fresh Hc Hwrap) as [Hin (e & He & Hcase)].
  split_and!.
  - intros s Hs. split; [|by apply Hin].
    apply allocate_cells in Hs as [HA _]; [|done]. lia.
  - by exists e.
  - intros timers time0 rep. unfold run. by rewrite He.
Qed.



(** * The further properties at sample inputs *)

(** X1 for two threads, three iterations, order 4 and tile order 1 on two ranks. *)
Lemma X1_witness :
  (1 <= 2 <= INT_MAX)
  ∧ (Forall is_int [2; 3; 4; 1])
  ∧ (test_input 8 2 [2; 3; 4; 1] = inr ({| in_nthread_input := 2; in_iterations := 3; in_order := 4; in_Tile_order := 1 |})
  ↔ ∃ nthread iters ord rest,
      [2; 3; 4; 1] = nthread :: iters :: ord :: rest ∧ (length rest <= 1)%nat
      ∧ 1 <= nthread <= 8
      ∧ iters ≠ 0
      ∧ 2 <= to_size_t ord ∧ to_size_t ord mod 2 = 0
      ∧ ({| in_nthread_input := 2; in_iterations := 3; in_order := 4; in_Tile_order := 1 |}) = {| in_nthread_input := nthread; in_iterations := to_size_t iters;
               in_order := to_size_t ord;
               in_Tile_order := match rest with [] => 32 | t :: _ => to_size_t t end |}).
Proof.
  assert (1 <= 2 <= INT_MAX) as H1
    by (vm_compute; repeat split; first [reflexivity | discriminate]).
  assert (Forall is_int [2; 3; 4; 1]) as H2
    by (repeat (apply Forall_cons_2; [vm_compute; split; discriminate|]); apply Forall_nil_2).
  pose proof (X1_input_tests
    8
    2
    [2; 3; 4; 1]
    ({| in_nthread_input := 2; in_iterations := 3; in_order := 4; in_Tile_order := 1 |})
    H1 H2) as HT.
  exact (conj H1 (conj H2 HT)).
Defined.

(** X2 for the same arguments. *)
Lemma X2_witness :
  (1 <= 2 <= INT_MAX)
  ∧ (Forall is_int [2; 3; 4; 1])
  ∧ (test_input 8 2 [2; 3; 4; 1] = inr ({| in_nthread_input := 2; in_iterations := 3; in_order := 4; in_Tile_order := 1 |}))
  ∧ (0 <= [2; 3; 4; 1] !!! 1%nat)
  ∧ (0 <= [2; 3; 4; 1] !!! 2%nat)
  ∧ (valid_config (config_of (λ _ : double, 0) false 2 ({| in_nthread_input := 2; in_iterations := 3; in_order := 4; in_Tile_order := 1 |})) = true
  ∧ in_order ({| in_nthread_input := 2; in_iterations := 3; in_order := 4; in_Tile_order := 1 |}) = [2; 3; 4; 1] !!! 2%nat ∧ in_iterations ({| in_nthread_input := 2; in_iterations := 3; in_order := 4; in_Tile_order := 1 |}) = [2; 3; 4; 1] !!! 1%nat).
Proof.
  assert (1 <= 2 <= INT_MAX) as H1
    by (vm_compute; repeat split; first [reflexivity | discriminate]).
  assert (Forall is_int [2; 3; 4; 1]) as H2
    by (repeat (apply Forall_cons_2; [vm_compute; split; discriminate|]); apply Forall_nil_2).
  assert (test_input 8 2 [2; 3; 4; 1] = inr ({| in_nthread_input := 2; in_iterations := 3; in_order := 4; in_Tile_order := 1 |})) as H3
    by (reflexivity).
  assert (0 <= [2; 3; 4; 1] !!! 1%nat) as H4
    by (vm_compute; repeat split; first [reflexivity | discriminate]).
  assert (0 <= [2; 3; 4; 1] !!! 2%nat) as H5
    by (vm_compute; repeat split; first [reflexivity | discriminate]).
  pose proof (X2_accepted_input_valid
    8
    (λ _ : double, 0)
    false
    2
    [2; 3; 4; 1]
    ({| in_nthread_input := 2; in_iterations := 3; in_order := 4; in_Tile_order := 1 |})
    H1 H2 H3 H4 H5) as HT.
  exact (conj H1 (conj H2 (conj H3 (conj H4 (conj H5 HT))))).
Defined.

(** X3 for the tile order -1. *)
Lemma X3_witness :
  (is_int (-1))
  ∧ (0 <= 8 <= INT_MAX)
  ∧ ((-1) <= 0 ∨ 8 <= (-1))
  ∧ (tiling_of (λ _ : double, 0) true 8 2 (to_size_t (-1)) 1 = false).
Proof.
  assert (is_int (-1)) as H1
    by (vm_compute; repeat split; first [reflexivity | discriminate]).
  assert (0 <= 8 <= INT_MAX) as H2
    by (vm_compute; repeat split; first [reflexivity | discriminate]).
  assert ((-1) <= 0 ∨ 8 <= (-1)) as H3
    by (left; vm_compute; discriminate).
  pose proof (X3_no_tiling_without_tile (λ _ : double, 0) true 8 2 (-1) 1 H1 H2 H3) as HT.
  exact (conj H1 (conj H2 (conj H3 HT))).
Defined.

(** X4 for blocks of order 5 and tiles of order 2. *)
Lemma X4_witness :
  (0 < 5 <= INT_MAX)
  ∧ (0 < 2 <= INT_MAX)
  ∧ (concurrency_of (λ _ : double, 0) false 5 2
  = (if false then to_int (((5 + 2 - 1) / 2) * ((5 + 2 - 1) / 2))
     else (5 + 2 - 1) / 2)
  ∧ (5 + 2 - 1) / 2 * 2 - 2 < 5 <= (5 + 2 - 1) / 2 * 2).
Proof.
  assert (0 < 5 <= INT_MAX) as H1
    by (vm_compute; repeat split; first [reflexivity | discriminate]).
  assert (0 < 2 <= INT_MAX) as H2
    by (vm_compute; repeat split; first [reflexivity | discriminate]).
  pose proof (X4_concurrency_estimate_exact (λ _ : double, 0) false 5 2 H1 H2) as HT.
  exact (conj H1 (conj H2 HT)).
Defined.

(** X5 on two ranks, order 4. *)
Lemma X5_witness :
  (valid_config sample_config = true)
  ∧ (sizes_fit sample_config = true)
  ∧ (Z.of_nat (length sample_fresh) = Num_procs sample_config)
  ∧ ((forallb (enough_memory sample_config) sample_fresh = true ->
     ∃ rep, run sample_config sample_fresh sample_timers [pzero; pzero] = Ok rep)
  ∧ (forallb (enough_memory sample_config) sample_fresh = false ->
     start_world sample_config sample_fresh = Fault AllocationFailed
     ∧ run sample_config sample_fresh sample_timers [pzero; pzero] = Fault AllocationFailed)
  ∧ ∀ f, run sample_config sample_fresh sample_timers [pzero; pzero] = Fault f -> f = AllocationFailed).
Proof.
  assert (valid_config sample_config = true) as H1
    by (reflexivity).
  assert (sizes_fit sample_config = true) as H2
    by (reflexivity).
  assert (Z.of_nat (length sample_fresh) = Num_procs sample_config) as H3
    by (reflexivity).
  pose proof (X5_only_fault_is_allocation
    sample_config
    sample_fresh
    sample_timers
    [pzero; pzero]
    H1 H2 H3) as HT.
  exact (conj H1 (conj H2 (conj H3 HT))).
Defined.

(** X6 on two ranks, order 4. *)
Lemma X6_witness :
  (valid_config sample_config = true)
  ∧ (sizes_fit sample_config = true)
  ∧ (Z.of_nat (length sample_fresh) = Num_procs sample_config)
  ∧ (forallb (enough_memory sample_config) sample_fresh = true)
  ∧ (∃ w0, start_world sample_config sample_fresh = Ok w0
    ∧ Z.of_nat (length (ranks w0)) = Num_procs sample_config
    ∧ ∀ r s f, ranks w0 !! r = Some s -> sample_fresh !! r = Some f ->
        B_p s = replicate (Z.to_nat (Colblock_size sample_config)) minus_one
        ∧ Work_p s = (if 1 <? Num_procs sample_config
                      then take (Z.to_nat (2 * Block_size sample_config)) f.2 else [])
        ∧ double_is_int minus_one (-1)).
Proof.
  assert (valid_config sample_config = true) as H1
    by (reflexivity).
  assert (sizes_fit sample_config = true) as H2
    by (reflexivity).
  assert (Z.of_nat (length sample_fresh) = Num_procs sample_config) as H3
    by (reflexivity).
  assert (forallb (enough_memory sample_config) sample_fresh = true) as H4
    by (reflexivity).
  pose proof (X6_sentinel_after_initialisation sample_config sample_fresh H1 H2 H3 H4) as HT.
  exact (conj H1 (conj H2 (conj H3 (conj H4 HT)))).
Defined.

(** X7 on the second of two ranks, order 4, tiles of order 1. *)
Lemma X7_witness :
  (valid_config sample_config = true)
  ∧ (tiling sample_config = true)
  ∧ (0 <= 1 < Num_procs sample_config)
  ∧ (Z.of_nat (length (A_p sample_rank)) = Colblock_size sample_config)
  ∧ (Z.of_nat (length (B_p sample_rank)) = Colblock_size sample_config)
  ∧ (∃ s_tiled s_flat,
    initialize sample_config 1 sample_rank = Ok s_tiled
    ∧ initialize (with_tiling false sample_config) 1 sample_rank = Ok s_flat
    ∧ A_p s_tiled = A_p s_flat ∧ B_p s_tiled = B_p s_flat
    ∧ Work_p s_tiled = Work_p s_flat
    ∧ B_stores s_tiled ≡ₚ B_stores s_flat).
Proof.
  assert (valid_config sample_config = true) as H1
    by (reflexivity).
  assert (tiling sample_config = true) as H2
    by (reflexivity).
  assert (0 <= 1 < Num_procs sample_config) as H3
    by (vm_compute; repeat split; first [reflexivity | discriminate]).
  assert (Z.of_nat (length (A_p sample_rank)) = Colblock_size sample_config) as H4
    by (reflexivity).
  assert (Z.of_nat (length (B_p sample_rank)) = Colblock_size sample_config) as H5
    by (reflexivity).
  pose proof (X7_tiled_initialisation sample_config 1 sample_rank H1 H2 H3 H4 H5) as HT.
  exact (conj H1 (conj H2 (conj H3 (conj H4 (conj H5 HT))))).
Defined.

(** X8 on two ranks, order 4. *)
Lemma X8_witness :
  (valid_config sample_config = true)
  ∧ (sizes_fit sample_config = true)
  ∧ (world_shapedb sample_config sample_world = true)
  ∧ (∃ w', transpose_iteration sample_config sample_world = Ok w'
    ∧ world_shapedb sample_config w' = true
    ∧ ∀ (k b : nat) s' sb x j,
        ranks w' !! k = Some s' -> ranks sample_world !! b = Some sb ->
        0 <= x < Block_order sample_config -> 0 <= j < Block_order sample_config ->
        B_p s' !! Z.to_nat (x + Block_order sample_config * Z.of_nat b + order sample_config * j)
        = Some (A_p sb !!! Z.to_nat (j + Block_order sample_config * Z.of_nat k + order sample_config * x))).
Proof.
  assert (valid_config sample_config = true) as H1
    by (reflexivity).
  assert (sizes_fit sample_config = true) as H2
    by (reflexivity).
  assert (world_shapedb sample_config sample_world = true) as H3
    by (reflexivity).
  pose proof (X8_iteration_transposes_any_matrix sample_config sample_world H1 H2 H3) as HT.
  exact (conj H1 (conj H2 (conj H3 HT))).
Defined.

(** X9 on two ranks, order 4. *)
Lemma X9_witness :
  (valid_config sample_config = true)
  ∧ (sizes_fit sample_config = true)
  ∧ (world_shapedb sample_config sample_world = true)
  ∧ (∃ w1 w2,
    transpose_iteration sample_config sample_world = Ok w1
    ∧ transpose_iteration sample_config w1 = Ok w2
    ∧ length (ranks w2) = length (ranks w1)
    ∧ ∀ k s1 s2, ranks w1 !! k = Some s1 -> ranks w2 !! k = Some s2 ->
        A_p s2 = A_p s1 ∧ B_p s2 = B_p s1).
Proof.
  assert (valid_config sample_config = true) as H1
    by (reflexivity).
  assert (sizes_fit sample_config = true) as H2
    by (reflexivity).
  assert (world_shapedb sample_config sample_world = true) as H3
    by (reflexivity).
  pose proof (X9_iteration_idempotent sample_config sample_world H1 H2 H3) as HT.
  exact (conj H1 (conj H2 (conj H3 HT))).
Defined.

(** X10 for rank 0 of two in phase 1. *)
Lemma X10_witness :
  (valid_config sample_config = true)
  ∧ (sizes_fit sample_config = true)
  ∧ (1 <= 1 < Num_procs sample_config)
  ∧ (0 <= 0 < Num_procs sample_config)
  ∧ (rank_shapedb sample_config sample_rank = true)
  ∧ (∃ s' m,
    post_send sample_config 1 0 sample_rank = Ok (s', m)
    ∧ msg_src m = 0 ∧ msg_dst m = send_to_of sample_config 0 1 ∧ msg_dst m ≠ 0
    ∧ msg_tag m = 1
    ∧ Z.of_nat (length (msg_data m)) = Block_size sample_config
    ∧ (∀ x y, 0 <= x < Block_order sample_config -> 0 <= y < Block_order sample_config ->
         msg_data m !! Z.to_nat (y + Block_order sample_config * x)
         = Some (A_p sample_rank !!! Z.to_nat (x + Block_order sample_config * send_to_of sample_config 0 1
                                      + order sample_config * y)))
    ∧ A_p s' = A_p sample_rank ∧ B_p s' = B_p sample_rank ∧ B_stores s' = B_stores sample_rank).
Proof.
  assert (valid_config sample_config = true) as H1
    by (reflexivity).
  assert (sizes_fit sample_config = true) as H2
    by (reflexivity).
  assert (1 <= 1 < Num_procs sample_config) as H3
    by (vm_compute; repeat split; first [reflexivity | discriminate]).
  assert (0 <= 0 < Num_procs sample_config) as H4
    by (vm_compute; repeat split; first [reflexivity | discriminate]).
  assert (rank_shapedb sample_config sample_rank = true) as H5
    by (reflexivity).
  pose proof (X10_message_is_transposed_block
    sample_config
    1
    0
    sample_rank
    H1 H2 H3 H4 H5) as HT.
  exact (conj H1 (conj H2 (conj H3 (conj H4 (conj H5 HT))))).
Defined.

(** X11 for phase 1 on two ranks. *)
Lemma X11_witness :
  (valid_config sample_config = true)
  ∧ (sizes_fit sample_config = true)
  ∧ (world_shapedb sample_config sample_world = true)
  ∧ (1 <= 1 < Num_procs sample_config)
  ∧ (∃ w', exchange_phase sample_config 1 sample_world = Ok w'
    ∧ wire w' = []
    ∧ world_shapedb sample_config w' = true
    ∧ Z.of_nat (length (traffic w')) = Z.of_nat (length (traffic sample_world)) + Num_procs sample_config
    ∧ ∀ (k : nat) s' sp sp' m,
        ranks w' !! k = Some s' ->
        ranks sample_world !! Z.to_nat (recv_from_of sample_config (Z.of_nat k) 1) = Some sp ->
        post_send sample_config 1 (recv_from_of sample_config (Z.of_nat k) 1) sp = Ok (sp', m) ->
        msg_dst m = Z.of_nat k
        ∧ take (Z.to_nat (Block_size sample_config)) (Work_p s') = msg_data m).
Proof.
  assert (valid_config sample_config = true) as H1
    by (reflexivity).
  assert (sizes_fit sample_config = true) as H2
    by (reflexivity).
  assert (world_shapedb sample_config sample_world = true) as H3
    by (reflexivity).
  assert (1 <= 1 < Num_procs sample_config) as H4
    by (vm_compute; repeat split; first [reflexivity | discriminate]).
  pose proof (X11_phase_delivers_every_message
    sample_config
    1
    sample_world
    H1 H2 H3 H4) as HT.
  exact (conj H1 (conj H2 (conj H3 (conj H4 HT)))).
Defined.

(** X12 for the block that goes to rank 1. *)
Lemma X12_witness :
  (valid_config sample_config = true)
  ∧ (1 < Num_procs sample_config)
  ∧ (0 <= 1 < Num_procs sample_config)
  ∧ (rank_shapedb sample_config sample_rank = true)
  ∧ (∃ s', pack_block sample_config 1 sample_rank = Ok s'
    ∧ take (Z.to_nat (Block_size sample_config)) (Work_p s')
      = take (Z.to_nat (Block_size sample_config)) (Work_p sample_rank)
    ∧ length (Work_p s') = length (Work_p sample_rank)
    ∧ A_p s' = A_p sample_rank ∧ B_p s' = B_p sample_rank ∧ B_stores s' = B_stores sample_rank
    ∧ ∀ x y, 0 <= x < Block_order sample_config -> 0 <= y < Block_order sample_config ->
        Work_p s' !! Z.to_nat (Work_out_p sample_config + Work_index sample_config y x)
        = Some (A_p sample_rank !!! Z.to_nat (Colblock_index sample_config (Block_order sample_config * 1) x y))).
Proof.
  assert (valid_config sample_config = true) as H1
    by (reflexivity).
  assert (1 < Num_procs sample_config) as H2
    by (vm_compute; repeat split; first [reflexivity | discriminate]).
  assert (0 <= 1 < Num_procs sample_config) as H3
    by (vm_compute; repeat split; first [reflexivity | discriminate]).
  assert (rank_shapedb sample_config sample_rank = true) as H4
    by (reflexivity).
  pose proof (X12_outgoing_block_keeps_receive_buffer
    sample_config
    1
    sample_rank
    H1 H2 H3 H4) as HT.
  exact (conj H1 (conj H2 (conj H3 (conj H4 HT)))).
Defined.

(** X13 for rank 0 of two in phase 1. *)
Lemma X13_witness :
  (valid_config sample_config = true)
  ∧ (sizes_fit sample_config = true)
  ∧ (1 <= 1 < Num_procs sample_config)
  ∧ (0 <= 0 < Num_procs sample_config)
  ∧ (rank_shapedb sample_config sample_rank = true)
  ∧ (Z.of_nat (length (replicate 4 minus_one)) = Block_size sample_config)
  ∧ (∃ s',
    complete_recv sample_config 1 0 sample_rank
      [{| msg_src := recv_from_of sample_config 0 1; msg_dst := 0; msg_tag := 1;
          msg_data := (replicate 4 minus_one) |}] = Ok (s', [])
    ∧ take (Z.to_nat (Block_size sample_config)) (Work_p s') = (replicate 4 minus_one)
    ∧ drop (Z.to_nat (Block_size sample_config)) (Work_p s')
      = drop (Z.to_nat (Block_size sample_config)) (Work_p sample_rank)
    ∧ A_p s' = A_p sample_rank
    ∧ ∀ x j, 0 <= x < Block_order sample_config -> 0 <= j < Block_order sample_config ->
        B_p s' !! Z.to_nat (Colblock_index sample_config (Block_order sample_config * recv_from_of sample_config 0 1) x j)
        = (replicate 4 minus_one) !! Z.to_nat (Work_index sample_config x j)).
Proof.
  assert (valid_config sample_config = true) as H1
    by (reflexivity).
  assert (sizes_fit sample_config = true) as H2
    by (reflexivity).
  assert (1 <= 1 < Num_procs sample_config) as H3
    by (vm_compute; repeat split; first [reflexivity | discriminate]).
  assert (0 <= 0 < Num_procs sample_config) as H4
    by (vm_compute; repeat split; first [reflexivity | discriminate]).
  assert (rank_shapedb sample_config sample_rank = true) as H5
    by (reflexivity).
  assert (Z.of_nat (length (replicate 4 minus_one)) = Block_size sample_config) as H6
    by (reflexivity).
  pose proof (X13_receive_keeps_send_buffer
    sample_config
    1
    0
    sample_rank
    (replicate 4 minus_one)
    H1 H2 H3 H4 H5 H6) as HT.
  exact (conj H1 (conj H2 (conj H3 (conj H4 (conj H5 (conj H6 HT)))))).
Defined.

(** X14 on two ranks, order 4, two timed iterations. *)
Lemma X14_witness :
  (valid_config sample_config = true)
  ∧ (sizes_fit sample_config = true)
  ∧ (Z.of_nat (length sample_fresh) = Num_procs sample_config)
  ∧ (forallb (enough_memory sample_config) sample_fresh = true)
  ∧ (∃ rep,
    run sample_config sample_fresh sample_timers [pzero; pzero] = Ok rep
    ∧ rep_validates rep = true
    ∧ rep_abserr_tot rep = pzero
    ∧ reduce fadd (imap (λ r s, abs_error_sum sample_config (Z.of_nat r) (B_p s))
                     (ranks (rep_world rep)))
      = rep_abserr_tot rep
    ∧ world_shapedb sample_config (rep_world rep) = true
    ∧ (∀ r s, ranks (rep_world rep) !! r = Some s ->
         A_initialised sample_config (Z.of_nat r) s ∧ B_transposed sample_config (Z.of_nat r) s)
    ∧ Z.of_nat (length (traffic (rep_world rep)))
      = (iterations sample_config + 1) * (Num_procs sample_config * (Num_procs sample_config - 1))).
Proof.
  assert (valid_config sample_config = true) as H1
    by (reflexivity).
  assert (sizes_fit sample_config = true) as H2
    by (reflexivity).
  assert (Z.of_nat (length sample_fresh) = Num_procs sample_config) as H3
    by (reflexivity).
  assert (forallb (enough_memory sample_config) sample_fresh = true) as H4
    by (reflexivity).
  pose proof (X14_run_validates
    sample_config
    sample_fresh
    sample_timers
    [pzero; pzero]
    H1 H2 H3 H4) as HT.
  exact (conj H1 (conj H2 (conj H3 (conj H4 HT)))).
Defined.

(** X15 for the same arguments and memory, built with [COLLAPSE]. *)
Lemma X15_witness :
  (1 <= 2 <= INT_MAX)
  ∧ (Forall is_int [2; 3; 4; 1])
  ∧ (test_input 8 2 [2; 3; 4; 1] = inr ({| in_nthread_input := 2; in_iterations := 3; in_order := 4; in_Tile_order := 1 |}))
  ∧ (0 <= [2; 3; 4; 1] !!! 1%nat)
  ∧ (0 <= [2; 3; 4; 1] !!! 2%nat)
  ∧ (sizes_fit (config_of (λ _ : double, 0) true 2 ({| in_nthread_input := 2; in_iterations := 3; in_order := 4; in_Tile_order := 1 |})) = true)
  ∧ (Z.of_nat (length sample_fresh) = 2)
  ∧ (forallb (enough_memory (config_of (λ _ : double, 0) true 2 ({| in_nthread_input := 2; in_iterations := 3; in_order := 4; in_Tile_order := 1 |}))) sample_fresh = true)
  ∧ (∃ rep,
    run (config_of (λ _ : double, 0) true 2 ({| in_nthread_input := 2; in_iterations := 3; in_order := 4; in_Tile_order := 1 |})) sample_fresh sample_timers [pzero; pzero] = Ok rep
    ∧ rep_validates rep = true
    ∧ reduce fadd (imap (λ r s, abs_error_sum (config_of (λ _ : double, 0) true 2 ({| in_nthread_input := 2; in_iterations := 3; in_order := 4; in_Tile_order := 1 |}))
                                  (Z.of_nat r) (B_p s))
                     (ranks (rep_world rep)))
      = pzero
    ∧ ∀ r s, ranks (rep_world rep) !! r = Some s ->
        B_transposed (config_of (λ _ : double, 0) true 2 ({| in_nthread_input := 2; in_iterations := 3; in_order := 4; in_Tile_order := 1 |})) (Z.of_nat r) s).
Proof.
  assert (1 <= 2 <= INT_MAX) as H1
    by (vm_compute; repeat split; first [reflexivity | discriminate]).
  assert (Forall is_int [2; 3; 4; 1]) as H2
    by (repeat (apply Forall_cons_2; [vm_compute; split; discriminate|]); apply Forall_nil_2).
  assert (test_input 8 2 [2; 3; 4; 1] = inr ({| in_nthread_input := 2; in_iterations := 3; in_order := 4; in_Tile_order := 1 |})) as H3
    by (reflexivity).
  assert (0 <= [2; 3; 4; 1] !!! 1%nat) as H4
    by (vm_compute; repeat split; first [reflexivity | discriminate]).
  assert (0 <= [2; 3; 4; 1] !!! 2%nat) as H5
    by (vm_compute; repeat split; first [reflexivity | discriminate]).
  assert (sizes_fit (config_of (λ _ : double, 0) true 2 ({| in_nthread_input := 2; in_iterations := 3; in_order := 4; in_Tile_order := 1 |})) = true) as H6
    by (reflexivity).
  assert (Z.of_nat (length sample_fresh) = 2) as H7
    by (reflexivity).
  assert (forallb (enough_memory (config_of (λ _ : double, 0) true 2 ({| in_nthread_input := 2; in_iterations := 3; in_order := 4; in_Tile_order := 1 |}))) sample_fresh = true) as H8
    by (reflexivity).
  pose proof (X15_accepted_run_validates
    8
    (λ _ : double, 0)
    true
    2
    [2; 3; 4; 1]
    ({| in_nthread_input := 2; in_iterations := 3; in_order := 4; in_Tile_order := 1 |})
    sample_fresh
    sample_timers
    [pzero; pzero]
    H1 H2 H3 H4 H5 H6 H7 H8) as HT.
  exact (conj H1 (conj H2 (conj H3 (conj H4 (conj H5 (conj H6 (conj H7 (conj H8 HT)))))))).
Defined.


(** X17 on one rank, order 1518500250. *)
Lemma X17_witness :
  (valid_config large_matrix_config = true)
  ∧ (size_mul (Colblock_size large_matrix_config) sizeof_double / sizeof_double < Colblock_size large_matrix_config)
  ∧ ((∀ s, allocate large_matrix_config ([], [], []) = Ok s ->
     Z.of_nat (length (A_p s)) < Colblock_size large_matrix_config
     ∧ initialize large_matrix_config 0 s = Fault OutOfBounds)
  ∧ (∃ e, start_world large_matrix_config (([], [], []) :: []) = Fault e
          ∧ (e = AllocationFailed ∨ e = OutOfBounds))
  ∧ ∀ timers time0 rep, run large_matrix_config (([], [], []) :: []) timers time0 ≠ Ok rep).
Proof.
  assert (valid_config large_matrix_config = true) as H1
    by (reflexivity).
  assert (size_mul (Colblock_size large_matrix_config) sizeof_double / sizeof_double < Colblock_size large_matrix_config) as H2
    by (reflexivity).
  pose proof (X17_wrapped_allocation_stops_run
    large_matrix_config
    ([], [], [])
    []
    H1 H2) as HT.
  exact (conj H1 (conj H2 HT)).
Defined.

